(** * Sudoku engine: validator, backtracking solver and puzzle generator

    Shallow embedding of [sudokuValidator.ts], [sudokuSolver.ts] and
    [sudokuGenerator.ts], and of the state and the handlers of the
    [SudokuBoard] component.

    A JavaScript [number] held in a cell is modelled as an integer ([Z]);
    [null] is [None].  A board is the array of its row arrays.  In-place
    mutation of the board is modelled by explicit state passing: a function
    that writes to its argument returns the final contents of that argument
    next to its result.  [Math.random] is an oracle (an infinite stream of
    naturals read through a cursor), threaded through the generator.

    The recursive searches carry a bound [fuel] on the recursion depth and
    return [None] when it is reached; the results below show that the bound
    of 81 used by the entry points is never reached on a 9x9 board. *)

From Stdlib Require Import List ZArith Lia Bool Arith PeanoNat Permutation.
From Stdlib Require String DecimalString.
Import ListNotations.

Set Implicit Arguments.

(** ** Board model *)

Definition Cell := option Z.
Definition Board := list (list Cell).

(** In-place update of one slot of an array (indices used by the program are
    always in range; out of range the model leaves the list as it is). *)
Fixpoint upd {A : Type} (n : nat) (x : A) (l : list A) : list A :=
  match l, n with
  | [], _ => []
  | _ :: t, O => x :: t
  | h :: t, S n' => h :: upd n' x t
  end.

(** [m[row][col]] and [m[row][col] = v] on an array of arrays. *)
Definition nth2 {A : Type} (d : A) (m : list (list A)) (row col : nat) : A :=
  nth col (nth row m []) d.

Definition upd2 {A : Type} (m : list (list A)) (row col : nat) (v : A)
  : list (list A) :=
  upd row (upd col v (nth row m [])) m.

(** [board[row][col]] *)
Definition getCell (b : Board) (row col : nat) : Cell := nth2 None b row col.

(** [board[row][col] = v] *)
Definition setCell (b : Board) (row col : nat) (v : Cell) : Board :=
  upd2 b row col v.

(** [Array(9).fill(null).map(() => Array(9).fill(null))] *)
Definition emptyBoard : Board := repeat (repeat None 9) 9.

(** [cell === num] for a cell that is a number or [null]. *)
Definition cellIs (c : Cell) (num : Z) : bool :=
  match c with
  | Some v => Z.eqb v num
  | None => false
  end.

Definition isNull (c : Cell) : bool :=
  match c with
  | Some _ => false
  | None => true
  end.

(** The 81 positions in row-major order: the order in which the nested
    [for (row...) for (col...)] loops visit them. *)
Definition allPositions : list (nat * nat) :=
  flat_map (fun row => map (fun col => (row, col)) (seq 0 9)) (seq 0 9).

(** ** sudokuValidator.ts *)

Definition isValidMove (board : Board) (row col : nat) (num : Z) : bool :=
  if existsb (fun x => negb (x =? col) && cellIs (getCell board row x) num)
       (seq 0 9)
  then false
  else if existsb (fun x => negb (x =? row) && cellIs (getCell board x col) num)
            (seq 0 9)
  then false
  else
    let boxStartRow := row - row mod 3 in
    let boxStartCol := col - col mod 3 in
    if existsb (fun i => existsb (fun j =>
          let currentRow := boxStartRow + i in
          let currentCol := boxStartCol + j in
          negb ((currentRow =? row) && (currentCol =? col))
          && cellIs (getCell board currentRow currentCol) num)
        (seq 0 3)) (seq 0 3)
    then false
    else true.

Definition findConflicts (board : Board) (row col : nat) : list (nat * nat) :=
  match getCell board row col with
  | None => []
  | Some value =>
    map (fun x => (row, x))
        (filter (fun x => negb (x =? col) && cellIs (getCell board row x) value)
                (seq 0 9))
    ++ map (fun x => (x, col))
        (filter (fun x => negb (x =? row) && cellIs (getCell board x col) value)
                (seq 0 9))
    ++ (let boxStartRow := row - row mod 3 in
        let boxStartCol := col - col mod 3 in
        flat_map (fun i => flat_map (fun j =>
            let currentRow := boxStartRow + i in
            let currentCol := boxStartCol + j in
            if (currentRow =? row) && (currentCol =? col) then []
            else if cellIs (getCell board currentRow currentCol) value
                 then [(currentRow, currentCol)]
                 else [])
          (seq 0 3)) (seq 0 3))
  end.

Definition isBoardValid (board : Board) : bool :=
  forallb (fun p =>
      match getCell board (fst p) (snd p) with
      | None => true
      | Some _ => negb (0 <? length (findConflicts board (fst p) (snd p)))
      end)
    allPositions.

Definition isBoardSolved (board : Board) : bool :=
  if existsb (fun p => isNull (getCell board (fst p) (snd p))) allPositions
  then false
  else isBoardValid board.

(** ** sudokuSolver.ts *)

Definition digits : list Z := map Z.of_nat (seq 1 9).

(** The first empty cell in row-major order, as found by the two outer loops
    of [solveSudoku]. *)
Definition firstEmpty (board : Board) : option (nat * nat) :=
  find (fun p => isNull (getCell board (fst p) (snd p))) allPositions.

(** The [for (num...)] loop of [solveSudoku] at the cell [(row, col)];
    [rec] is the recursive call.  The result carries the final board. *)
Fixpoint tryNumbers (rec : Board -> option (bool * Board))
    (row col : nat) (nums : list Z) (board : Board) : option (bool * Board) :=
  match nums with
  | [] => Some (false, board)
  | num :: rest =>
    if isValidMove board row col num then
      match rec (setCell board row col (Some num)) with
      | None => None
      | Some (true, board') => Some (true, board')
      | Some (false, board') =>
        tryNumbers rec row col rest (setCell board' row col None)
      end
    else tryNumbers rec row col rest board
  end.

(** [solveSudoku]; the recursion depth is bounded by [fuel], and [None] means
    that the bound was reached. *)
Fixpoint solveSudoku_fuel (fuel : nat) (board : Board) : option (bool * Board) :=
  match firstEmpty board with
  | None => Some (true, board)
  | Some (row, col) =>
    match fuel with
    | O => None
    | S fuel' => tryNumbers (solveSudoku_fuel fuel') row col digits board
    end
  end.

(** A board has 81 cells, so the recursion is at most 81 deep. *)
Definition solveSudoku (board : Board) : option (bool * Board) :=
  solveSudoku_fuel 81 board.

(** [isSolvable]: [solveSudoku] on a copy; only the boolean is kept. *)
Definition isSolvable (board : Board) : option bool :=
  let testBoard := map (fun row => row) board in
  match solveSudoku testBoard with
  | None => None
  | Some (ok, _) => Some ok
  end.

(** A hint: [{row, col, value}]. *)
Record Hint := mkHint { hintRow : nat; hintCol : nat; hintValue : Z }.

(** [getNextHint].  [solvedBoard] is a fresh copy (fresh row arrays), so the
    writes of [solveSudoku] go to the copy; the function returns its result
    (the outer [option] is the recursion bound of [solveSudoku], the inner one
    is [null]) together with the final contents of [board]. *)
Definition getNextHint (board : Board) : option (option Hint) * Board :=
  let solvedBoard := map (fun row => row) board in
  match solveSudoku solvedBoard with
  | None => (None, board)
  | Some (false, _) => (Some None, board)
  | Some (true, solvedBoard') =>
    match find (fun p =>
                  isNull (getCell board (fst p) (snd p))
                  && negb (isNull (getCell solvedBoard' (fst p) (snd p))))
               allPositions with
    | Some (row, col) =>
      match getCell solvedBoard' row col with
      | Some value => (Some (Some (mkHint row col value)), board)
      | None => (Some None, board)
      end
    | None => (Some None, board)
    end
  end.

(** ** sudokuGenerator.ts *)

Inductive Difficulty := EASY | MEDIUM | HARD | EXPERT.

(** [Math.random]: a stream of naturals and the number of values drawn so
    far.  [Math.floor(Math.random() * n)] is an integer in [0, n-1]; the model
    reduces the drawn natural modulo [n], which ranges over the same set. *)
Record Rng := mkRng { stream : nat -> nat; cursor : nat }.

Definition randomBelow (n : nat) (g : Rng) : nat * Rng :=
  (stream g (cursor g) mod n, mkRng (stream g) (S (cursor g))).

(** [[a[i], a[j]] = [a[j], a[i]]] *)
Definition swap {A : Type} (a : list A) (i j : nat) : list A :=
  match nth_error a i, nth_error a j with
  | Some x, Some y => upd i y (upd j x a)
  | _, _ => a
  end.

(** The loop of [shuffleArray], from index [i] down to 1. *)
Fixpoint shuffleFrom {A : Type} (i : nat) (newArray : list A) (g : Rng)
  : list A * Rng :=
  match i with
  | O => (newArray, g)
  | S i' =>
    let (j, g') := randomBelow (i + 1) g in
    shuffleFrom i' (swap newArray i j) g'
  end.

Definition shuffleArray {A : Type} (array : list A) (g : Rng) : list A * Rng :=
  shuffleFrom (length array - 1) array g.

(** The [for (const num of numbers)] loop of [fillBoard]. *)
Fixpoint tryShuffled (rec : Board -> Rng -> option (bool * Board * Rng))
    (row col : nat) (numbers : list Z) (board : Board) (g : Rng)
  : option (bool * Board * Rng) :=
  match numbers with
  | [] => Some (false, board, g)
  | num :: rest =>
    if isValidMove board row col num then
      match rec (setCell board row col (Some num)) g with
      | None => None
      | Some (true, board', g') => Some (true, board', g')
      | Some (false, board', g') =>
        tryShuffled rec row col rest (setCell board' row col None) g'
      end
    else tryShuffled rec row col rest board g
  end.

(** [fillBoard], the closure of [generateCompleteSudoku]; [None] when the
    recursion bound [fuel] is reached. *)
Fixpoint fillBoard_fuel (fuel : nat) (row col : nat) (board : Board) (g : Rng)
  : option (bool * Board * Rng) :=
  if row =? 9 then Some (true, board, g)
  else
    match fuel with
    | O => None
    | S fuel' =>
      let nextRow := if col =? 8 then row + 1 else row in
      let nextCol := if col =? 8 then 0 else col + 1 in
      let (numbers, g1) := shuffleArray digits g in
      tryShuffled (fillBoard_fuel fuel' nextRow nextCol) row col numbers board g1
    end.

(** [generateCompleteSudoku]: the result of [fillBoard(0, 0)] is ignored and
    the board is returned as it is then. *)
Definition generateCompleteSudoku (g : Rng) : option (Board * Rng) :=
  match fillBoard_fuel 81 0 0 emptyBoard g with
  | None => None
  | Some (_, board, g') => Some (board, g')
  end.

Definition countFilledInBox (board : Board) (boxRow boxCol : nat) : nat :=
  let startRow := boxRow * 3 in
  let startCol := boxCol * 3 in
  list_sum (map (fun i =>
    list_sum (map (fun j =>
      if isNull (getCell board (startRow + i) (startCol + j)) then 0 else 1)
      (seq 0 3)))
    (seq 0 3)).

(** [{min, max}] is returned as the pair [(min, max)]. *)
Definition getBoxConstraints (difficulty : Difficulty) : nat * nat :=
  match difficulty with
  | EASY => (3, 6)
  | MEDIUM => (2, 5)
  | HARD => (1, 4)
  | EXPERT => (0, 3)
  end.

Definition getCluesRange (difficulty : Difficulty) : nat * nat :=
  match difficulty with
  | EASY => (36, 41)
  | MEDIUM => (27, 32)
  | HARD => (22, 27)
  | EXPERT => (17, 22)
  end.

(** The nine boxes in the order of the [for (boxRow...) for (boxCol...)]
    loops. *)
Definition boxes : list (nat * nat) :=
  flat_map (fun boxRow => map (fun boxCol => (boxRow, boxCol)) (seq 0 3))
           (seq 0 3).

(** [Array(3).fill(null).map(() => Array(3).fill(0))] *)
Definition zeroRemovals : list (list nat) := repeat (repeat 0 3) 3.

(** [cellsByBox] after the grouping loop of [removeCellsImproved]. *)
Definition groupCellsByBox : list (list (list (nat * nat))) :=
  fold_left (fun cellsByBox p =>
      let boxRow := fst p / 3 in
      let boxCol := snd p / 3 in
      upd2 cellsByBox boxRow boxCol (nth2 [] cellsByBox boxRow boxCol ++ [p]))
    allPositions (repeat (repeat [] 3) 3).

(** The loop that shuffles the cells of each box. *)
Definition shuffleBoxes (cellsByBox : list (list (list (nat * nat)))) (g : Rng)
  : list (list (list (nat * nat))) * Rng :=
  fold_left (fun st bx =>
      let (shuffled, g') := shuffleArray (nth2 [] (fst st) (fst bx) (snd bx)) (snd st) in
      (upd2 (fst st) (fst bx) (snd bx) shuffled, g'))
    boxes (cellsByBox, g).

(** The mutable locals of the removal passes. *)
Record Removal := mkRemoval {
  puzzle : Board;
  boxRemovals : list (list nat);
  totalRemoved : nat
}.

(** [puzzle[row][col] = null; boxRemovals[boxRow][boxCol]++; totalRemoved++] *)
Definition removeCell (st : Removal) (row col boxRow boxCol : nat) : Removal :=
  mkRemoval (setCell (puzzle st) row col None)
            (upd2 (boxRemovals st) boxRow boxCol
                  (nth2 0 (boxRemovals st) boxRow boxCol + 1))
            (totalRemoved st + 1).

(** First pass of [removeCellsImproved]. *)
Definition firstPass (cellsByBox : list (list (list (nat * nat))))
    (minRemovedPerBox : nat) (st : Removal) : Removal :=
  fold_left (fun st bx =>
      let cells := nth2 [] cellsByBox (fst bx) (snd bx) in
      let toRemove := minRemovedPerBox in
      fold_left (fun st p => removeCell st (fst p) (snd p) (fst bx) (snd bx))
                (firstn toRemove cells) st)
    boxes st.

(** [allCells] of the second pass: entries are [[row, col, boxRow, boxCol]]. *)
Definition collectCells (cellsByBox : list (list (list (nat * nat))))
    (minRemovedPerBox : nat) : list (nat * nat * nat * nat) :=
  flat_map (fun bx =>
      let cells := nth2 [] cellsByBox (fst bx) (snd bx) in
      map (fun p => (fst p, snd p, fst bx, snd bx)) (skipn minRemovedPerBox cells))
    boxes.

(** The loop over [shuffledCells] with its [break] and [continue]. *)
Fixpoint secondPass (cells : list (nat * nat * nat * nat))
    (targetEmpty maxRemovedPerBox : nat) (st : Removal) : Removal :=
  match cells with
  | [] => st
  | (row, col, boxRow, boxCol) :: rest =>
    if targetEmpty <=? totalRemoved st then st
    else if maxRemovedPerBox <=? nth2 0 (boxRemovals st) boxRow boxCol
    then secondPass rest targetEmpty maxRemovedPerBox st
    else secondPass rest targetEmpty maxRemovedPerBox
           (removeCell st row col boxRow boxCol)
  end.

Definition removeCellsImproved (board : Board) (difficulty : Difficulty)
    (g : Rng) : Board * Rng :=
  let puzzle0 := map (fun row => row) board in
  let (minPerBox, maxPerBox) := getBoxConstraints difficulty in
  let (minTotal, maxTotal) := getCluesRange difficulty in
  let (k, g1) := randomBelow (maxTotal - minTotal + 1) g in
  let targetClues := minTotal + k in
  let targetEmpty := 81 - targetClues in
  let (cellsByBox, g2) := shuffleBoxes groupCellsByBox g1 in
  let maxRemovedPerBox := 9 - minPerBox in
  let minRemovedPerBox := 9 - maxPerBox in
  let st1 := firstPass cellsByBox minRemovedPerBox
               (mkRemoval puzzle0 zeroRemovals 0) in
  let allCells := collectCells cellsByBox minRemovedPerBox in
  let (shuffledCells, g3) := shuffleArray allCells g2 in
  (puzzle (secondPass shuffledCells targetEmpty maxRemovedPerBox st1), g3).

(** [positions] of [generateSymmetricPuzzle]. *)
Definition symmetricPositions : list (nat * nat) :=
  flat_map (fun row => flat_map (fun col =>
      if (row =? 4) && (col =? 4) then []
      else if (row <? 4) || ((row =? 4) && (col <? 4)) then [(row, col)]
      else [])
    (seq 0 9)) (seq 0 5).

(** The removal loop of [generateSymmetricPuzzle]; [totalRemoved] plays the
    role of [removed]. *)
Fixpoint symmetricLoop (positions : list (nat * nat))
    (cellsToRemove maxRemovedPerBox : nat) (st : Removal) : Removal :=
  match positions with
  | [] => st
  | (row, col) :: rest =>
    if cellsToRemove <=? totalRemoved st then st
    else
      let boxRow1 := row / 3 in
      let boxCol1 := col / 3 in
      let boxRow2 := (8 - row) / 3 in
      let boxCol2 := (8 - col) / 3 in
      if (maxRemovedPerBox <=? nth2 0 (boxRemovals st) boxRow1 boxCol1)
         || (maxRemovedPerBox <=? nth2 0 (boxRemovals st) boxRow2 boxCol2)
      then symmetricLoop rest cellsToRemove maxRemovedPerBox st
      else
        let puzzle1 := setCell (puzzle st) row col None in
        let puzzle2 := setCell puzzle1 (8 - row) (8 - col) None in
        let removals1 :=
          upd2 (boxRemovals st) boxRow1 boxCol1
               (nth2 0 (boxRemovals st) boxRow1 boxCol1 + 1) in
        let removals2 :=
          upd2 removals1 boxRow2 boxCol2
               (nth2 0 removals1 boxRow2 boxCol2 + 1) in
        symmetricLoop rest cellsToRemove maxRemovedPerBox
          (mkRemoval puzzle2 removals2 (totalRemoved st + 2))
  end.

(** The body of [generateSymmetricPuzzle] once [completeSudoku] is there. *)
Definition symmetricRemoval (completeSudoku : Board) (difficulty : Difficulty)
    (g : Rng) : Board * Rng :=
  let puzzle0 := map (fun row => row) completeSudoku in
  let (minTotal, maxTotal) := getCluesRange difficulty in
  let (k, g1) := randomBelow (maxTotal - minTotal + 1) g in
  let targetClues := minTotal + k in
  let targetEmpty := 81 - targetClues in
  let cellsToRemove :=
    if targetEmpty mod 2 =? 0 then targetEmpty else targetEmpty - 1 in
  let (minPerBox, _) := getBoxConstraints difficulty in
  let maxRemovedPerBox := 9 - minPerBox in
  let (shuffledPositions, g2) := shuffleArray symmetricPositions g1 in
  (puzzle (symmetricLoop shuffledPositions cellsToRemove maxRemovedPerBox
             (mkRemoval puzzle0 zeroRemovals 0)), g2).

Definition generateSymmetricPuzzle (difficulty : Difficulty) (g : Rng)
  : option (Board * Rng) :=
  match generateCompleteSudoku g with
  | None => None
  | Some (completeSudoku, g1) => Some (symmetricRemoval completeSudoku difficulty g1)
  end.

Definition generateSudokuPuzzle (difficulty : Difficulty) (g : Rng)
  : option (Board * Rng) :=
  match generateCompleteSudoku g with
  | None => None
  | Some (completeSudoku, g1) => Some (removeCellsImproved completeSudoku difficulty g1)
  end.

(** The search for a completely filled box in [generateBalancedPuzzle]. *)
Definition hasCompleteBox (board : Board) : bool :=
  existsb (fun bx => countFilledInBox board (fst bx) (snd bx) =? 9) boxes.

(** The [while (attempts < maxAttempts)] loop of [generateBalancedPuzzle],
    with [remaining = maxAttempts - attempts], and the fallback after it. *)
Fixpoint balancedLoop (remaining : nat) (difficulty : Difficulty) (g : Rng)
  : option (Board * Rng) :=
  match remaining with
  | O => generateSudokuPuzzle difficulty g
  | S remaining' =>
    match generateSudokuPuzzle difficulty g with
    | None => None
    | Some (p, g') =>
      if hasCompleteBox p then balancedLoop remaining' difficulty g'
      else Some (p, g')
    end
  end.

Definition generateBalancedPuzzle (difficulty : Difficulty) (g : Rng)
  : option (Board * Rng) :=
  let maxAttempts := 10 in
  balancedLoop maxAttempts difficulty g.

(** The [for (num...)] loop of the closure [solve] of [hasUniqueSolution];
    the state is [testBoard] and [solutionCount]. *)
Fixpoint tryCounting (rec : Board -> nat -> option (bool * Board * nat))
    (row col : nat) (nums : list Z) (testBoard : Board) (solutionCount : nat)
  : option (bool * Board * nat) :=
  match nums with
  | [] => Some (false, testBoard, solutionCount)
  | num :: rest =>
    if isValidMove testBoard row col num then
      match rec (setCell testBoard row col (Some num)) solutionCount with
      | None => None
      | Some (true, board', count') => Some (true, board', count')
      | Some (false, board', count') =>
        tryCounting rec row col rest (setCell board' row col None) count'
      end
    else tryCounting rec row col rest testBoard solutionCount
  end.

(** The closure [solve] of [hasUniqueSolution]. *)
Fixpoint solve_fuel (fuel : nat) (testBoard : Board) (solutionCount : nat)
  : option (bool * Board * nat) :=
  match firstEmpty testBoard with
  | None =>
    let solutionCount' := solutionCount + 1 in
    Some (2 <=? solutionCount', testBoard, solutionCount')
  | Some (row, col) =>
    match fuel with
    | O => None
    | S fuel' =>
      tryCounting (solve_fuel fuel') row col digits testBoard solutionCount
    end
  end.

Definition hasUniqueSolution (puzzle0 : Board) : option bool :=
  let testBoard := map (fun row => row) puzzle0 in
  match solve_fuel 81 testBoard 0 with
  | None => None
  | Some (_, _, solutionCount) => Some (solutionCount =? 1)
  end.

(** ** sudokuValidator.ts: conflict map and candidates *)

(** A [Map<string, V>] as the list of its entries in insertion order. *)
Definition StringMap (V : Type) := list (String.string * V).

(** [m.set(key, v)]: replaces the value of an existing key, otherwise adds
    the entry at the end. *)
Fixpoint mapSet {V : Type} (key : String.string) (v : V) (m : StringMap V)
  : StringMap V :=
  match m with
  | [] => [(key, v)]
  | (k, w) :: t =>
    if String.eqb k key then (key, v) :: t else (k, w) :: mapSet key v t
  end.

(** [m.has(key)] *)
Definition mapHas {V : Type} (key : String.string) (m : StringMap V) : bool :=
  existsb (fun e => String.eqb (fst e) key) m.

(** [m.size] *)
Definition mapSize {V : Type} (m : StringMap V) : nat := length m.

(** A number printed in decimal, as a template literal prints it. *)
Definition showNat (n : nat) : String.string :=
  DecimalString.NilEmpty.string_of_uint (Nat.to_uint n).

Module Keys.
Import String.

(** The key [`${row}-${col}`]. *)
Definition conflictKey (row col : nat) : string :=
  (showNat row ++ "-" ++ showNat col)%string.

End Keys.

Definition conflictKey := Keys.conflictKey.

Definition findAllConflicts (board : Board)
  : StringMap (list (nat * nat)) :=
  fold_left (fun allConflicts p =>
      match getCell board (fst p) (snd p) with
      | None => allConflicts
      | Some _ =>
        let conflicts := findConflicts board (fst p) (snd p) in
        if 0 <? length conflicts
        then mapSet (conflictKey (fst p) (snd p)) conflicts allConflicts
        else allConflicts
      end)
    allPositions [].

Definition getAvailableNumbers (board : Board) (row col : nat) : list Z :=
  match getCell board row col with
  | Some _ => []
  | None => filter (fun num => isValidMove board row col num) digits
  end.

(** ** SudokuBoard.tsx: the game state and its handlers *)

(** [l.map((x, index) => f(x, index))] *)
Fixpoint mapiFrom {A B : Type} (f : A -> nat -> B) (index : nat) (l : list A)
  : list B :=
  match l with
  | [] => []
  | x :: t => f x index :: mapiFrom f (S index) t
  end.

Definition mapi {A B : Type} (f : A -> nat -> B) (l : list A) : list B :=
  mapiFrom f 0 l.

Module SudokuBoard.

(** The [useState] cells of the component. *)
Record State := mkState {
  board : Board;
  fixedCells : list (list bool);
  conflicts : StringMap (list (nat * nat));
  selectedCell : option (nat * nat);
  isSolved : bool;
  moveCount : nat;
  errorCount : nat;
  isGenerating : bool;
  isSolving : bool;
  difficulty : Difficulty
}.

(** The state of the first render. *)
Definition initial : State :=
  mkState emptyBoard (repeat (repeat false 9) 9) [] None false 0 0
          false false EASY.

(** The effect on [[board, moveCount]] that runs after a render (the alert is
    left out). *)
Definition effect (st : State) : State :=
  mkState (board st) (fixedCells st) (findAllConflicts (board st))
          (selectedCell st) (isBoardSolved (board st))
          (moveCount st) (errorCount st)
          (isGenerating st) (isSolving st) (difficulty st).

Definition handleCellChange (row col : nat) (value : Cell) (st : State)
  : State :=
  if nth2 false (fixedCells st) row col then st
  else
    let newBoard := map (fun row => row) (board st) in
    let oldValue := getCell newBoard row col in
    let newBoard := setCell newBoard row col value in
    let moveCount' :=
      if isNull oldValue && negb (isNull value) then moveCount st + 1
      else moveCount st in
    let tempConflicts := findAllConflicts newBoard in
    let errorCount' :=
      if mapSize (conflicts st) <? mapSize tempConflicts
      then errorCount st + 1 else errorCount st in
    mkState newBoard (fixedCells st) (conflicts st) (selectedCell st)
            (isSolved st) moveCount' errorCount'
            (isGenerating st) (isSolving st) (difficulty st).

Definition handleCellFocus (row col : nat) (st : State) : State :=
  mkState (board st) (fixedCells st) (conflicts st) (Some (row, col))
          (isSolved st) (moveCount st) (errorCount st)
          (isGenerating st) (isSolving st) (difficulty st).

Definition isCellConflicting (st : State) (row col : nat) : bool :=
  let key := conflictKey row col in
  mapHas key (conflicts st).

Definition loadPuzzle (puzzle : Board) (st : State) : State :=
  let fixed := map (fun row => map (fun cell => negb (isNull cell)) row) puzzle in
  mkState puzzle fixed (conflicts st) None false 0 0
          (isGenerating st) (isSolving st) (difficulty st).

(** [generatePuzzle]: the state once the timeout callback has run. *)
Definition generatePuzzle (level : Difficulty) (g : Rng) (st : State)
  : option (State * Rng) :=
  match generateSymmetricPuzzle level g with
  | None => None
  | Some (puzzle, g') =>
    let st1 := loadPuzzle puzzle st in
    Some (mkState (board st1) (fixedCells st1) (conflicts st1)
                  (selectedCell st1) (isSolved st1) (moveCount st1)
                  (errorCount st1) false (isSolving st1) level, g')
  end.

(** [solvePuzzle]; [None] is the recursion bound of [solveSudoku]. *)
Definition solvePuzzle (st : State) : option State :=
  let boardCopy := map (fun row => row) (board st) in
  match solveSudoku boardCopy with
  | None => None
  | Some (true, boardCopy') =>
    Some (mkState boardCopy' (fixedCells st) (conflicts st) (selectedCell st)
                  true (moveCount st) (errorCount st)
                  (isGenerating st) (isSolving st) (difficulty st))
  | Some (false, _) => Some st
  end.

(** [getSmartHint]; [response] is the answer to the confirm dialog. *)
Definition getSmartHint (response : bool) (st : State) : option State :=
  match fst (getNextHint (board st)) with
  | None => None
  | Some None => Some st
  | Some (Some hint) =>
    let st1 := handleCellFocus (hintRow hint) (hintCol hint) st in
    if response
    then Some (handleCellChange (hintRow hint) (hintCol hint)
                                (Some (hintValue hint)) st1)
    else Some st1
  end.

Definition clearUserEntries (st : State) : State :=
  let newBoard :=
    mapi (fun row rowIndex =>
            mapi (fun cell colIndex =>
                    if nth2 false (fixedCells st) rowIndex colIndex
                    then cell else None) row)
         (board st) in
  mkState newBoard (fixedCells st) (conflicts st) (selectedCell st)
          (isSolved st) 0 0
          (isGenerating st) (isSolving st) (difficulty st).

Definition clearBoard (st : State) : State :=
  mkState emptyBoard (repeat (repeat false 9) 9) (conflicts st) None false 0 0
          (isGenerating st) (isSolving st) (difficulty st).

(** The three alerts of [checkSolution]. *)
Inductive CheckMessage := NoErrorsSoFar | Perfect | SomeConflicts.

Definition checkSolution (st : State) : CheckMessage :=
  if isBoardValid (board st) then
    let hasEmpty := existsb (fun row => existsb isNull row) (board st) in
    if hasEmpty then NoErrorsSoFar else Perfect
  else SomeConflicts.

(** The alerts of [getHint]. *)
Inductive HintMessage :=
| SelectACellFirst
| AlreadyFilled
| NoValidNumbers
| OnlyValidNumber (num : Z)
| ValidNumbers (available : list Z).

Definition getHint (st : State) : HintMessage :=
  match selectedCell st with
  | None => SelectACellFirst
  | Some (row, col) =>
    if nth2 false (fixedCells st) row col then AlreadyFilled
    else
      let available := getAvailableNumbers (board st) row col in
      match available with
      | [] => NoValidNumbers
      | [num] => OnlyValidNumber num
      | _ => ValidNumbers available
      end
  end.

(** What the player can do with a loaded puzzle. *)
Inductive Action :=
| CellChange (row col : nat) (value : Cell)
| CellFocus (row col : nat)
| Reset
| InstantSolve
| SmartHint (response : bool).

(** One event: the handler, then the effect of the render that follows. *)
Definition perform (a : Action) (st : State) : option State :=
  option_map effect
    match a with
    | CellChange row col value => Some (handleCellChange row col value st)
    | CellFocus row col => Some (handleCellFocus row col st)
    | Reset => Some (clearUserEntries st)
    | InstantSolve => solvePuzzle st
    | SmartHint response => getSmartHint response st
    end.

Fixpoint run (actions : list Action) (st : State) : option State :=
  match actions with
  | [] => Some st
  | a :: rest =>
    match perform a st with
    | None => None
    | Some st' => run rest st'
    end
  end.

(** The cell an action addresses is on the board, and a value typed into a
    cell is a digit (SudokuCell passes [null] or 1..9). *)
Definition actionOk (a : Action) : Prop :=
  match a with
  | CellChange row col value =>
    row < 9 /\ col < 9 /\
    match value with Some v => (1 <= v <= 9)%Z | None => True end
  | CellFocus row col => row < 9 /\ col < 9
  | _ => True
  end.

End SudokuBoard.

(** ** Specification vocabulary *)

(** A 9x9 board. *)
Definition wf (b : Board) : Prop :=
  length b = 9 /\ forall r, r < 9 -> length (nth r b []) = 9.

(** Two cells share a row, a column or a 3x3 box. *)
Definition sameGroup (r c r' c' : nat) : Prop :=
  r = r' \/ c = c' \/ (r / 3 = r' / 3 /\ c / 3 = c' / 3).

(** No row, column or box holds the same value twice. *)
Definition NoConflict (b : Board) : Prop :=
  forall r c r' c' v,
    r < 9 -> c < 9 -> r' < 9 -> c' < 9 ->
    (r, c) <> (r', c') -> sameGroup r c r' c' ->
    getCell b r c = Some v -> getCell b r' c' <> Some v.

(** All 81 cells are filled. *)
Definition Full (b : Board) : Prop :=
  forall r c, r < 9 -> c < 9 -> getCell b r c <> None.

(** [s] keeps the filled cells of [b] and has a digit 1..9 in each cell that
    is empty in [b]. *)
Definition Fills (b s : Board) : Prop :=
  forall r c, r < 9 -> c < 9 ->
    match getCell b r c with
    | Some v => getCell s r c = Some v
    | None => exists d, In d digits /\ getCell s r c = Some d
    end.

(** [s] is a full solution that completes [b]. *)
Definition Completion (b s : Board) : Prop :=
  wf s /\ Fills b s /\ NoConflict s.

(** Every filled cell of [p] holds the value of that cell in [b]. *)
Definition SubBoard (p b : Board) : Prop :=
  forall r c v, r < 9 -> c < 9 -> getCell p r c = Some v -> getCell b r c = Some v.

Definition countEmpty (b : Board) : nat :=
  length (filter (fun p => isNull (getCell b (fst p) (snd p))) allPositions).

(** 1 for a clue, 0 for an empty cell. *)
Definition filled (b : Board) (p : nat * nat) : nat :=
  if isNull (getCell b (fst p) (snd p)) then 0 else 1.

(** Number of clues of a board. *)
Definition countFilled (b : Board) : nat :=
  list_sum (map (filled b) allPositions).

(** How many boards satisfy [P]: none, exactly one, at least two. *)
Definition NoneOf (P : Board -> Prop) : Prop := forall s, ~ P s.

Definition OneOf (P : Board -> Prop) : Prop :=
  exists s, P s /\ forall s', P s' -> s' = s.

Definition TwoOf (P : Board -> Prop) : Prop :=
  exists s s', P s /\ P s' /\ s <> s'.

(** Outcome of the counting search started on board [b] with
    [solutionCount = k], when [P] is the set of solutions in its scope. *)
Definition CountSpec (P : Board -> Prop) (b : Board) (k : nat)
    (res : bool * Board * nat) : Prop :=
  let '(ok, b', k') := res in
  (ok = false ->
     b' = b /\ ((k' = k /\ NoneOf P) \/ (k = 0 /\ k' = 1 /\ OneOf P))) /\
  (ok = true ->
     k' = 2 /\ ((k = 1 /\ exists s, P s) \/ (k = 0 /\ TwoOf P))).

(** Position [9 * r + c] in row-major order: the cells from position [p] on
    are empty, the cells before it are filled. *)
Definition EmptyFrom (b : Board) (p : nat) : Prop :=
  forall r c, r < 9 -> c < 9 -> p <= 9 * r + c -> getCell b r c = None.

Definition FilledBefore (b : Board) (p : nat) : Prop :=
  forall r c, r < 9 -> c < 9 -> 9 * r + c < p -> getCell b r c <> None.

(** A solved grid (the one [solveSudoku] reaches from the empty board) and a
    second one (rows 0 and 1 exchanged), used as witnesses that the empty
    board has completions. *)
Definition knownSolution : Board :=
  map (map (fun n => Some (Z.of_nat n)))
    [[1; 2; 3; 4; 5; 6; 7; 8; 9];
     [4; 5; 6; 7; 8; 9; 1; 2; 3];
     [7; 8; 9; 1; 2; 3; 4; 5; 6];
     [2; 1; 4; 3; 6; 5; 8; 9; 7];
     [3; 6; 5; 8; 9; 7; 2; 1; 4];
     [8; 9; 7; 2; 1; 4; 3; 6; 5];
     [5; 3; 1; 6; 4; 2; 9; 7; 8];
     [6; 4; 2; 9; 7; 8; 5; 3; 1];
     [9; 7; 8; 5; 3; 1; 6; 4; 2]].

Definition otherSolution : Board :=
  map (map (fun n => Some (Z.of_nat n)))
    [[4; 5; 6; 7; 8; 9; 1; 2; 3];
     [1; 2; 3; 4; 5; 6; 7; 8; 9];
     [7; 8; 9; 1; 2; 3; 4; 5; 6];
     [2; 1; 4; 3; 6; 5; 8; 9; 7];
     [3; 6; 5; 8; 9; 7; 2; 1; 4];
     [8; 9; 7; 2; 1; 4; 3; 6; 5];
     [5; 3; 1; 6; 4; 2; 9; 7; 8];
     [6; 4; 2; 9; 7; 8; 5; 3; 1];
     [9; 7; 8; 5; 3; 1; 6; 4; 2]].

(** *** Bookkeeping of the removal passes *)

(** A 3x3 array of arrays. *)
Definition wf3 {A : Type} (m : list (list A)) : Prop :=
  length m = 3 /\ forall r, r < 3 -> length (nth r m []) = 3.

Definition inBox (br bc : nat) (p : nat * nat) : bool :=
  (fst p / 3 =? br) && (snd p / 3 =? bc).

(** The clues of box [(br, bc)], counted over all 81 positions. *)
Definition boxSum (b : Board) (br bc : nat) : nat :=
  list_sum (map (fun p => if inBox br bc p then filled b p else 0) allPositions).

(** Sum of the nine counters of [boxRemovals]. *)
Definition sumR (R : list (list nat)) : nat :=
  list_sum (map (fun bx => nth2 0 R (fst bx) (snd bx)) boxes).

(** One removal, for an entry [[row, col, boxRow, boxCol]]. *)
Definition removeTagged (st : Removal) (q : nat * nat * nat * nat) : Removal :=
  let '(row, col, boxRow, boxCol) := q in removeCell st row col boxRow boxCol.

Definition posOf (q : nat * nat * nat * nat) : nat * nat :=
  let '(row, col, _, _) := q in (row, col).

Definition tagWith (bx : nat * nat) (p : nat * nat) : nat * nat * nat * nat :=
  (fst p, snd p, fst bx, snd bx).

(** Number of entries of [L] that belong to box [(br, bc)]. *)
Definition countTag (br bc : nat) (L : list (nat * nat * nat * nat)) : nat :=
  length (filter (fun q => let '(_, _, br', bc') := q in
                           (br' =? br) && (bc' =? bc)) L).

(** The counters agree with the puzzle. *)
Definition Inv (st : Removal) : Prop :=
  wf (puzzle st) /\ wf3 (boxRemovals st) /\
  (forall br bc, br < 3 -> bc < 3 ->
     boxSum (puzzle st) br bc + nth2 0 (boxRemovals st) br bc = 9) /\
  totalRemoved st = sumR (boxRemovals st) /\
  countFilled (puzzle st) + totalRemoved st = 81.

(** The entries of [L] are distinct cells that are still filled in [b], each
    with the indices of its own box. *)
Definition Pending (b : Board) (L : list (nat * nat * nat * nat)) : Prop :=
  NoDup (map posOf L) /\
  forall row col br bc, In (row, col, br, bc) L ->
    row < 9 /\ col < 9 /\ br = row / 3 /\ bc = col / 3 /\
    getCell b row col <> None.

(** Boolean test that the positions of a list are pairwise distinct. *)
Fixpoint nodupb (l : list (nat * nat)) : bool :=
  match l with
  | [] => true
  | p :: t =>
    negb (existsb (fun q => (fst p =? fst q) && (snd p =? snd q)) t) && nodupb t
  end.

(** The clue ranges as the specification documents them (section 3):
    Easy [36,41] / box [3,6]; Medium [27,32] / [2,5]; Hard [22,27] / [1,4];
    Expert [17,22] / [0,3]. *)
Definition documentedCluesRange (d : Difficulty) : nat * nat :=
  match d with
  | EASY => (36, 41)
  | MEDIUM => (27, 32)
  | HARD => (22, 27)
  | EXPERT => (17, 22)
  end.

Definition documentedBoxRange (d : Difficulty) : nat * nat :=
  match d with
  | EASY => (3, 6)
  | MEDIUM => (2, 5)
  | HARD => (1, 4)
  | EXPERT => (0, 3)
  end.

(** Every filled cell holds a digit 1..9. *)
Definition cellsAreDigits (b : Board) : bool :=
  forallb (fun p => match getCell b (fst p) (snd p) with
                    | Some d => (1 <=? d)%Z && (d <=? 9)%Z
                    | None => true
                    end) allPositions.

(** The empty cells are invariant under the rotation by 180 degrees. *)
Definition Symmetric (b : Board) : Prop :=
  forall r c, r < 9 -> c < 9 ->
    (getCell b r c = None <-> getCell b (8 - r) (8 - c) = None).

(** *** Concrete inputs *)

(** A board a player can reach: [knownSolution] with a second 1 typed into
    row 0 (cell (0,1)) and the last cell (8,8) still empty. *)
Definition conflictBoard : Board :=
  map (map (fun n => match n with O => None | _ => Some (Z.of_nat n) end))
    [[1; 1; 3; 4; 5; 6; 7; 8; 9];
     [4; 5; 6; 7; 8; 9; 1; 2; 3];
     [7; 8; 9; 1; 2; 3; 4; 5; 6];
     [2; 1; 4; 3; 6; 5; 8; 9; 7];
     [3; 6; 5; 8; 9; 7; 2; 1; 4];
     [8; 9; 7; 2; 1; 4; 3; 6; 5];
     [5; 3; 1; 6; 4; 2; 9; 7; 8];
     [6; 4; 2; 9; 7; 8; 5; 3; 1];
     [9; 7; 8; 5; 3; 1; 6; 4; 0]].

(** A run of [Math.random]: every draw of the grid generation (3128 draws)
    and the draw of the target give index 0; the shuffle of the 40 positions
    then brings the four positions of the centre box, (3,3), (3,4), (3,5) and
    (4,3), to the front and leaves the others in place. *)
Definition centreFirstRandom : Rng :=
  mkRng (fun n =>
           if n <? 3129 then 0
           else
             let i := 3168 - n in
             if i =? 39 then 3
             else if i =? 32 then 2
             else if i =? 31 then 1
             else if i =? 30 then 0
             else i)
        0.

(** [knownSolution] without its last cell and with a 2 typed over cell (7,8):
    the only digit missing in row 8 is then taken in column 8. *)
Definition deadEndBoard : Board :=
  map (map (fun n => match n with O => None | _ => Some (Z.of_nat n) end))
    [[1; 2; 3; 4; 5; 6; 7; 8; 9];
     [4; 5; 6; 7; 8; 9; 1; 2; 3];
     [7; 8; 9; 1; 2; 3; 4; 5; 6];
     [2; 1; 4; 3; 6; 5; 8; 9; 7];
     [3; 6; 5; 8; 9; 7; 2; 1; 4];
     [8; 9; 7; 2; 1; 4; 3; 6; 5];
     [5; 3; 1; 6; 4; 2; 9; 7; 8];
     [6; 4; 2; 9; 7; 8; 5; 3; 2];
     [9; 7; 8; 5; 3; 1; 6; 4; 0]].

(** A run of [Math.random] without pattern: a table of 97 values read
    cyclically. *)
Definition sampleRandom : Rng :=
  mkRng (fun n =>
           nth ((n + 65) mod 97)
    [8; 36; 4; 16; 7; 31; 28; 30; 24; 13; 6; 31; 1; 24; 27; 38;
     0; 28; 17; 14; 37; 6; 20; 1; 1; 1; 34; 0; 24; 13; 27; 1;
     33; 14; 28; 31; 35; 14; 22; 14; 14; 29; 18; 1; 26; 35; 6; 11;
     18; 7; 21; 32; 27; 32; 12; 19; 18; 37; 31; 32; 25; 37; 2; 30;
     15; 25; 26; 11; 23; 35; 23; 5; 28; 32; 6; 10; 33; 25; 23; 31;
     1; 30; 2; 19; 39; 37; 37; 25; 10; 10; 32; 14; 0; 12; 34; 35;
     14] 0 + 134)
        0.

(** [solveSudoku] on the puzzle [p] returns true with a board that
    [isBoardValid] accepts, and that board is [G] when [hasUniqueSolution]
    holds of [p]. *)
Definition SolvesBackTo (G p : Board) : Prop :=
  exists solved,
    solveSudoku p = Some (true, solved) /\
    isBoardValid solved = true /\
    (hasUniqueSolution p = Some true -> solved = G).

(** *** Vocabulary of the further properties *)

(** Two distinct cells of the board that share a group. *)
Definition Peers (r c r' c' : nat) : Prop :=
  r < 9 /\ c < 9 /\ r' < 9 /\ c' < 9 /\
  (r, c) <> (r', c') /\ sameGroup r c r' c'.

(** A filled cell that has a peer with the same value. *)
Definition conflicting (b : Board) (p : nat * nat) : bool :=
  match getCell b (fst p) (snd p) with
  | None => false
  | Some _ => 0 <? length (findConflicts b (fst p) (snd p))
  end.

(** Boolean test that the strings of a list are pairwise distinct. *)
Fixpoint nodupS (l : list String.string) : bool :=
  match l with
  | [] => true
  | k :: t => negb (existsb (String.eqb k) t) && nodupS t
  end.

(** [s] fills the empty cells of [b] with digits 1..9 so that no digit it
    places equals the value of another cell of its row, column or box.
    Duplicates among the cells that [b] already fills are allowed. *)
Definition Filling (b s : Board) : Prop :=
  wf s /\ Fills b s /\
  forall r c r' c' v,
    Peers r c r' c' -> getCell b r c = None ->
    getCell s r c = Some v -> getCell s r' c' <> Some v.

(** The cells of a row, of a column and of a box. *)
Definition rowCells (r : nat) : list (nat * nat) :=
  map (fun c => (r, c)) (seq 0 9).

Definition colCells (c : nat) : list (nat * nat) :=
  map (fun r => (r, c)) (seq 0 9).

Definition boxCells (br bc : nat) : list (nat * nat) :=
  flat_map (fun i => map (fun j => (br * 3 + i, bc * 3 + j)) (seq 0 3))
           (seq 0 3).

(** The values held by the cells of a list. *)
Definition valuesAt (b : Board) (ps : list (nat * nat)) : list Cell :=
  map (fun p => getCell b (fst p) (snd p)) ps.

(** *** Bookkeeping of the symmetric removal *)

(** The cell opposite to [q] under the rotation by 180 degrees. *)
Definition mirror (q : nat * nat) : nat * nat := (8 - fst q, 8 - snd q).

(** The state after the removal of the pair of [(row, col)] in
    [generateSymmetricPuzzle]. *)
Definition removePair (st : Removal) (row col : nat) : Removal :=
  let boxRow1 := row / 3 in
  let boxCol1 := col / 3 in
  let boxRow2 := (8 - row) / 3 in
  let boxCol2 := (8 - col) / 3 in
  let puzzle1 := setCell (puzzle st) row col None in
  let puzzle2 := setCell puzzle1 (8 - row) (8 - col) None in
  let removals1 :=
    upd2 (boxRemovals st) boxRow1 boxCol1
         (nth2 0 (boxRemovals st) boxRow1 boxCol1 + 1) in
  let removals2 :=
    upd2 removals1 boxRow2 boxCol2
         (nth2 0 removals1 boxRow2 boxCol2 + 1) in
  mkRemoval puzzle2 removals2 (totalRemoved st + 2).

(** By how much the removal of the pair of [q] raises the counter of box
    [(br, bc)]. *)
Definition touch (br bc : nat) (q : nat * nat) : nat :=
  (if (fst q / 3 =? br) && (snd q / 3 =? bc) then 1 else 0)
  + (if ((8 - fst q) / 3 =? br) && ((8 - snd q) / 3 =? bc) then 1 else 0).

Definition touches (br bc : nat) (L : list (nat * nat)) : nat :=
  list_sum (map (touch br bc) L).

(** What the counter of a box reaches at least when no pair is left: the cap,
    and for the centre box, whose eight cells around the centre form four
    pairs, the smaller of the cap and 8. *)
Definition boxFloor (cap br bc : nat) : nat :=
  if (br =? 1) && (bc =? 1) then Nat.min cap 8 else cap.

(** The counters of the symmetric removal agree with the puzzle, and the
    counters of opposite boxes are equal. *)
Definition SInv (st : Removal) : Prop :=
  wf (puzzle st) /\ wf3 (boxRemovals st) /\
  countFilled (puzzle st) + totalRemoved st = 81 /\
  totalRemoved st = sumR (boxRemovals st) /\
  forall br bc, br < 3 -> bc < 3 ->
    nth2 0 (boxRemovals st) br bc = nth2 0 (boxRemovals st) (2 - br) (2 - bc).

(** The pairs of [L] are made of distinct cells of the board that are still
    filled in [b]. *)
Definition SPending (b : Board) (L : list (nat * nat)) : Prop :=
  NoDup (L ++ map mirror L) /\
  forall q, In q L ->
    fst q < 9 /\ snd q < 9 /\
    getCell b (fst q) (snd q) <> None /\
    getCell b (8 - fst q) (8 - snd q) <> None.

(** *** The loaded puzzle *)

(** The component holds the puzzle [p]: the fixed cells are the clues of [p],
    and the clues are on the board. *)
Definition Holds (p : Board) (st : SudokuBoard.State) : Prop :=
  wf (SudokuBoard.board st) /\
  SudokuBoard.fixedCells st
  = map (fun row => map (fun cell => negb (isNull cell)) row) p /\
  SubBoard p (SudokuBoard.board st).

(** The digit [d] is held by no other cell of the row, column or box of
    [(r, c)]. *)
Definition Candidate (b : Board) (r c : nat) (d : Z) : Prop :=
  (1 <= d <= 9)%Z /\
  forall r' c', Peers r c r' c' -> getCell b r' c' <> Some d.

(** Every row, every column and every box of [b] holds each digit 1..9
    once. *)
Definition Latin (b : Board) : Prop :=
  forall i, i < 9 ->
    Permutation (valuesAt b (rowCells i)) (map Some digits) /\
    Permutation (valuesAt b (colCells i)) (map Some digits) /\
    Permutation (valuesAt b (boxCells (i / 3) (i mod 3))) (map Some digits).

(** * Properties *)

(** ** Arrays *)

Lemma upd_length {A : Type} (n : nat) (x : A) (l : list A) :
  length (upd n x l) = length l.
Proof.
  revert n; induction l as [|h t IH]; intros [|n]; simpl; auto.
Qed.

Lemma nth_upd_eq {A : Type} (n : nat) (x d : A) (l : list A) :
  n < length l -> nth n (upd n x l) d = x.
Proof.
  revert n; induction l as [|h t IH]; intros [|n] H; simpl in *; try lia; auto.
  apply IH; lia.
Qed.

Lemma nth_upd_neq {A : Type} (n m : nat) (x d : A) (l : list A) :
  n <> m -> nth m (upd n x l) d = nth m l d.
Proof.
  revert n m; induction l as [|h t IH]; intros [|n] [|m] H; simpl; auto;
    try congruence.
Qed.

Lemma upd_upd {A : Type} (n : nat) (x y : A) (l : list A) :
  upd n y (upd n x l) = upd n y l.
Proof.
  revert n; induction l as [|h t IH]; intros [|n]; simpl; auto.
  now rewrite IH.
Qed.

Lemma upd_nth {A : Type} (n : nat) (d : A) (l : list A) :
  upd n (nth n l d) l = l.
Proof.
  revert n; induction l as [|h t IH]; intros [|n]; simpl; auto.
  now rewrite IH.
Qed.

Lemma upd_ge {A : Type} (n : nat) (x : A) (l : list A) :
  length l <= n -> upd n x l = l.
Proof.
  revert n; induction l as [|h t IH]; intros [|n] H; simpl in *; auto; try lia.
  rewrite IH; auto; lia.
Qed.

Lemma nth_error_upd_eq {A : Type} (n : nat) (x : A) (l : list A) :
  n < length l -> nth_error (upd n x l) n = Some x.
Proof.
  revert n; induction l as [|h t IH]; intros [|n] H; simpl in *; try lia; auto.
  apply IH; lia.
Qed.

Lemma nth_error_upd_neq {A : Type} (n m : nat) (x : A) (l : list A) :
  n <> m -> nth_error (upd n x l) m = nth_error l m.
Proof.
  revert n m; induction l as [|h t IH]; intros [|n] [|m] H; simpl; auto;
    try congruence.
Qed.

Lemma nth2_upd2_eq {A : Type} (d : A) (m : list (list A)) (r c : nat) (v : A) :
  r < length m -> c < length (nth r m []) -> nth2 d (upd2 m r c v) r c = v.
Proof.
  intros Hr Hc. unfold nth2, upd2.
  rewrite nth_upd_eq by assumption. now apply nth_upd_eq.
Qed.

Lemma nth2_upd2_neq {A : Type} (d : A) (m : list (list A)) (r c r' c' : nat) (v : A) :
  (r, c) <> (r', c') -> nth2 d (upd2 m r c v) r' c' = nth2 d m r' c'.
Proof.
  intros Hne. unfold nth2, upd2.
  destruct (Nat.eq_dec r r') as [->|Hr].
  - destruct (Nat.lt_ge_cases r' (length m)) as [Hlt|Hge].
    + rewrite nth_upd_eq by assumption.
      apply nth_upd_neq. congruence.
    + now rewrite upd_ge.
  - now rewrite nth_upd_neq.
Qed.

Lemma upd2_length {A : Type} (m : list (list A)) (r c : nat) (v : A) :
  length (upd2 m r c v) = length m.
Proof. apply upd_length. Qed.

Lemma upd2_row_length {A : Type} (m : list (list A)) (r c r' : nat) (v : A) :
  length (nth r' (upd2 m r c v) []) = length (nth r' m []).
Proof.
  unfold upd2. destruct (Nat.eq_dec r r') as [->|Hr].
  - destruct (Nat.lt_ge_cases r' (length m)) as [Hlt|Hge].
    + rewrite nth_upd_eq by assumption. apply upd_length.
    + now rewrite upd_ge.
  - now rewrite nth_upd_neq.
Qed.

Lemma upd2_upd2 {A : Type} (m : list (list A)) (r c : nat) (v w : A) :
  upd2 (upd2 m r c v) r c w = upd2 m r c w.
Proof.
  unfold upd2. destruct (Nat.lt_ge_cases r (length m)) as [Hlt|Hge].
  - rewrite nth_upd_eq by assumption. now rewrite !upd_upd.
  - now rewrite !(upd_ge _ _ Hge).
Qed.

Lemma upd2_same {A : Type} (d : A) (m : list (list A)) (r c : nat) :
  upd2 m r c (nth2 d m r c) = m.
Proof.
  unfold upd2, nth2. rewrite upd_nth. apply upd_nth.
Qed.

Lemma map_id_eq {A : Type} (l : list A) : map (fun x => x) l = l.
Proof. apply map_id. Qed.

Lemma existsb_seq_false (f : nat -> bool) (n : nat) :
  existsb f (seq 0 n) = false <-> forall x, x < n -> f x = false.
Proof.
  split.
  - intros H x Hx.
    destruct (f x) eqn:E; auto.
    assert (existsb f (seq 0 n) = true) as Ht.
    { apply existsb_exists. exists x. split; auto. apply in_seq. lia. }
    congruence.
  - intros H. destruct (existsb f (seq 0 n)) eqn:E; auto.
    apply existsb_exists in E. destruct E as [x [Hin Hx]].
    apply in_seq in Hin. rewrite H in Hx by lia. discriminate.
Qed.

Lemma in_allPositions (r c : nat) :
  In (r, c) allPositions <-> r < 9 /\ c < 9.
Proof.
  unfold allPositions. rewrite in_flat_map. split.
  - intros [x [Hx Hin]]. apply in_map_iff in Hin.
    destruct Hin as [y [Heq Hy]]. inversion Heq; subst.
    apply in_seq in Hx. apply in_seq in Hy. lia.
  - intros [Hr Hc]. exists r. split.
    + apply in_seq. lia.
    + apply in_map_iff. exists c. split; auto. apply in_seq. lia.
Qed.

Lemma nodupb_NoDup (l : list (nat * nat)) : nodupb l = true -> NoDup l.
Proof.
  induction l as [|p t IH]; intros Hb.
  - constructor.
  - simpl in Hb. apply andb_true_iff in Hb. destruct Hb as [H1 H2].
    constructor; auto.
    intros Hin. apply negb_true_iff in H1.
    assert (existsb (fun q => (fst p =? fst q) && (snd p =? snd q)) t = true)
      as Ht.
    { apply existsb_exists. exists p. split; auto.
      now rewrite !Nat.eqb_refl. }
    congruence.
Qed.

Lemma allPositions_NoDup : NoDup allPositions.
Proof. apply nodupb_NoDup. vm_compute. reflexivity. Qed.

(** ** Boards *)

Lemma getCell_setCell_eq (b : Board) (r c : nat) (v : Cell) :
  wf b -> r < 9 -> c < 9 -> getCell (setCell b r c v) r c = v.
Proof.
  intros [Hl Hr] Hlt Hc. apply nth2_upd2_eq.
  - lia.
  - rewrite Hr; auto.
Qed.

Lemma getCell_setCell_neq (b : Board) (r c r' c' : nat) (v : Cell) :
  (r, c) <> (r', c') -> getCell (setCell b r c v) r' c' = getCell b r' c'.
Proof. apply nth2_upd2_neq. Qed.

Lemma wf_setCell (b : Board) (r c : nat) (v : Cell) :
  wf b -> wf (setCell b r c v).
Proof.
  intros [Hl Hr]. split.
  - unfold setCell. now rewrite upd2_length.
  - intros r' Hr'. unfold setCell. rewrite upd2_row_length. auto.
Qed.

Lemma setCell_restore (b : Board) (r c : nat) (v v0 : Cell) :
  getCell b r c = v0 -> setCell (setCell b r c v) r c v0 = b.
Proof.
  intros <-. unfold setCell, getCell. rewrite upd2_upd2. apply upd2_same.
Qed.

Lemma list_ext {A : Type} (d : A) (l l' : list A) :
  length l = length l' ->
  (forall n, n < length l -> nth n l d = nth n l' d) -> l = l'.
Proof.
  revert l'; induction l as [|h t IH]; intros [|h' t'] Hlen Hnth;
    simpl in *; try discriminate; auto.
  f_equal.
  - apply (Hnth 0). lia.
  - apply IH; [lia|]. intros n Hn. apply (Hnth (S n)). lia.
Qed.

Lemma board_ext (b b' : Board) :
  wf b -> wf b' ->
  (forall r c, r < 9 -> c < 9 -> getCell b r c = getCell b' r c) -> b = b'.
Proof.
  intros [Hl Hr] [Hl' Hr'] H.
  apply (list_ext []); [congruence|].
  intros r Hlt. rewrite Hl in Hlt.
  apply (list_ext None); [rewrite Hr, Hr'; auto|].
  intros c Hc. rewrite Hr in Hc by assumption. now apply H.
Qed.

Lemma wf_emptyBoard : wf emptyBoard.
Proof.
  split; [reflexivity|].
  intros r Hr. do 9 (destruct r as [|r]; [reflexivity|]). lia.
Qed.

Lemma getCell_emptyBoard (r c : nat) : getCell emptyBoard r c = None.
Proof.
  unfold getCell, nth2, emptyBoard.
  do 9 (destruct r as [|r]; [do 9 (destruct c as [|c]; [reflexivity|]);
                              destruct c; reflexivity|]).
  destruct r; destruct c; reflexivity.
Qed.

Lemma cellIs_true (c : Cell) (n : Z) : cellIs c n = true <-> c = Some n.
Proof.
  destruct c as [v|]; simpl.
  - rewrite Z.eqb_eq. split; congruence.
  - split; discriminate.
Qed.

Lemma cellIs_false (c : Cell) (n : Z) : cellIs c n = false <-> c <> Some n.
Proof.
  rewrite <- cellIs_true. destruct (cellIs c n); split; congruence.
Qed.

Lemma isNull_true (c : Cell) : isNull c = true <-> c = None.
Proof. destruct c; simpl; split; congruence. Qed.

Lemma isNull_false (c : Cell) : isNull c = false <-> c <> None.
Proof. destruct c; simpl; split; congruence. Qed.

(** ** Arithmetic of boxes *)

Lemma box_start (r : nat) : r - r mod 3 = 3 * (r / 3).
Proof.
  pose proof (Nat.div_mod_eq r 3). lia.
Qed.

Lemma box_offset (r r' : nat) :
  r / 3 = r' / 3 -> exists i, i < 3 /\ r - r mod 3 + i = r'.
Proof.
  intros H. exists (r' mod 3). split.
  - apply Nat.mod_upper_bound. lia.
  - rewrite box_start, H. pose proof (Nat.div_mod_eq r' 3). lia.
Qed.

Lemma box_of_offset (r i : nat) : i < 3 -> (r - r mod 3 + i) / 3 = r / 3.
Proof.
  intros Hi. rewrite box_start.
  rewrite Nat.mul_comm, Nat.div_add_l by lia.
  rewrite (Nat.div_small i 3) by lia. lia.
Qed.

Lemma box_offset_lt (r i : nat) : r < 9 -> i < 3 -> r - r mod 3 + i < 9.
Proof.
  intros Hr Hi. rewrite box_start.
  assert (r / 3 < 3) by (apply Nat.Div0.div_lt_upper_bound; lia).
  lia.
Qed.

(** ** The validator decides the absence of conflicts *)

Lemma sameGroup_sym (r c r' c' : nat) :
  sameGroup r c r' c' -> sameGroup r' c' r c.
Proof. unfold sameGroup. intuition. Qed.

Lemma isValidMove_true (b : Board) (r c : nat) (n : Z) :
  r < 9 -> c < 9 ->
  (isValidMove b r c n = true <->
   forall r' c', r' < 9 -> c' < 9 -> (r, c) <> (r', c') ->
                 sameGroup r c r' c' -> getCell b r' c' <> Some n).
Proof.
  intros Hr Hc. unfold isValidMove.
  destruct (existsb (fun x => negb (x =? c) && cellIs (getCell b r x) n)
                    (seq 0 9)) eqn:E1.
  { split; [discriminate|]. intros H. exfalso.
    apply existsb_exists in E1. destruct E1 as [x [Hin Hx]].
    apply in_seq in Hin. apply andb_true_iff in Hx. destruct Hx as [Hne Hv].
    apply negb_true_iff, Nat.eqb_neq in Hne. apply cellIs_true in Hv.
    apply (H r x); try lia; [congruence | left; reflexivity | assumption]. }
  destruct (existsb (fun x => negb (x =? r) && cellIs (getCell b x c) n)
                    (seq 0 9)) eqn:E2.
  { split; [discriminate|]. intros H. exfalso.
    apply existsb_exists in E2. destruct E2 as [x [Hin Hx]].
    apply in_seq in Hin. apply andb_true_iff in Hx. destruct Hx as [Hne Hv].
    apply negb_true_iff, Nat.eqb_neq in Hne. apply cellIs_true in Hv.
    apply (H x c); try lia; [congruence | right; left; reflexivity | assumption]. }
  cbv zeta.
  match goal with |- context [existsb ?f (seq 0 3)] =>
    destruct (existsb f (seq 0 3)) eqn:E3 end.
  { split; [discriminate|]. intros H. exfalso.
    apply existsb_exists in E3. destruct E3 as [i [Hi Hx]].
    apply existsb_exists in Hx. destruct Hx as [j [Hj Hx]].
    apply in_seq in Hi. apply in_seq in Hj.
    apply andb_true_iff in Hx. destruct Hx as [Hne Hv].
    apply negb_true_iff, andb_false_iff in Hne. apply cellIs_true in Hv.
    apply (H (r - r mod 3 + i) (c - c mod 3 + j)).
    - apply box_offset_lt; lia.
    - apply box_offset_lt; lia.
    - intros Heq. apply pair_equal_spec in Heq. destruct Heq as [Hrr Hcc].
      rewrite <- Hrr, <- Hcc in Hne. rewrite !Nat.eqb_refl in Hne.
      destruct Hne; discriminate.
    - right; right. rewrite !box_of_offset by lia. auto.
    - assumption. }
  split; [intros _|reflexivity].
  intros r' c' Hr' Hc' Hne Hg.
  rewrite existsb_seq_false in E1, E2, E3.
  destruct Hg as [<-|[<-|[Hbr Hbc]]].
  - specialize (E1 c' Hc'). apply andb_false_iff in E1.
    destruct E1 as [E|E].
    + apply negb_false_iff, Nat.eqb_eq in E. congruence.
    + now apply cellIs_false.
  - specialize (E2 r' Hr'). apply andb_false_iff in E2.
    destruct E2 as [E|E].
    + apply negb_false_iff, Nat.eqb_eq in E. congruence.
    + now apply cellIs_false.
  - destruct (box_offset r r' Hbr) as [i [Hi Hri]].
    destruct (box_offset c c' Hbc) as [j [Hj Hcj]].
    specialize (E3 i Hi). rewrite existsb_seq_false in E3.
    specialize (E3 j Hj). rewrite Hri, Hcj in E3.
    apply andb_false_iff in E3. destruct E3 as [E|E].
    + apply negb_false_iff, andb_true_iff in E. destruct E as [Ea Eb].
      apply Nat.eqb_eq in Ea, Eb. congruence.
    + now apply cellIs_false.
Qed.

Lemma filter_nil_existsb {A : Type} (f : A -> bool) (l : list A) :
  filter f l = [] <-> existsb f l = false.
Proof.
  induction l as [|h t IH]; simpl.
  - tauto.
  - destruct (f h); simpl.
    + split; discriminate.
    + exact IH.
Qed.

Lemma flat_map_nil {A B : Type} (f : A -> list B) (l : list A) :
  flat_map f l = [] <-> forall x, In x l -> f x = [].
Proof.
  induction l as [|h t IH]; simpl.
  - split; [intros _ x []|reflexivity].
  - split.
    + intros H. apply app_eq_nil in H. destruct H as [H1 H2].
      intros x [<-|Hin]; auto. now apply IH.
    + intros H. rewrite (H h) by auto. simpl. apply IH. auto.
Qed.

Lemma existsb_false_forall {A : Type} (f : A -> bool) (l : list A) :
  existsb f l = false <-> forall x, In x l -> f x = false.
Proof.
  induction l as [|h t IH]; simpl.
  - split; [intros _ x []|reflexivity].
  - rewrite orb_false_iff, IH. split.
    + intros [H1 H2] x [<-|Hin]; auto.
    + intros H. split; auto.
Qed.

Lemma map_nil_iff {A B : Type} (f : A -> B) (l : list A) :
  map f l = [] <-> l = [].
Proof. destruct l; simpl; split; congruence. Qed.

Lemma findConflicts_nil (b : Board) (r c : nat) (v : Z) :
  getCell b r c = Some v ->
  (findConflicts b r c = [] <-> isValidMove b r c v = true).
Proof.
  intros Hv. unfold findConflicts, isValidMove. rewrite Hv. cbv zeta.
  match goal with |- context [existsb ?f (seq 0 9)] =>
    set (f1 := f) end.
  match goal with |- context [if existsb f1 _ then _ else if existsb ?f _ then _ else _] =>
    set (f2 := f) end.
  match goal with |- context [existsb ?f (seq 0 3)] =>
    set (f3 := f) end.
  match goal with |- context [flat_map ?f (seq 0 3)] =>
    set (g3 := f) end.
  assert (flat_map g3 (seq 0 3) = [] <-> existsb f3 (seq 0 3) = false) as H3.
  { rewrite flat_map_nil, existsb_false_forall.
    split; intros H i Hi; specialize (H i Hi); subst f3 g3; cbv beta in *.
    - rewrite flat_map_nil in H. apply existsb_false_forall.
      intros j Hj. specialize (H j Hj).
      destruct ((r - r mod 3 + i =? r) && (c - c mod 3 + j =? c)); simpl; auto.
      destruct (cellIs _ v); auto; discriminate.
    - rewrite existsb_false_forall in H. apply flat_map_nil.
      intros j Hj. specialize (H j Hj).
      destruct ((r - r mod 3 + i =? r) && (c - c mod 3 + j =? c)); simpl in *; auto.
      rewrite H. reflexivity. }
  split.
  - intros H. apply app_eq_nil in H. destruct H as [Ha H].
    apply app_eq_nil in H. destruct H as [Hb Hc].
    apply map_nil_iff, filter_nil_existsb in Ha.
    apply map_nil_iff, filter_nil_existsb in Hb.
    apply H3 in Hc. rewrite Ha, Hb, Hc. reflexivity.
  - intros H.
    destruct (existsb f1 (seq 0 9)) eqn:E1; [discriminate|].
    destruct (existsb f2 (seq 0 9)) eqn:E2; [discriminate|].
    apply filter_nil_existsb in E1, E2. rewrite E1, E2. simpl.
    apply H3. destruct (existsb f3 (seq 0 3)); [discriminate|reflexivity].
Qed.

Lemma NoConflict_iff_valid_cells (b : Board) :
  NoConflict b <->
  forall r c v, r < 9 -> c < 9 -> getCell b r c = Some v ->
                isValidMove b r c v = true.
Proof.
  split.
  - intros H r c v Hr Hc Hv. apply isValidMove_true; auto.
    intros r' c' Hr' Hc' Hne Hg. apply (H r c r' c' v); assumption.
  - intros H r c r' c' v Hr Hc Hr' Hc' Hne Hg Hv.
    specialize (H r c v Hr Hc Hv).
    rewrite isValidMove_true in H by assumption. auto.
Qed.

Lemma isBoardValid_true (b : Board) : isBoardValid b = true <-> NoConflict b.
Proof.
  rewrite NoConflict_iff_valid_cells. unfold isBoardValid.
  rewrite forallb_forall. split.
  - intros H r c v Hr Hc Hv.
    specialize (H (r, c)). simpl in H. rewrite Hv in H.
    apply (findConflicts_nil _ _ _ Hv).
    assert (In (r, c) allPositions) as Hin by (apply in_allPositions; auto).
    specialize (H Hin). apply negb_true_iff, Nat.ltb_ge in H.
    destruct (findConflicts b r c); auto. simpl in H. lia.
  - intros H [r c] Hin. simpl. apply in_allPositions in Hin.
    destruct (getCell b r c) as [v|] eqn:Hv; auto.
    specialize (H r c v (proj1 Hin) (proj2 Hin) Hv).
    apply (findConflicts_nil _ _ _ Hv) in H. rewrite H. reflexivity.
Qed.

Lemma isBoardSolved_true (b : Board) :
  isBoardSolved b = true <-> Full b /\ NoConflict b.
Proof.
  unfold isBoardSolved.
  destruct (existsb _ allPositions) eqn:E.
  - split; [discriminate|]. intros [Hf _]. exfalso.
    apply existsb_exists in E. destruct E as [[r c] [Hin Hn]].
    apply in_allPositions in Hin. simpl in Hn. apply isNull_true in Hn.
    now apply (Hf r c).
  - rewrite isBoardValid_true. split; [intros H|tauto].
    split; auto. intros r c Hr Hc.
    rewrite existsb_false_forall in E.
    specialize (E (r, c)). simpl in E. apply isNull_false, E.
    apply in_allPositions. auto.
Qed.

Lemma pos_eq_dec (p q : nat * nat) : {p = q} + {p <> q}.
Proof. decide equality; apply Nat.eq_dec. Qed.

Lemma NoConflict_setCell (b : Board) (r c : nat) (n : Z) :
  wf b -> r < 9 -> c < 9 -> NoConflict b -> isValidMove b r c n = true ->
  NoConflict (setCell b r c (Some n)).
Proof.
  intros Hwf Hr Hc Hnc Hv.
  rewrite isValidMove_true in Hv by assumption.
  intros r1 c1 r2 c2 v Hr1 Hc1 Hr2 Hc2 Hne Hg H1 H2.
  destruct (pos_eq_dec (r, c) (r1, c1)) as [E1|N1];
    destruct (pos_eq_dec (r, c) (r2, c2)) as [E2|N2].
  - congruence.
  - apply pair_equal_spec in E1. destruct E1 as [<- <-].
    rewrite getCell_setCell_eq in H1 by assumption.
    rewrite getCell_setCell_neq in H2 by assumption.
    inversion H1; subst. apply (Hv r2 c2); assumption.
  - apply pair_equal_spec in E2. destruct E2 as [<- <-].
    rewrite getCell_setCell_eq in H2 by assumption.
    rewrite getCell_setCell_neq in H1 by assumption.
    inversion H2; subst. apply (Hv r1 c1); auto. now apply sameGroup_sym.
  - rewrite getCell_setCell_neq in H1 by assumption.
    rewrite getCell_setCell_neq in H2 by assumption.
    apply (Hnc r1 c1 r2 c2 v); assumption.
Qed.

(** ** Empty cells and completions *)

Lemma firstEmpty_Some (b : Board) (r c : nat) :
  firstEmpty b = Some (r, c) -> r < 9 /\ c < 9 /\ getCell b r c = None.
Proof.
  unfold firstEmpty. intros H. apply find_some in H. destruct H as [Hin Hn].
  apply in_allPositions in Hin. simpl in Hn. apply isNull_true in Hn. tauto.
Qed.

Lemma firstEmpty_None (b : Board) : firstEmpty b = None -> Full b.
Proof.
  unfold firstEmpty. intros H r c Hr Hc.
  apply isNull_false.
  apply (find_none _ _ H (r, c)). apply in_allPositions. auto.
Qed.

Lemma filter_flip_length {A : Type} (f f' : A -> bool) (p : A) (l : list A) :
  NoDup l -> In p l -> f p = true -> f' p = false ->
  (forall q, q <> p -> f' q = f q) ->
  length (filter f' l) + 1 = length (filter f l).
Proof.
  intros Hnd Hin Hp Hp' Hq. induction l as [|h t IH]; [destruct Hin|].
  inversion Hnd as [|? ? Hnotin Hnd']; subst.
  assert (forall l', ~ In p l' -> filter f' l' = filter f l') as Hsame.
  { induction l' as [|h' t' IH']; intros Hni; simpl; auto.
    rewrite Hq by (intros ->; apply Hni; left; reflexivity).
    rewrite IH' by (intros Hi; apply Hni; right; assumption).
    reflexivity. }
  destruct Hin as [->|Hin].
  - simpl. rewrite Hp, Hp'. rewrite Hsame by assumption. simpl. lia.
  - simpl. rewrite Hq by (intros ->; contradiction).
    specialize (IH Hnd' Hin). destruct (f h); simpl; lia.
Qed.

Lemma countEmpty_le (b : Board) : countEmpty b <= 81.
Proof.
  unfold countEmpty.
  etransitivity; [apply filter_length_le|]. vm_compute. lia.
Qed.

Lemma countEmpty_setCell (b : Board) (r c : nat) (n : Z) :
  wf b -> r < 9 -> c < 9 -> getCell b r c = None ->
  countEmpty (setCell b r c (Some n)) + 1 = countEmpty b.
Proof.
  intros Hwf Hr Hc Hn. unfold countEmpty.
  apply filter_flip_length with (p := (r, c)).
  - apply allPositions_NoDup.
  - apply in_allPositions. auto.
  - simpl. now rewrite Hn.
  - simpl. now rewrite getCell_setCell_eq.
  - intros [r' c'] Hne. simpl.
    rewrite getCell_setCell_neq; auto.
Qed.

Lemma countEmpty_zero (b : Board) : countEmpty b = 0 -> firstEmpty b = None.
Proof.
  unfold countEmpty, firstEmpty. intros H.
  destruct (find _ allPositions) as [p|] eqn:E; auto.
  apply find_some in E. destruct E as [Hin Hp].
  assert (In p (filter (fun p => isNull (getCell b (fst p) (snd p))) allPositions))
    as Hf by (apply filter_In; auto).
  destruct (filter _ allPositions); [destruct Hf|discriminate].
Qed.

Lemma Fills_Full (b s : Board) : Fills b s -> Full s.
Proof.
  intros H r c Hr Hc. specialize (H r c Hr Hc).
  destruct (getCell b r c).
  - congruence.
  - destruct H as [d [_ Hd]]. congruence.
Qed.

Lemma Fills_self (b : Board) : Full b -> Fills b b.
Proof.
  intros H r c Hr Hc. specialize (H r c Hr Hc).
  destruct (getCell b r c); congruence.
Qed.

Lemma Fills_full_eq (b s : Board) :
  wf b -> wf s -> Full b -> Fills b s -> s = b.
Proof.
  intros Hb Hs Hf H. apply board_ext; auto.
  intros r c Hr Hc. specialize (H r c Hr Hc). specialize (Hf r c Hr Hc).
  destruct (getCell b r c); congruence.
Qed.

Lemma Fills_SubBoard (b s : Board) : Fills b s -> SubBoard b s.
Proof.
  intros H r c v Hr Hc Hv. specialize (H r c Hr Hc). now rewrite Hv in H.
Qed.

Lemma Fills_step (b s : Board) (r c : nat) (n : Z) :
  wf b -> r < 9 -> c < 9 -> getCell b r c = None -> In n digits ->
  Fills (setCell b r c (Some n)) s -> Fills b s.
Proof.
  intros Hwf Hr Hc Hn Hd H r' c' Hr' Hc'. specialize (H r' c' Hr' Hc').
  destruct (pos_eq_dec (r, c) (r', c')) as [E|N].
  - apply pair_equal_spec in E. destruct E as [<- <-].
    rewrite getCell_setCell_eq in H by assumption. rewrite Hn. eauto.
  - now rewrite getCell_setCell_neq in H by assumption.
Qed.

Lemma Fills_narrow (b s : Board) (r c : nat) (d : Z) :
  wf b -> r < 9 -> c < 9 -> getCell s r c = Some d ->
  Fills b s -> Fills (setCell b r c (Some d)) s.
Proof.
  intros Hwf Hr Hc Hs H r' c' Hr' Hc'. specialize (H r' c' Hr' Hc').
  destruct (pos_eq_dec (r, c) (r', c')) as [E|N].
  - apply pair_equal_spec in E. destruct E as [<- <-].
    now rewrite getCell_setCell_eq by assumption.
  - now rewrite getCell_setCell_neq by assumption.
Qed.

Lemma Completion_digit (b s : Board) (r c : nat) :
  r < 9 -> c < 9 -> getCell b r c = None -> Completion b s ->
  exists d, In d digits /\ getCell s r c = Some d.
Proof.
  intros Hr Hc Hn [_ [Hf _]]. specialize (Hf r c Hr Hc).
  now rewrite Hn in Hf.
Qed.

Lemma Completion_valid_move (b s : Board) (r c : nat) (d : Z) :
  r < 9 -> c < 9 -> getCell s r c = Some d -> Completion b s ->
  isValidMove b r c d = true.
Proof.
  intros Hr Hc Hs [_ [Hf Hnc]]. apply isValidMove_true; auto.
  intros r' c' Hr' Hc' Hne Hg Hb.
  apply (Hnc r c r' c' d); auto.
  apply (Fills_SubBoard Hf); auto.
Qed.

Lemma Completion_narrow (b s : Board) (r c : nat) (d : Z) :
  wf b -> r < 9 -> c < 9 -> getCell s r c = Some d ->
  Completion b s -> Completion (setCell b r c (Some d)) s.
Proof.
  intros Hwf Hr Hc Hs [Hws [Hf Hnc]]. split; [|split]; auto.
  now apply Fills_narrow.
Qed.

Lemma Completion_widen (b s : Board) (r c : nat) (n : Z) :
  wf b -> r < 9 -> c < 9 -> getCell b r c = None -> In n digits ->
  Completion (setCell b r c (Some n)) s -> Completion b s.
Proof.
  intros Hwf Hr Hc Hn Hd [Hws [Hf Hnc]]. split; [|split]; auto.
  apply Fills_step with (r := r) (c := c) (n := n); auto.
Qed.

Lemma Completion_full (b s : Board) :
  wf b -> Full b -> Completion b s -> s = b.
Proof.
  intros Hwf Hf [Hws [Hfs _]]. now apply Fills_full_eq.
Qed.

(** ** The backtracking solver *)

Lemma tryNumbers_spec (rec : Board -> option (bool * Board))
    (r c : nat) (b : Board) (nums : list Z) :
  getCell b r c = None ->
  (forall n, In n nums -> isValidMove b r c n = true ->
     exists ok b1, rec (setCell b r c (Some n)) = Some (ok, b1) /\
                   (ok = false -> b1 = setCell b r c (Some n))) ->
  exists ok b',
    tryNumbers rec r c nums b = Some (ok, b') /\
    (ok = false ->
       b' = b /\
       forall n, In n nums -> isValidMove b r c n = true ->
         rec (setCell b r c (Some n)) = Some (false, setCell b r c (Some n))) /\
    (ok = true ->
       exists n, In n nums /\ isValidMove b r c n = true /\
                 rec (setCell b r c (Some n)) = Some (true, b')).
Proof.
  intros Hn. induction nums as [|n rest IH]; intros Hrec; simpl.
  - exists false, b. split; auto. split; [|discriminate].
    intros _. split; auto. intros n [].
  - destruct (isValidMove b r c n) eqn:Hv.
    + destruct (Hrec n (or_introl eq_refl) Hv) as [ok [b1 [E Hb1]]].
      rewrite E. destruct ok.
      * exists true, b1. split; auto. split; [discriminate|].
        intros _. exists n. simpl. auto.
      * rewrite (Hb1 eq_refl). rewrite (setCell_restore _ _ _ _ Hn).
        destruct IH as [ok [b' [E' [Hf Ht]]]].
        { intros m Hm. apply Hrec. now right. }
        exists ok, b'. split; auto. split.
        -- intros Hok. destruct (Hf Hok) as [Hb' Hall]. split; auto.
           intros m [<-|Hm] Hvm; auto.
           rewrite E, (Hb1 eq_refl). reflexivity.
        -- intros Hok. destruct (Ht Hok) as [m [Hm [Hvm Em]]].
           exists m. simpl. auto.
    + destruct IH as [ok [b' [E' [Hf Ht]]]].
      { intros m Hm. apply Hrec. now right. }
      exists ok, b'. split; auto. split.
      * intros Hok. destruct (Hf Hok) as [Hb' Hall]. split; auto.
        intros m [<-|Hm] Hvm; auto. congruence.
      * intros Hok. destruct (Ht Hok) as [m [Hm [Hvm Em]]].
        exists m. simpl. auto.
Qed.

(** What [solveSudoku] computes on any 9x9 board. *)
Lemma solveSudoku_fuel_spec (fuel : nat) :
  forall b, wf b -> countEmpty b <= fuel ->
  exists ok b',
    solveSudoku_fuel fuel b = Some (ok, b') /\
    (ok = false -> b' = b /\ forall s, ~ Completion b s) /\
    (ok = true ->
       wf b' /\ Fills b b' /\ (NoConflict b -> NoConflict b')).
Proof.
  induction fuel as [|fuel IH]; intros b Hwf Hfuel.
  - assert (firstEmpty b = None) as E by (apply countEmpty_zero; lia).
    simpl. rewrite E. exists true, b. split; auto. split; [discriminate|].
    intros _. split; auto. split; auto.
    apply Fills_self. now apply firstEmpty_None.
  - simpl. destruct (firstEmpty b) as [[r c]|] eqn:E.
    + destruct (firstEmpty_Some _ E) as [Hr [Hc Hn]].
      assert (forall n, wf (setCell b r c (Some n)) /\
                        countEmpty (setCell b r c (Some n)) <= fuel) as Hsub.
      { intros n. split; [now apply wf_setCell|].
        pose proof (countEmpty_setCell n Hwf Hr Hc Hn). lia. }
      destruct (@tryNumbers_spec (solveSudoku_fuel fuel) r c b digits Hn)
        as [ok [b' [Et [Hf Ht]]]].
      { intros n _ _. destruct (Hsub n) as [Hw Hc'].
        destruct (IH _ Hw Hc') as [ok [b1 [E1 [Hf1 _]]]].
        exists ok, b1. split; auto. intros Hok. now apply Hf1. }
      exists ok, b'. split; auto. split.
      * intros Hok. destruct (Hf Hok) as [Hb' Hall]. split; auto.
        intros s Hs.
        destruct (Completion_digit Hr Hc Hn Hs) as [d [Hd Hsd]].
        pose proof (Completion_valid_move Hr Hc Hsd Hs) as Hv.
        specialize (Hall d Hd Hv).
        destruct (Hsub d) as [Hw Hc'].
        destruct (IH _ Hw Hc') as [ok1 [b1 [E1 [Hf1 _]]]].
        rewrite Hall in E1. inversion E1; subst ok1 b1.
        destruct (Hf1 eq_refl) as [_ Hno].
        apply (Hno s). now apply Completion_narrow.
      * intros Hok. destruct (Ht Hok) as [n [Hd [Hv En]]].
        destruct (Hsub n) as [Hw Hc'].
        destruct (IH _ Hw Hc') as [ok1 [b1 [E1 [_ Ht1]]]].
        rewrite En in E1. inversion E1; subst ok1 b1.
        destruct (Ht1 eq_refl) as [Hwb [Hfb Hncb]].
        split; auto. split.
        -- apply Fills_step with (r := r) (c := c) (n := n); auto.
        -- intros Hnc. apply Hncb. now apply NoConflict_setCell.
    + exists true, b. split; auto. split; [discriminate|].
      intros _. split; auto. split; auto.
      apply Fills_self. now apply firstEmpty_None.
Qed.

Lemma solveSudoku_spec (b : Board) :
  wf b ->
  exists ok b',
    solveSudoku b = Some (ok, b') /\
    (ok = false -> b' = b /\ forall s, ~ Completion b s) /\
    (ok = true ->
       wf b' /\ Fills b b' /\ (NoConflict b -> NoConflict b')).
Proof.
  intros Hwf. apply solveSudoku_fuel_spec; auto. apply countEmpty_le.
Qed.

(** ** The uniqueness check *)

Lemma digits_eq : digits = [1; 2; 3; 4; 5; 6; 7; 8; 9]%Z.
Proof. reflexivity. Qed.

Lemma in_digits (d : Z) : In d digits <-> (1 <= d <= 9)%Z.
Proof.
  rewrite digits_eq. simpl. lia.
Qed.

Lemma digits_NoDup : NoDup digits.
Proof.
  rewrite digits_eq.
  repeat (constructor; [simpl; intros H; lia|]). constructor.
Qed.

Lemma CountSpec_equiv (P Q : Board -> Prop) (b : Board) (k : nat)
    (res : bool * Board * nat) :
  (forall s, P s <-> Q s) -> CountSpec P b k res -> CountSpec Q b k res.
Proof.
  intros H. destruct res as [[ok b'] k']. unfold CountSpec.
  intros [Hf Ht]. split.
  - intros Hok. destruct (Hf Hok) as [Hb [[Hk Hn]|[Hk [Hk' Ho]]]]; split; auto.
    + left. split; auto. intros s Hs. apply (Hn s). now apply H.
    + right. split; auto. split; auto.
      destruct Ho as [s [Hs Hu]]. exists s. split; [now apply H|].
      intros s' Hs'. apply Hu. now apply H.
  - intros Hok. destruct (Ht Hok) as [Hk' [[Hk [s Hs]]|[Hk Htwo]]]; split; auto.
    + left. split; auto. exists s. now apply H.
    + right. split; auto. destruct Htwo as [s [s' [Hs [Hs' Hne]]]].
      exists s, s'. split; [now apply H|]. split; [now apply H|]. assumption.
Qed.

Lemma Completion_at (b s : Board) (r c : nat) (n : Z) :
  wf b -> r < 9 -> c < 9 ->
  Completion (setCell b r c (Some n)) s -> getCell s r c = Some n.
Proof.
  intros Hwf Hr Hc [_ [Hf _]]. specialize (Hf r c Hr Hc).
  now rewrite getCell_setCell_eq in Hf by assumption.
Qed.

Lemma tryCounting_spec (rec : Board -> nat -> option (bool * Board * nat))
    (r c : nat) (b : Board) (nums : list Z) :
  wf b -> r < 9 -> c < 9 -> getCell b r c = None -> NoDup nums ->
  (forall n k, In n nums -> k <= 1 -> isValidMove b r c n = true ->
     exists res,
       rec (setCell b r c (Some n)) k = Some res /\
       CountSpec (Completion (setCell b r c (Some n)))
                 (setCell b r c (Some n)) k res) ->
  forall k, k <= 1 ->
  exists res,
    tryCounting rec r c nums b k = Some res /\
    CountSpec (fun s => exists n, In n nums /\ isValidMove b r c n = true /\
                                  Completion (setCell b r c (Some n)) s)
              b k res.
Proof.
  intros Hwf Hr Hc Hn. induction nums as [|n rest IH]; intros Hnd Hrec k Hk.
  - simpl. exists (false, b, k). split; auto. simpl. split; [|discriminate].
    intros _. split; auto. left. split; auto.
    intros s [n [[] _]].
  - inversion Hnd as [|? ? Hnotin Hnd']; subst.
    assert (forall n0 k0, In n0 rest -> k0 <= 1 ->
              isValidMove b r c n0 = true ->
              exists res,
                rec (setCell b r c (Some n0)) k0 = Some res /\
                CountSpec (Completion (setCell b r c (Some n0)))
                          (setCell b r c (Some n0)) k0 res) as Hrec'.
    { intros n0 k0 Hin. apply Hrec. now right. }
    specialize (IH Hnd' Hrec').
    simpl. destruct (isValidMove b r c n) eqn:Hv.
    + destruct (Hrec n k (or_introl eq_refl) Hk Hv) as [[[ok1 b1] k1] [E1 S1]].
      rewrite E1. simpl in S1. destruct S1 as [Hf1 Ht1].
      destruct ok1.
      * exists (true, b1, k1). split; auto. simpl. split; [discriminate|].
        intros _. destruct (Ht1 eq_refl) as [Hk1 [[Hk0 [s Hs]]|[Hk0 Htwo]]].
        -- split; auto. left. split; auto. exists s, n. simpl. auto.
        -- split; auto. right. split; auto.
           destruct Htwo as [s [s' [Hs [Hs' Hne]]]].
           exists s, s'. split; [exists n; simpl; auto|].
           split; [exists n; simpl; auto|]. assumption.
      * destruct (Hf1 eq_refl) as [Hb1 Hcase]. subst b1.
        rewrite (setCell_restore _ _ _ _ Hn).
        destruct Hcase as [[Hk1 Hnone]|[Hk0 [Hk1 Hone]]].
        -- subst k1. destruct (IH k Hk) as [res [E S]].
           exists res. split; auto.
           eapply CountSpec_equiv; [|exact S].
           intros s. split.
           ++ intros [m [Hm [Hvm Hcm]]]. exists m. simpl. auto.
           ++ intros [m [[<-|Hm] [Hvm Hcm]]].
              ** exfalso. now apply (Hnone s).
              ** exists m. auto.
        -- subst k k1. destruct (IH 1 (le_n 1)) as [[[ok b'] k'] [E S]].
           exists (ok, b', k'). split; auto.
           simpl in S. destruct S as [Hf Ht]. simpl. split.
           ++ intros Hok. destruct (Hf Hok) as [Hb' [[Hk' Hnone]|[Habs _]]];
                [|discriminate].
              split; auto. right. split; auto. split; auto.
              destruct Hone as [s [Hs Hu]]. exists s. split.
              ** exists n. simpl. auto.
              ** intros s' [m [[<-|Hm] [Hvm Hcm]]]; [now apply Hu|].
                 exfalso. apply (Hnone s'). exists m. auto.
           ++ intros Hok. destruct (Ht Hok) as [Hk' [[_ [s2 Hs2]]|[Habs _]]];
                [|discriminate].
              split; auto. right. split; auto.
              destruct Hone as [s1 [Hs1 _]].
              destruct Hs2 as [m [Hm [Hvm Hcm]]].
              exists s1, s2. split; [exists n; simpl; auto|].
              split; [exists m; simpl; auto|].
              intros Heq. subst s2.
              pose proof (Completion_at n Hwf Hr Hc Hs1) as A1.
              pose proof (Completion_at m Hwf Hr Hc Hcm) as A2.
              rewrite A1 in A2. inversion A2. subst m. contradiction.
    + destruct (IH k Hk) as [res [E S]].
      exists res. split; auto.
      eapply CountSpec_equiv; [|exact S].
      intros s. split.
      * intros [m [Hm [Hvm Hcm]]]. exists m. simpl. auto.
      * intros [m [[<-|Hm] [Hvm Hcm]]]; [congruence|].
        exists m. auto.
Qed.

Lemma solve_fuel_spec (fuel : nat) :
  forall b k, wf b -> NoConflict b -> countEmpty b <= fuel -> k <= 1 ->
  exists res,
    solve_fuel fuel b k = Some res /\
    CountSpec (Completion b) b k res.
Proof.
  assert (forall b k, wf b -> NoConflict b -> Full b -> k <= 1 ->
            CountSpec (Completion b) b k (2 <=? k + 1, b, k + 1)) as Hbase.
  { intros b k Hwf Hnc Hfull Hk.
    assert (Completion b b) as Hself.
    { split; auto. split; auto. now apply Fills_self. }
    unfold CountSpec. cbv beta iota. split.
    - intros Hle. apply Nat.leb_gt in Hle. split; auto. right.
      split; [lia|]. split; [lia|]. exists b. split; auto.
      intros s' Hs'. now apply Completion_full.
    - intros Hle. apply Nat.leb_le in Hle. split; [lia|]. left.
      split; [lia|]. exists b. assumption. }
  induction fuel as [|fuel IH]; intros b k Hwf Hnc Hfuel Hk.
  - assert (firstEmpty b = None) as E by (apply countEmpty_zero; lia).
    simpl. rewrite E. eexists. split; [reflexivity|].
    apply Hbase; auto. now apply firstEmpty_None.
  - simpl. destruct (firstEmpty b) as [[r c]|] eqn:E.
    + destruct (firstEmpty_Some _ E) as [Hr [Hc Hn]].
      destruct (@tryCounting_spec (solve_fuel fuel) r c b digits
                  Hwf Hr Hc Hn digits_NoDup) with (k := k)
        as [res [Et S]]; auto.
      { intros n k0 _ Hk0 Hv. apply IH; auto.
        - now apply wf_setCell.
        - now apply NoConflict_setCell.
        - pose proof (countEmpty_setCell n Hwf Hr Hc Hn). lia. }
      exists res. split; auto.
      eapply CountSpec_equiv; [|exact S].
      intros s. split.
      * intros [n [Hd [Hv Hcn]]].
        apply Completion_widen with (r := r) (c := c) (n := n); auto.
      * intros Hs.
        destruct (Completion_digit Hr Hc Hn Hs) as [d [Hd Hsd]].
        exists d. split; auto. split.
        -- apply Completion_valid_move with (s := s); auto.
        -- now apply Completion_narrow.
    + eexists. split; [reflexivity|].
      apply Hbase; auto. now apply firstEmpty_None.
Qed.

(** On a board without conflicts, [hasUniqueSolution] decides whether there
    is exactly one completion. *)
Lemma hasUniqueSolution_spec (b : Board) :
  wf b -> NoConflict b ->
  exists u, hasUniqueSolution b = Some u /\
            (u = true <-> OneOf (Completion b)).
Proof.
  intros Hwf Hnc. unfold hasUniqueSolution. rewrite map_id_eq.
  destruct (@solve_fuel_spec 81 b 0 Hwf Hnc (countEmpty_le b)
              (Nat.le_0_l 1)) as [[[ok b'] k'] [E S]].
  rewrite E. eexists. split; [reflexivity|].
  simpl in S. destruct S as [Hf Ht]. destruct ok.
  - destruct (Ht eq_refl) as [Hk' [[Habs _]|[_ Htwo]]]; [discriminate|].
    subst k'. simpl. split; [discriminate|].
    intros [s [Hs Hu]]. destruct Htwo as [s1 [s2 [H1 [H2 Hne]]]].
    exfalso. apply Hne. rewrite (Hu s1 H1), (Hu s2 H2). reflexivity.
  - destruct (Hf eq_refl) as [_ [[Hk' Hnone]|[_ [Hk' Hone]]]]; subst k'; simpl.
    + split; [discriminate|]. intros [s [Hs _]]. exfalso. now apply (Hnone s).
    + tauto.
Qed.

(** ** Shuffling permutes *)

Lemma swap_Permutation {A : Type} (a : list A) (i j : nat) :
  Permutation (swap a i j) a.
Proof.
  unfold swap.
  destruct (nth_error a i) as [x|] eqn:Ei; [|apply Permutation_refl].
  destruct (nth_error a j) as [y|] eqn:Ej; [|apply Permutation_refl].
  assert (i < length a) as Hi by (apply nth_error_Some; congruence).
  assert (j < length a) as Hj by (apply nth_error_Some; congruence).
  apply Permutation_sym, Permutation_nth_error. split.
  - now rewrite !upd_length.
  - exists (fun n => if n =? i then j else if n =? j then i else n). split.
    + intros n m. 
      destruct (Nat.eqb_spec n i), (Nat.eqb_spec n j),
               (Nat.eqb_spec m i), (Nat.eqb_spec m j); intros; lia.
    + intros n. destruct (Nat.eqb_spec n i) as [->|Hni].
      * rewrite nth_error_upd_eq by (rewrite upd_length; assumption).
        now rewrite Ej.
      * rewrite nth_error_upd_neq by congruence.
        destruct (Nat.eqb_spec n j) as [->|Hnj].
        -- rewrite nth_error_upd_eq by assumption. now rewrite Ei.
        -- now rewrite nth_error_upd_neq by congruence.
Qed.

Lemma shuffleFrom_Permutation {A : Type} (i : nat) :
  forall (a : list A) (g : Rng), Permutation (fst (shuffleFrom i a g)) a.
Proof.
  induction i as [|i IH]; intros a g; simpl.
  - apply Permutation_refl.
  - eapply Permutation_trans; [apply IH|]. apply swap_Permutation.
Qed.

Lemma shuffleArray_Permutation {A : Type} (a : list A) (g : Rng) :
  Permutation (fst (shuffleArray a g)) a.
Proof. apply shuffleFrom_Permutation. Qed.

(** ** Generation of a complete grid *)

Lemma tryShuffled_spec (rec : Board -> Rng -> option (bool * Board * Rng))
    (r c : nat) (b : Board) (nums : list Z) :
  getCell b r c = None ->
  (forall n g, In n nums -> isValidMove b r c n = true ->
     exists ok b1 g1, rec (setCell b r c (Some n)) g = Some (ok, b1, g1) /\
                      (ok = false -> b1 = setCell b r c (Some n))) ->
  forall g,
  exists ok b' g',
    tryShuffled rec r c nums b g = Some (ok, b', g') /\
    (ok = false ->
       b' = b /\
       forall n, In n nums -> isValidMove b r c n = true ->
         exists g0 g1,
           rec (setCell b r c (Some n)) g0
           = Some (false, setCell b r c (Some n), g1)) /\
    (ok = true ->
       exists n g0, In n nums /\ isValidMove b r c n = true /\
                    rec (setCell b r c (Some n)) g0 = Some (true, b', g')).
Proof.
  intros Hn. induction nums as [|n rest IH]; intros Hrec g; simpl.
  - exists false, b, g. split; auto. split; [|discriminate].
    intros _. split; auto. intros n [].
  - assert (forall m g0, In m rest -> isValidMove b r c m = true ->
              exists ok b1 g1,
                rec (setCell b r c (Some m)) g0 = Some (ok, b1, g1) /\
                (ok = false -> b1 = setCell b r c (Some m))) as Hrec'.
    { intros m g0 Hm. apply Hrec. now right. }
    specialize (IH Hrec').
    destruct (isValidMove b r c n) eqn:Hv.
    + destruct (Hrec n g (or_introl eq_refl) Hv) as [ok [b1 [g1 [E Hb1]]]].
      rewrite E. destruct ok.
      * exists true, b1, g1. split; auto. split; [discriminate|].
        intros _. exists n, g. simpl. auto.
      * rewrite (Hb1 eq_refl). rewrite (setCell_restore _ _ _ _ Hn).
        destruct (IH g1) as [ok [b' [g' [E' [Hf Ht]]]]].
        exists ok, b', g'. split; auto. split.
        -- intros Hok. destruct (Hf Hok) as [Hb' Hall]. split; auto.
           intros m [<-|Hm] Hvm; auto.
           exists g, g1. rewrite E, (Hb1 eq_refl). reflexivity.
        -- intros Hok. destruct (Ht Hok) as [m [g0 [Hm [Hvm Em]]]].
           exists m, g0. simpl. auto.
    + destruct (IH g) as [ok [b' [g' [E' [Hf Ht]]]]].
      exists ok, b', g'. split; auto. split.
      * intros Hok. destruct (Hf Hok) as [Hb' Hall]. split; auto.
        intros m [<-|Hm] Hvm; auto. congruence.
      * intros Hok. destruct (Ht Hok) as [m [g0 [Hm [Hvm Em]]]].
        exists m, g0. simpl. auto.
Qed.

Lemma EmptyFrom_setCell (b : Board) (r c : nat) (v : Cell) :
  EmptyFrom b (9 * r + c) -> c < 9 ->
  EmptyFrom (setCell b r c v) (9 * r + c + 1).
Proof.
  intros H Hc r' c' Hr' Hc' Hle.
  rewrite getCell_setCell_neq.
  - apply H; auto. lia.
  - intros E. apply pair_equal_spec in E. lia.
Qed.

Lemma FilledBefore_setCell (b : Board) (r c : nat) (n : Z) :
  wf b -> r < 9 -> c < 9 -> FilledBefore b (9 * r + c) ->
  FilledBefore (setCell b r c (Some n)) (9 * r + c + 1).
Proof.
  intros Hwf Hr Hc H r' c' Hr' Hc' Hlt.
  destruct (pos_eq_dec (r, c) (r', c')) as [E|N].
  - apply pair_equal_spec in E. destruct E as [<- <-].
    rewrite getCell_setCell_eq by assumption. discriminate.
  - rewrite getCell_setCell_neq by assumption. apply H; auto.
    assert (9 * r' + c' <> 9 * r + c); [|lia].
    intros E. apply N. f_equal; lia.
Qed.

Lemma fillBoard_fuel_S (fuel row col : nat) (board : Board) (g : Rng) :
  fillBoard_fuel (S fuel) row col board g =
  if row =? 9 then Some (true, board, g)
  else
    let nextRow := if col =? 8 then row + 1 else row in
    let nextCol := if col =? 8 then 0 else col + 1 in
    let (numbers, g1) := shuffleArray digits g in
    tryShuffled (fillBoard_fuel fuel nextRow nextCol) row col numbers board g1.
Proof. reflexivity. Qed.

Lemma fillBoard_fuel_spec (fuel : nat) :
  forall row col b g,
    wf b -> (row < 9 /\ col < 9) \/ (row = 9 /\ col = 0) ->
    81 <= fuel + (9 * row + col) ->
    EmptyFrom b (9 * row + col) -> FilledBefore b (9 * row + col) ->
    exists ok b' g',
      fillBoard_fuel fuel row col b g = Some (ok, b', g') /\
      (ok = false -> b' = b /\ forall s, ~ Completion b s) /\
      (ok = true ->
         wf b' /\ Fills b b' /\ (NoConflict b -> NoConflict b')).
Proof.
  assert (forall row col b g fuel0,
            wf b -> row = 9 -> col = 0 -> FilledBefore b (9 * row + col) ->
            exists ok b' g',
              fillBoard_fuel fuel0 row col b g = Some (ok, b', g') /\
              (ok = false -> b' = b /\ forall s, ~ Completion b s) /\
              (ok = true ->
                 wf b' /\ Fills b b' /\ (NoConflict b -> NoConflict b')))
    as Hend.
  { intros row col b g fuel0 Hwf -> -> Hfb.
    exists true, b, g. split; [destruct fuel0; reflexivity|].
    split; [discriminate|]. intros _. split; auto. split; auto.
    apply Fills_self. intros r c Hr Hc. apply Hfb; auto. lia. }
  induction fuel as [|fuel IH]; intros row col b g Hwf Hpos Hfuel He Hfb.
  - destruct Hpos as [[Hr Hc]|[Hr Hc]]; [lia|]. now apply Hend.
  - destruct Hpos as [[Hr Hc]|[Hr Hc]]; [|now apply Hend].
    rewrite fillBoard_fuel_S.
    destruct (Nat.eqb_spec row 9) as [->|_]; [lia|]. cbv zeta.
    destruct (shuffleArray digits g) as [numbers g1] eqn:Esh.
    assert (Permutation numbers digits) as Hperm.
    { pose proof (shuffleArray_Permutation digits g) as P.
      now rewrite Esh in P. }
    assert (getCell b row col = None) as Hn by (apply He; auto).
    set (nextRow := if col =? 8 then row + 1 else row).
    set (nextCol := if col =? 8 then 0 else col + 1).
    assert (9 * nextRow + nextCol = 9 * row + col + 1 /\
            ((nextRow < 9 /\ nextCol < 9) \/ (nextRow = 9 /\ nextCol = 0)))
      as [Hnext Hnpos].
    { subst nextRow nextCol. destruct (Nat.eqb_spec col 8); lia. }
    assert (forall n g0,
              exists ok b1 g2,
                fillBoard_fuel fuel nextRow nextCol (setCell b row col (Some n)) g0
                = Some (ok, b1, g2) /\
                (ok = false ->
                   b1 = setCell b row col (Some n) /\
                   forall s, ~ Completion (setCell b row col (Some n)) s) /\
                (ok = true ->
                   wf b1 /\ Fills (setCell b row col (Some n)) b1 /\
                   (NoConflict (setCell b row col (Some n)) -> NoConflict b1)))
      as Hsub.
    { intros n g0. apply IH; auto.
      - now apply wf_setCell.
      - lia.
      - rewrite Hnext. now apply EmptyFrom_setCell.
      - rewrite Hnext. now apply FilledBefore_setCell. }
    destruct (@tryShuffled_spec (fillBoard_fuel fuel nextRow nextCol)
                row col b numbers Hn) with (g := g1)
      as [ok [b' [g' [Et [Hf Ht]]]]].
    { intros n g0 _ _. destruct (Hsub n g0) as [ok [b1 [g2 [E1 [Hf1 _]]]]].
      exists ok, b1, g2. split; auto. intros Hok. now apply Hf1. }
    exists ok, b', g'. split; auto. split.
    + intros Hok. destruct (Hf Hok) as [Hb' Hall]. split; auto.
      intros s Hs.
      destruct (Completion_digit Hr Hc Hn Hs) as [d [Hd Hsd]].
      pose proof (Completion_valid_move Hr Hc Hsd Hs) as Hv.
      assert (In d numbers) as Hdn.
      { eapply Permutation_in; [apply Permutation_sym; exact Hperm|exact Hd]. }
      destruct (Hall d Hdn Hv) as [g0 [g2 E0]].
      destruct (Hsub d g0) as [ok1 [b1 [g3 [E1 [Hf1 _]]]]].
      rewrite E0 in E1. inversion E1; subst ok1 b1 g3.
      destruct (Hf1 eq_refl) as [_ Hno].
      apply (Hno s). now apply Completion_narrow.
    + intros Hok. destruct (Ht Hok) as [n [g0 [Hin [Hv En]]]].
      destruct (Hsub n g0) as [ok1 [b1 [g3 [E1 [_ Ht1]]]]].
      rewrite En in E1. inversion E1; subst ok1 b1 g3.
      destruct (Ht1 eq_refl) as [Hwb [Hfb' Hncb]].
      split; auto. split.
      * apply Fills_step with (r := row) (c := col) (n := n); auto.
        eapply Permutation_in; [exact Hperm|exact Hin].
      * intros Hnc. apply Hncb. now apply NoConflict_setCell.
Qed.

Lemma wf_knownSolution : wf knownSolution.
Proof.
  split; [reflexivity|].
  intros r Hr. do 9 (destruct r as [|r]; [reflexivity|]). lia.
Qed.

Lemma Fills_emptyBoard (s : Board) :
  forallb (fun p => match getCell s (fst p) (snd p) with
                    | Some d => (1 <=? d)%Z && (d <=? 9)%Z
                    | None => false
                    end) allPositions = true ->
  Fills emptyBoard s.
Proof.
  intros H r c Hr Hc. rewrite getCell_emptyBoard.
  rewrite forallb_forall in H.
  specialize (H (r, c)). simpl in H.
  destruct (getCell s r c) as [d|]; [|discriminate H; apply in_allPositions; auto].
  exists d. split; auto. apply in_digits.
  assert (In (r, c) allPositions) as Hin by (apply in_allPositions; auto).
  specialize (H Hin). apply andb_true_iff in H. lia.
Qed.

Lemma knownSolution_Completion : Completion emptyBoard knownSolution.
Proof.
  split; [apply wf_knownSolution|]. split.
  - apply Fills_emptyBoard. vm_compute. reflexivity.
  - apply isBoardValid_true. vm_compute. reflexivity.
Qed.

Lemma otherSolution_Completion : Completion emptyBoard otherSolution.
Proof.
  split; [|split].
  - split; [reflexivity|].
    intros r Hr. do 9 (destruct r as [|r]; [reflexivity|]). lia.
  - apply Fills_emptyBoard. vm_compute. reflexivity.
  - apply isBoardValid_true. vm_compute. reflexivity.
Qed.

(** What [generateCompleteSudoku] returns, whatever [Math.random] gives. *)
Lemma generateCompleteSudoku_spec (g : Rng) :
  exists G g',
    generateCompleteSudoku g = Some (G, g') /\
    wf G /\ Fills emptyBoard G /\ NoConflict G.
Proof.
  unfold generateCompleteSudoku.
  destruct (@fillBoard_fuel_spec 81 0 0 emptyBoard g) as [ok [G [g' [E [Hf Ht]]]]].
  - apply wf_emptyBoard.
  - lia.
  - lia.
  - intros r c _ _ _. apply getCell_emptyBoard.
  - intros r c _ _ H. simpl in H. lia.
  - rewrite E. exists G, g'. split; auto.
    destruct ok.
    + destruct (Ht eq_refl) as [Hw [Hfi Hnc]]. split; auto. split; auto.
      apply Hnc. intros r c r' c' v _ _ _ _ _ _ H.
      rewrite getCell_emptyBoard in H. discriminate.
    + destruct (Hf eq_refl) as [_ Hno]. exfalso.
      apply (Hno knownSolution). apply knownSolution_Completion.
Qed.

(** ** Counting clues *)

Lemma sum_same {A : Type} (f f' : A -> nat) (p : A) (l : list A) :
  ~ In p l -> (forall q, q <> p -> f' q = f q) ->
  list_sum (map f' l) = list_sum (map f l).
Proof.
  intros Hni Hq. induction l as [|h t IH]; simpl; auto.
  rewrite Hq by (intros ->; apply Hni; left; reflexivity).
  rewrite IH; auto. intros Hin. apply Hni. now right.
Qed.

Lemma sum_flip {A : Type} (f f' : A -> nat) (p : A) (l : list A) :
  NoDup l -> In p l -> f p = f' p + 1 ->
  (forall q, q <> p -> f' q = f q) ->
  list_sum (map f' l) + 1 = list_sum (map f l).
Proof.
  intros Hnd Hin Hp Hq. induction l as [|h t IH]; [destruct Hin|].
  inversion Hnd as [|? ? Hnotin Hnd']; subst.
  destruct Hin as [->|Hin]; simpl.
  - rewrite (@sum_same _ f f' p t Hnotin Hq). lia.
  - rewrite Hq by (intros ->; contradiction).
    specialize (IH Hnd' Hin). lia.
Qed.

Lemma filled_setCell_None (b : Board) (r c : nat) :
  wf b -> r < 9 -> c < 9 -> getCell b r c <> None ->
  filled b (r, c) = filled (setCell b r c None) (r, c) + 1.
Proof.
  intros Hwf Hr Hc Hn. unfold filled. simpl.
  rewrite getCell_setCell_eq by assumption.
  destruct (getCell b r c); simpl; congruence.
Qed.

Lemma filled_setCell_other (b : Board) (r c : nat) (v : Cell) (q : nat * nat) :
  q <> (r, c) -> filled (setCell b r c v) q = filled b q.
Proof.
  intros Hne. unfold filled. destruct q as [r' c']. simpl.
  rewrite getCell_setCell_neq; auto.
Qed.

Lemma countFilled_remove (b : Board) (r c : nat) :
  wf b -> r < 9 -> c < 9 -> getCell b r c <> None ->
  countFilled (setCell b r c None) + 1 = countFilled b.
Proof.
  intros Hwf Hr Hc Hn. unfold countFilled.
  apply sum_flip with (p := (r, c)).
  - apply allPositions_NoDup.
  - apply in_allPositions. auto.
  - now apply filled_setCell_None.
  - intros q Hq. now apply filled_setCell_other.
Qed.

Lemma boxSum_remove (b : Board) (r c : nat) :
  wf b -> r < 9 -> c < 9 -> getCell b r c <> None ->
  boxSum (setCell b r c None) (r / 3) (c / 3) + 1 = boxSum b (r / 3) (c / 3).
Proof.
  intros Hwf Hr Hc Hn. unfold boxSum.
  apply sum_flip with (p := (r, c)).
  - apply allPositions_NoDup.
  - apply in_allPositions. auto.
  - unfold inBox. cbn [fst snd]. rewrite !Nat.eqb_refl. cbn [andb].
    now apply filled_setCell_None.
  - intros q Hq. rewrite filled_setCell_other by assumption. reflexivity.
Qed.

Lemma boxSum_remove_other (b : Board) (r c br bc : nat) :
  (br, bc) <> (r / 3, c / 3) ->
  boxSum (setCell b r c None) br bc = boxSum b br bc.
Proof.
  intros Hne. unfold boxSum.
  f_equal. apply map_ext. intros q.
  destruct (inBox br bc q) eqn:E; auto.
  apply filled_setCell_other. intros ->. apply Hne.
  unfold inBox in E. cbn [fst snd] in E. apply andb_true_iff in E.
  destruct E as [E1 E2]. apply Nat.eqb_eq in E1, E2. congruence.
Qed.

Lemma in_boxes (br bc : nat) : In (br, bc) boxes <-> br < 3 /\ bc < 3.
Proof.
  unfold boxes. rewrite in_flat_map. split.
  - intros [x [Hx Hin]]. apply in_map_iff in Hin.
    destruct Hin as [y [Heq Hy]]. inversion Heq; subst.
    apply in_seq in Hx. apply in_seq in Hy. lia.
  - intros [Hr Hc]. exists br. split.
    + apply in_seq. lia.
    + apply in_map_iff. exists bc. split; auto. apply in_seq. lia.
Qed.

Lemma boxes_NoDup : NoDup boxes.
Proof. apply nodupb_NoDup. vm_compute. reflexivity. Qed.

Lemma wf3_upd2 {A : Type} (m : list (list A)) (r c : nat) (v : A) :
  wf3 m -> wf3 (upd2 m r c v).
Proof.
  intros [Hl Hr]. split.
  - now rewrite upd2_length.
  - intros r' Hr'. rewrite upd2_row_length. auto.
Qed.

Lemma wf3_nth2_upd2_eq {A : Type} (d : A) (m : list (list A)) (r c : nat) (v : A) :
  wf3 m -> r < 3 -> c < 3 -> nth2 d (upd2 m r c v) r c = v.
Proof.
  intros [Hl Hr] Hlt Hc. apply nth2_upd2_eq.
  - lia.
  - rewrite Hr; auto.
Qed.

Lemma wf3_zeroRemovals : wf3 zeroRemovals.
Proof.
  split; [reflexivity|].
  intros r Hr. do 3 (destruct r as [|r]; [reflexivity|]). lia.
Qed.

Lemma sumR_incr (R : list (list nat)) (br bc : nat) :
  wf3 R -> br < 3 -> bc < 3 ->
  sumR (upd2 R br bc (nth2 0 R br bc + 1)) = sumR R + 1.
Proof.
  intros Hwf Hr Hc. unfold sumR. symmetry.
  apply sum_flip with (p := (br, bc)).
  - apply boxes_NoDup.
  - apply in_boxes. auto.
  - simpl. now rewrite wf3_nth2_upd2_eq.
  - intros [br' bc'] Hne. simpl. rewrite nth2_upd2_neq; auto.
Qed.

Lemma sumR_lower (R : list (list nat)) (x : nat) :
  (forall br bc, br < 3 -> bc < 3 -> x <= nth2 0 R br bc) ->
  9 * x <= sumR R.
Proof.
  intros H. unfold sumR.
  assert (forall l, (forall bx, In bx l -> x <= nth2 0 R (fst bx) (snd bx)) ->
                    length l * x <= list_sum (map (fun bx => nth2 0 R (fst bx) (snd bx)) l))
    as Hgen.
  { induction l as [|h t IH]; intros Hl; simpl; [lia|].
    specialize (IH (fun bx Hin => Hl bx (or_intror Hin))).
    specialize (Hl h (or_introl eq_refl)). lia. }
  apply (Hgen boxes). intros [br bc] Hin. apply in_boxes in Hin.
  simpl. apply H; tauto.
Qed.

Lemma box_index_lt (r : nat) : r < 9 -> r / 3 < 3.
Proof. intros H. apply Nat.Div0.div_lt_upper_bound. lia. Qed.

Lemma Inv_removeCell (st : Removal) (r c : nat) :
  Inv st -> r < 9 -> c < 9 -> getCell (puzzle st) r c <> None ->
  Inv (removeCell st r c (r / 3) (c / 3)).
Proof.
  intros [Hwf [Hw3 [Hbox [Htot Hcnt]]]] Hr Hc Hn.
  pose proof (box_index_lt Hr) as Hbr. pose proof (box_index_lt Hc) as Hbc.
  unfold Inv, removeCell. cbn [puzzle boxRemovals totalRemoved].
  split; [|split; [|split; [|split]]].
  - now apply wf_setCell.
  - now apply wf3_upd2.
  - intros br bc Hlr Hlc.
    destruct (pos_eq_dec (r / 3, c / 3) (br, bc)) as [E|N].
    + apply pair_equal_spec in E. destruct E as [<- <-].
      rewrite wf3_nth2_upd2_eq by assumption.
      pose proof (boxSum_remove Hwf Hr Hc Hn).
      specialize (Hbox _ _ Hbr Hbc). lia.
    + rewrite nth2_upd2_neq by assumption.
      rewrite boxSum_remove_other by congruence. auto.
  - rewrite sumR_incr by assumption. lia.
  - pose proof (countFilled_remove Hwf Hr Hc Hn). lia.
Qed.

Lemma countFilledInBox_boxSum (b : Board) (br bc : nat) :
  br < 3 -> bc < 3 -> countFilledInBox b br bc = boxSum b br bc.
Proof.
  intros Hr Hc.
  destruct br as [|[|[|br]]]; try lia;
    destruct bc as [|[|[|bc]]]; try lia;
    unfold countFilledInBox, boxSum, filled;
    cbv - [getCell isNull Nat.add]; cbn [Nat.add]; lia.
Qed.

Lemma filled_Full (b : Board) (p : nat * nat) :
  Full b -> In p allPositions -> filled b p = 1.
Proof.
  intros Hf Hin. destruct p as [r c]. apply in_allPositions in Hin.
  unfold filled. simpl. destruct (getCell b r c) eqn:E; auto.
  exfalso. apply (Hf r c); tauto.
Qed.

Lemma countFilled_Full (b : Board) : Full b -> countFilled b = 81.
Proof.
  intros Hf. unfold countFilled.
  rewrite (map_ext_in _ (fun _ => 1)).
  - vm_compute. reflexivity.
  - intros p Hin. now apply filled_Full.
Qed.

Lemma boxSum_Full (b : Board) (br bc : nat) :
  Full b -> br < 3 -> bc < 3 -> boxSum b br bc = 9.
Proof.
  intros Hf Hr Hc. unfold boxSum.
  rewrite (map_ext_in _ (fun p => if inBox br bc p then 1 else 0)).
  - destruct br as [|[|[|br]]]; try lia;
      destruct bc as [|[|[|bc]]]; try lia; vm_compute; reflexivity.
  - intros p Hin. rewrite filled_Full; auto.
Qed.

Lemma Inv_initial (G : Board) :
  wf G -> Full G -> Inv (mkRemoval G zeroRemovals 0).
Proof.
  intros Hwf Hf. unfold Inv. simpl. split; [|split; [|split; [|split]]]; auto.
  - apply wf3_zeroRemovals.
  - intros br bc Hr Hc. rewrite boxSum_Full by assumption.
    destruct br as [|[|[|br]]]; try lia;
      destruct bc as [|[|[|bc]]]; try lia; reflexivity.
  - rewrite countFilled_Full by assumption. reflexivity.
Qed.

(** ** The removal passes *)

Lemma countTag_cons (br bc : nat) (q : nat * nat * nat * nat)
    (L : list (nat * nat * nat * nat)) :
  countTag br bc (q :: L) =
  (let '(_, _, br', bc') := q in
   if (br' =? br) && (bc' =? bc) then 1 else 0) + countTag br bc L.
Proof.
  unfold countTag. simpl. destruct q as [[[r c] br'] bc'].
  destruct ((br' =? br) && (bc' =? bc)); reflexivity.
Qed.

Lemma countTag_app (br bc : nat) (L1 L2 : list (nat * nat * nat * nat)) :
  countTag br bc (L1 ++ L2) = countTag br bc L1 + countTag br bc L2.
Proof.
  unfold countTag. now rewrite filter_app, length_app.
Qed.

Lemma countTag_Permutation (br bc : nat) (L1 L2 : list (nat * nat * nat * nat)) :
  Permutation L1 L2 -> countTag br bc L1 = countTag br bc L2.
Proof.
  intros H. induction H as [|x l l' H IH|x y l|l l' l'' H1 IH1 H2 IH2].
  - reflexivity.
  - rewrite !countTag_cons. now rewrite IH.
  - rewrite !countTag_cons. lia.
  - congruence.
Qed.

Lemma Pending_tail (b : Board) (q : nat * nat * nat * nat)
    (L : list (nat * nat * nat * nat)) (r c : nat) :
  posOf q = (r, c) -> Pending b (q :: L) -> Pending (setCell b r c None) L.
Proof.
  intros Hq [Hnd Hall]. simpl in Hnd.
  inversion Hnd as [|? ? Hnotin Hnd']; subst. split; auto.
  intros r' c' br' bc' Hin.
  destruct (Hall r' c' br' bc' (or_intror Hin)) as [H1 [H2 [H3 [H4 H5]]]].
  repeat (split; auto).
  rewrite getCell_setCell_neq; auto.
  intros E. apply Hnotin. rewrite Hq, E.
  apply in_map_iff. exists (r', c', br', bc'). split; auto.
Qed.

Lemma Pending_skip (b : Board) (q : nat * nat * nat * nat)
    (L : list (nat * nat * nat * nat)) :
  Pending b (q :: L) -> Pending b L.
Proof.
  intros [Hnd Hall]. simpl in Hnd.
  inversion Hnd as [|? ? Hnotin Hnd']; subst. split; auto.
  intros r' c' br' bc' Hin. apply Hall. now right.
Qed.

Lemma removals_removeCell (st : Removal) (r c br bc br' bc' : nat) :
  wf3 (boxRemovals st) -> br < 3 -> bc < 3 ->
  nth2 0 (boxRemovals (removeCell st r c br bc)) br' bc' =
  nth2 0 (boxRemovals st) br' bc'
  + (if (br =? br') && (bc =? bc') then 1 else 0).
Proof.
  intros Hw Hbr Hbc. unfold removeCell. cbn [boxRemovals].
  destruct (Nat.eqb_spec br br') as [<-|N1]; cbn [andb].
  - destruct (Nat.eqb_spec bc bc') as [<-|N2].
    + now rewrite wf3_nth2_upd2_eq.
    + rewrite nth2_upd2_neq by congruence. lia.
  - rewrite nth2_upd2_neq by congruence. lia.
Qed.

(** Unconditional removal of the entries of [L1]. *)
Lemma fold_removeTagged_spec (L1 L2 : list (nat * nat * nat * nat)) :
  forall st,
    Inv st -> Pending (puzzle st) (L1 ++ L2) ->
    Inv (fold_left removeTagged L1 st) /\
    Pending (puzzle (fold_left removeTagged L1 st)) L2 /\
    forall br bc, br < 3 -> bc < 3 ->
      nth2 0 (boxRemovals (fold_left removeTagged L1 st)) br bc =
      nth2 0 (boxRemovals st) br bc + countTag br bc L1.
Proof.
  induction L1 as [|q L1 IH]; intros st Hinv Hp.
  - simpl. split; [assumption|]. split; [assumption|]. intros br bc _ _.
    unfold countTag. simpl. lia.
  - destruct q as [[[r c] br0] bc0].
    destruct (proj2 Hp r c br0 bc0 (or_introl eq_refl))
      as [Hr [Hc [Hbr [Hbc Hn]]]].
    subst br0 bc0.
    pose proof (Inv_removeCell Hinv Hr Hc Hn) as Hinv'.
    assert (Pending (puzzle (removeCell st r c (r / 3) (c / 3))) (L1 ++ L2))
      as Hp'.
    { unfold removeCell. cbn [puzzle].
      apply Pending_tail with (q := (r, c, r / 3, c / 3)); auto. }
    destruct (IH _ Hinv' Hp') as [H1 [H2 H3]].
    cbn [fold_left removeTagged]. split; auto. split; auto.
    intros br bc Hlr Hlc. rewrite H3 by assumption.
    rewrite removals_removeCell.
    + rewrite countTag_cons. lia.
    + apply Hinv.
    + now apply box_index_lt.
    + now apply box_index_lt.
Qed.

(** The second pass reaches the target exactly and respects the caps. *)
Lemma secondPass_spec (target maxRem minRem : nat)
    (L : list (nat * nat * nat * nat)) :
  target <= 9 * maxRem ->
  forall st,
    Inv st -> Pending (puzzle st) L ->
    (forall br bc, br < 3 -> bc < 3 ->
       minRem <= nth2 0 (boxRemovals st) br bc <= maxRem) ->
    totalRemoved st <= target ->
    (forall br bc, br < 3 -> bc < 3 ->
       maxRem <= nth2 0 (boxRemovals st) br bc + countTag br bc L) ->
    let st' := secondPass L target maxRem st in
    Inv st' /\
    (forall br bc, br < 3 -> bc < 3 ->
       minRem <= nth2 0 (boxRemovals st') br bc <= maxRem) /\
    totalRemoved st' = target.
Proof.
  intros Hcap. induction L as [|q L IH]; intros st Hinv Hp Hb Ht Hpot.
  - simpl. split; auto. split; auto.
    assert (9 * maxRem <= sumR (boxRemovals st)) as Hs.
    { apply sumR_lower. intros br bc Hr Hc.
      specialize (Hpot br bc Hr Hc). unfold countTag in Hpot. simpl in Hpot.
      lia. }
    destruct Hinv as [_ [_ [_ [Htot _]]]]. lia.
  - destruct q as [[[r c] br0] bc0]. cbn [secondPass].
    destruct (Nat.leb_spec target (totalRemoved st)) as [Hge|Hlt].
    { split; auto. split; auto. lia. }
    destruct (proj2 Hp r c br0 bc0 (or_introl eq_refl))
      as [Hr [Hc [Hbr [Hbc Hn]]]].
    subst br0 bc0.
    pose proof (box_index_lt Hr) as Hlr. pose proof (box_index_lt Hc) as Hlc.
    destruct (Nat.leb_spec maxRem (nth2 0 (boxRemovals st) (r / 3) (c / 3)))
      as [Hfull|Hroom].
    + apply IH; auto.
      * now apply Pending_skip in Hp.
      * intros br bc Hr' Hc'. specialize (Hpot br bc Hr' Hc').
        rewrite countTag_cons in Hpot.
        destruct (Nat.eqb_spec (r / 3) br) as [E1|N1]; cbn [andb] in Hpot;
          [destruct (Nat.eqb_spec (c / 3) bc) as [E2|N2]|]; try lia.
        subst br bc. lia.
    + pose proof (Inv_removeCell Hinv Hr Hc Hn) as Hinv'.
      apply IH; auto.
      * unfold removeCell. cbn [puzzle].
        apply Pending_tail with (q := (r, c, r / 3, c / 3)); auto.
      * intros br bc Hr' Hc'. rewrite removals_removeCell; auto;
          [|apply Hinv].
        specialize (Hb br bc Hr' Hc').
        destruct (Nat.eqb_spec (r / 3) br) as [E1|N1]; cbn [andb];
          [destruct (Nat.eqb_spec (c / 3) bc) as [E2|N2]|]; try lia.
        subst br bc. lia.
      * unfold removeCell. cbn [totalRemoved]. lia.
      * intros br bc Hr' Hc'. rewrite removals_removeCell; auto;
          [|apply Hinv].
        specialize (Hpot br bc Hr' Hc'). rewrite countTag_cons in Hpot.
        destruct (Nat.eqb_spec (r / 3) br) as [E1|N1]; cbn [andb] in *;
          [destruct (Nat.eqb_spec (c / 3) bc) as [E2|N2]|]; lia.
Qed.

Lemma fold_left_flat_map {A B C : Type} (f : A -> C -> A) (g : B -> list C)
    (l : list B) :
  forall a, fold_left f (flat_map g l) a
            = fold_left (fun a x => fold_left f (g x) a) l a.
Proof.
  induction l as [|h t IH]; intros a; simpl; auto.
  now rewrite fold_left_app, IH.
Qed.

Lemma fold_left_map {A B C : Type} (f : A -> C -> A) (g : B -> C) (l : list B) :
  forall a, fold_left f (map g l) a = fold_left (fun a x => f a (g x)) l a.
Proof.
  induction l as [|h t IH]; intros a; simpl; auto.
Qed.

Lemma fold_left_ext_eq {A B : Type} (f g : A -> B -> A) (l : list B) :
  (forall a x, f a x = g a x) ->
  forall a, fold_left f l a = fold_left g l a.
Proof.
  intros H. induction l as [|h t IH]; intros a; simpl; auto.
  now rewrite H, IH.
Qed.

(** The entries removed by the first pass, in the order of removal. *)
Lemma firstPass_fold (cellsByBox : list (list (list (nat * nat))))
    (m : nat) (st : Removal) :
  firstPass cellsByBox m st =
  fold_left removeTagged
    (flat_map (fun bx => map (tagWith bx)
                           (firstn m (nth2 [] cellsByBox (fst bx) (snd bx))))
              boxes) st.
Proof.
  rewrite fold_left_flat_map. unfold firstPass.
  apply fold_left_ext_eq. intros a bx. cbv zeta.
  rewrite fold_left_map. reflexivity.
Qed.

Lemma shuffleBoxes_slots (bs : list (nat * nat)) :
  forall st0 : list (list (list (nat * nat))) * Rng,
    wf3 (fst st0) ->
    (forall bx, In bx bs -> fst bx < 3 /\ snd bx < 3) ->
    let st' :=
      fold_left (fun st bx =>
          let (shuffled, g') :=
            shuffleArray (nth2 [] (fst st) (fst bx) (snd bx)) (snd st) in
          (upd2 (fst st) (fst bx) (snd bx) shuffled, g'))
        bs st0 in
    wf3 (fst st') /\
    forall br bc, br < 3 -> bc < 3 ->
      Permutation (nth2 [] (fst st') br bc) (nth2 [] (fst st0) br bc).
Proof.
  induction bs as [|bx bs IH]; intros st0 Hwf Hin.
  - simpl. split; auto.
  - cbn [fold_left].
    destruct (shuffleArray (nth2 [] (fst st0) (fst bx) (snd bx)) (snd st0))
      as [shuffled g'] eqn:E.
    assert (Permutation shuffled (nth2 [] (fst st0) (fst bx) (snd bx))) as Hp.
    { pose proof (shuffleArray_Permutation
                    (nth2 [] (fst st0) (fst bx) (snd bx)) (snd st0)) as P.
      now rewrite E in P. }
    destruct (Hin bx (or_introl eq_refl)) as [Hbr Hbc].
    specialize (IH (upd2 (fst st0) (fst bx) (snd bx) shuffled, g')).
    cbn [fst snd] in IH.
    destruct IH as [Hw Hperm].
    + now apply wf3_upd2.
    + intros bx' Hin'. apply Hin. now right.
    + split; auto. intros br bc Hr Hc.
      eapply Permutation_trans; [apply Hperm; assumption|].
      destruct (pos_eq_dec (fst bx, snd bx) (br, bc)) as [Heq|Hne].
      * apply pair_equal_spec in Heq. destruct Heq as [<- <-].
        now rewrite wf3_nth2_upd2_eq.
      * now rewrite nth2_upd2_neq.
Qed.

Lemma groupCellsByBox_wf3 : wf3 groupCellsByBox.
Proof.
  split; [reflexivity|].
  intros r Hr. do 3 (destruct r as [|r]; [reflexivity|]). lia.
Qed.

Lemma groupCellsByBox_slot (br bc : nat) :
  br < 3 -> bc < 3 ->
  length (nth2 [] groupCellsByBox br bc) = 9 /\
  forall p, In p (nth2 [] groupCellsByBox br bc) ->
            fst p < 9 /\ snd p < 9 /\ fst p / 3 = br /\ snd p / 3 = bc.
Proof.
  intros Hr Hc.
  assert (forallb (fun bx =>
            (length (nth2 [] groupCellsByBox (fst bx) (snd bx)) =? 9)
            && forallb (fun p => (fst p <? 9) && (snd p <? 9)
                                 && (fst p / 3 =? fst bx) && (snd p / 3 =? snd bx))
                       (nth2 [] groupCellsByBox (fst bx) (snd bx)))
            boxes = true) as H by (vm_compute; reflexivity).
  rewrite forallb_forall in H.
  specialize (H (br, bc) (proj2 (in_boxes br bc) (conj Hr Hc))).
  cbn [fst snd] in H. apply andb_true_iff in H. destruct H as [H1 H2].
  apply Nat.eqb_eq in H1. split; [exact H1|].
  intros p Hin. rewrite forallb_forall in H2. specialize (H2 p Hin).
  apply andb_true_iff in H2. destruct H2 as [H2 Hd].
  apply andb_true_iff in H2. destruct H2 as [H2 Hc'].
  apply andb_true_iff in H2. destruct H2 as [Ha Hb].
  apply Nat.ltb_lt in Ha, Hb. apply Nat.eqb_eq in Hc', Hd.
  repeat split; assumption.
Qed.

Lemma groupCellsByBox_NoDup :
  NoDup (flat_map (fun bx => nth2 [] groupCellsByBox (fst bx) (snd bx)) boxes).
Proof. apply nodupb_NoDup. vm_compute. reflexivity. Qed.

Lemma shuffleBoxes_spec (cbb0 : list (list (list (nat * nat)))) (g : Rng) :
  wf3 cbb0 ->
  forall br bc, br < 3 -> bc < 3 ->
    Permutation (nth2 [] (fst (shuffleBoxes cbb0 g)) br bc) (nth2 [] cbb0 br bc).
Proof.
  intros Hwf br bc Hr Hc.
  assert (forall bx, In bx boxes -> fst bx < 3 /\ snd bx < 3) as Hin.
  { intros [br' bc'] Hin. now apply in_boxes. }
  destruct (@shuffleBoxes_slots boxes (cbb0, g) Hwf Hin) as [_ HP].
  exact (HP br bc Hr Hc).
Qed.

Lemma Permutation_flat_map_split {A B : Type} (f g : A -> list B) (l : list A) :
  Permutation (flat_map f l ++ flat_map g l) (flat_map (fun x => f x ++ g x) l).
Proof.
  induction l as [|h t IH]; simpl; auto.
  rewrite <- !app_assoc. apply Permutation_app_head.
  eapply Permutation_trans; [apply Permutation_app_swap_app|].
  apply Permutation_app_head. exact IH.
Qed.

Lemma Permutation_flat_map_pointwise {A B : Type} (f g : A -> list B)
    (l : list A) :
  (forall x, In x l -> Permutation (f x) (g x)) ->
  Permutation (flat_map f l) (flat_map g l).
Proof.
  induction l as [|h t IH]; intros H; simpl; auto.
  apply Permutation_app.
  - apply H. now left.
  - apply IH. intros x Hin. apply H. now right.
Qed.

Lemma map_posOf_tagWith (bx : nat * nat) (l : list (nat * nat)) :
  map posOf (map (tagWith bx) l) = l.
Proof.
  rewrite map_map. rewrite <- (map_id l) at 2.
  apply map_ext. intros [r c]. reflexivity.
Qed.

Lemma map_posOf_flat_map (f : nat * nat -> list (nat * nat))
    (bs : list (nat * nat)) :
  map posOf (flat_map (fun bx => map (tagWith bx) (f bx)) bs) = flat_map f bs.
Proof.
  induction bs as [|h t IH]; simpl; auto.
  now rewrite map_app, map_posOf_tagWith, IH.
Qed.

Lemma countTag_tagWith (br bc : nat) (bx : nat * nat) (l : list (nat * nat)) :
  countTag br bc (map (tagWith bx) l) =
  if (fst bx =? br) && (snd bx =? bc) then length l else 0.
Proof.
  induction l as [|h t IH].
  - simpl. destruct ((fst bx =? br) && (snd bx =? bc)); reflexivity.
  - cbn [map]. rewrite countTag_cons, IH. unfold tagWith at 1.
    destruct ((fst bx =? br) && (snd bx =? bc)); simpl; lia.
Qed.

Lemma countTag_flat_map (br bc : nat) (f : nat * nat -> list (nat * nat))
    (bs : list (nat * nat)) :
  NoDup bs ->
  countTag br bc (flat_map (fun bx => map (tagWith bx) (f bx)) bs) =
  if existsb (fun bx => (fst bx =? br) && (snd bx =? bc)) bs
  then length (f (br, bc)) else 0.
Proof.
  induction bs as [|h t IH]; intros Hnd.
  - reflexivity.
  - inversion Hnd as [|? ? Hnotin Hnd']; subst.
    cbn [flat_map existsb]. rewrite countTag_app, countTag_tagWith, IH by assumption.
    destruct ((fst h =? br) && (snd h =? bc)) eqn:E.
    + apply andb_true_iff in E. destruct E as [E1 E2].
      apply Nat.eqb_eq in E1, E2. destruct h as [hr hc]. simpl in E1, E2.
      subst hr hc. cbn [orb].
      destruct (existsb _ t) eqn:Et.
      * exfalso. apply Hnotin. apply existsb_exists in Et.
        destruct Et as [[xr xc] [Hin Hx]]. simpl in Hx.
        apply andb_true_iff in Hx. destruct Hx as [X1 X2].
        apply Nat.eqb_eq in X1, X2. now subst.
      * lia.
    + cbn [orb]. lia.
Qed.

Lemma existsb_boxes (br bc : nat) :
  br < 3 -> bc < 3 ->
  existsb (fun bx => (fst bx =? br) && (snd bx =? bc)) boxes = true.
Proof.
  intros Hr Hc. apply existsb_exists. exists (br, bc). split.
  - now apply in_boxes.
  - simpl. now rewrite !Nat.eqb_refl.
Qed.

Lemma sumR_const (R : list (list nat)) (x : nat) :
  (forall br bc, br < 3 -> bc < 3 -> nth2 0 R br bc = x) ->
  sumR R = 9 * x.
Proof.
  intros H. unfold sumR.
  assert (forall l, (forall bx, In bx l -> nth2 0 R (fst bx) (snd bx) = x) ->
                    list_sum (map (fun bx => nth2 0 R (fst bx) (snd bx)) l)
                    = length l * x) as Hgen.
  { induction l as [|h t IH]; intros Hl; simpl; [lia|].
    rewrite (IH (fun bx Hin => Hl bx (or_intror Hin))).
    rewrite (Hl h (or_introl eq_refl)). lia. }
  apply (Hgen boxes). intros [br bc] Hin. apply in_boxes in Hin.
  simpl. apply H; tauto.
Qed.

Lemma zeroRemovals_nth2 (br bc : nat) : nth2 0 zeroRemovals br bc = 0.
Proof.
  unfold nth2, zeroRemovals.
  do 3 (destruct br as [|br]; [do 3 (destruct bc as [|bc]; [reflexivity|]);
                               destruct bc; reflexivity|]).
  destruct br; destruct bc; reflexivity.
Qed.

Lemma collectCells_eq (cbb : list (list (list (nat * nat)))) (m : nat) :
  collectCells cbb m =
  flat_map (fun bx => map (tagWith bx)
                          (skipn m (nth2 [] cbb (fst bx) (snd bx)))) boxes.
Proof. reflexivity. Qed.

Lemma in_tagged_flat_map (f : nat * nat -> list (nat * nat))
    (bs : list (nat * nat)) (r c br bc : nat) :
  In (r, c, br, bc) (flat_map (fun bx => map (tagWith bx) (f bx)) bs) ->
  In (br, bc) bs /\ In (r, c) (f (br, bc)).
Proof.
  intros H. apply in_flat_map in H. destruct H as [[xr xc] [Hx Hin]].
  apply in_map_iff in Hin. destruct Hin as [[pr pc] [Heq Hp]].
  unfold tagWith in Heq. simpl in Heq. inversion Heq; subst. auto.
Qed.

Lemma In_firstn {A : Type} (n : nat) (l : list A) (x : A) :
  In x (firstn n l) -> In x l.
Proof.
  intros H. rewrite <- (firstn_skipn n l). apply in_or_app. now left.
Qed.

Lemma In_skipn {A : Type} (n : nat) (l : list A) (x : A) :
  In x (skipn n l) -> In x l.
Proof.
  intros H. rewrite <- (firstn_skipn n l). apply in_or_app. now right.
Qed.

Unset Implicit Arguments.

(** The two passes on a complete grid [G], for any admissible parameters. *)
Lemma removal_core (G : Board) (cbb : list (list (list (nat * nat))))
    (m maxRem target : nat) (L2 : list (nat * nat * nat * nat)) :
  wf G -> Full G ->
  (forall br bc, br < 3 -> bc < 3 ->
     Permutation (nth2 [] cbb br bc) (nth2 [] groupCellsByBox br bc)) ->
  m <= maxRem -> maxRem <= 9 -> 9 * m <= target -> target <= 9 * maxRem ->
  Permutation L2 (collectCells cbb m) ->
  let st2 := secondPass L2 target maxRem
               (firstPass cbb m (mkRemoval G zeroRemovals 0)) in
  Inv st2 /\
  (forall br bc, br < 3 -> bc < 3 ->
     m <= nth2 0 (boxRemovals st2) br bc <= maxRem) /\
  totalRemoved st2 = target.
Proof.
  intros Hwf Hfull Hslots Hm Hmax Hlow Hhigh HL2.
  set (slot := fun bx : nat * nat => nth2 [] cbb (fst bx) (snd bx)).
  set (L1 := flat_map (fun bx => map (tagWith bx) (firstn m (slot bx))) boxes).
  assert (forall br bc, br < 3 -> bc < 3 -> length (slot (br, bc)) = 9) as Hlen.
  { intros br bc Hr Hc. unfold slot. cbn [fst snd].
    rewrite (Permutation_length (Hslots br bc Hr Hc)).
    now apply groupCellsByBox_slot. }
  assert (forall br bc p, br < 3 -> bc < 3 -> In p (slot (br, bc)) ->
            fst p < 9 /\ snd p < 9 /\ fst p / 3 = br /\ snd p / 3 = bc) as Hcell.
  { intros br bc p Hr Hc Hin. unfold slot in Hin. cbn [fst snd] in Hin.
    apply (proj2 (groupCellsByBox_slot Hr Hc)).
    eapply Permutation_in; [apply Hslots; assumption|exact Hin]. }
  assert (Pending G (L1 ++ L2)) as Hpend.
  { split.
    - apply Permutation_NoDup
        with (l := flat_map (fun bx => nth2 [] groupCellsByBox (fst bx) (snd bx))
                            boxes);
        [|apply groupCellsByBox_NoDup].
      apply Permutation_sym.
      eapply Permutation_trans.
      { apply Permutation_map. apply Permutation_app_head. exact HL2. }
      rewrite collectCells_eq. rewrite map_app.
      unfold L1. rewrite !map_posOf_flat_map.
      eapply Permutation_trans; [apply Permutation_flat_map_split|].
      apply Permutation_flat_map_pointwise.
      intros [br bc] Hin. apply in_boxes in Hin.
      unfold slot. rewrite firstn_skipn. cbn [fst snd]. apply Hslots; tauto.
    - intros r c br bc Hin.
      assert (In (br, bc) boxes /\ In (r, c) (slot (br, bc))) as [Hb Hs].
      { apply in_app_or in Hin. destruct Hin as [Hin|Hin].
        - apply in_tagged_flat_map in Hin. destruct Hin as [Hb Hin].
          split; auto. eapply In_firstn; eauto.
        - apply (Permutation_in _ HL2) in Hin. rewrite collectCells_eq in Hin.
          apply in_tagged_flat_map in Hin. destruct Hin as [Hb Hin].
          split; auto. eapply In_skipn; eauto. }
      apply in_boxes in Hb. destruct Hb as [Hbr Hbc].
      destruct (Hcell br bc (r, c) Hbr Hbc Hs) as [H1 [H2 [H3 H4]]].
      cbn [fst snd] in *. repeat split; auto. }
  rewrite firstPass_fold.
  change (flat_map (fun bx => map (tagWith bx)
                               (firstn m (nth2 [] cbb (fst bx) (snd bx))))
                   boxes) with L1.
  destruct (@fold_removeTagged_spec L1 L2 (mkRemoval G zeroRemovals 0))
    as [Hinv1 [Hpend1 Hcnt1]].
  { now apply Inv_initial. }
  { exact Hpend. }
  set (st1 := fold_left removeTagged L1 (mkRemoval G zeroRemovals 0)) in *.
  assert (forall br bc, br < 3 -> bc < 3 ->
            nth2 0 (boxRemovals st1) br bc = m) as Hc1.
  { intros br bc Hr Hc. rewrite Hcnt1 by assumption. cbn [boxRemovals].
    rewrite zeroRemovals_nth2. unfold L1.
    rewrite countTag_flat_map by apply boxes_NoDup.
    rewrite existsb_boxes by assumption.
    rewrite length_firstn, Hlen by assumption. lia. }
  apply secondPass_spec with (minRem := m); auto.
  - intros br bc Hr Hc. rewrite Hc1 by assumption. lia.
  - destruct Hinv1 as [_ [_ [_ [Htot _]]]]. rewrite Htot.
    rewrite (sumR_const _ Hc1). assumption.
  - intros br bc Hr Hc. rewrite Hc1 by assumption.
    rewrite (countTag_Permutation br bc HL2). rewrite collectCells_eq.
    rewrite (@countTag_flat_map br bc (fun bx => skipn m (slot bx)))
      by apply boxes_NoDup.
    rewrite existsb_boxes by assumption.
    rewrite length_skipn, Hlen by assumption. lia.
Qed.

(** Removal only empties cells. *)
Lemma SubBoard_refl (b : Board) : SubBoard b b.
Proof. intros r c v _ _ H. exact H. Qed.

Lemma SubBoard_remove (G p : Board) (r c : nat) :
  wf p /\ SubBoard p G -> wf (setCell p r c None) /\ SubBoard (setCell p r c None) G.
Proof.
  intros [Hwf Hs]. split; [now apply wf_setCell|].
  intros r' c' v Hr' Hc' Hv.
  destruct (pos_eq_dec (r, c) (r', c')) as [E|N].
  - apply pair_equal_spec in E. destruct E as [<- <-].
    rewrite getCell_setCell_eq in Hv by assumption. discriminate.
  - rewrite getCell_setCell_neq in Hv by assumption. now apply Hs.
Qed.

Lemma fold_removeTagged_puzzle (P : Board -> Prop)
    (L : list (nat * nat * nat * nat)) :
  (forall b r c, P b -> P (setCell b r c None)) ->
  forall st, P (puzzle st) -> P (puzzle (fold_left removeTagged L st)).
Proof.
  intros HP. induction L as [|q L IH]; intros st H; simpl; auto.
  apply IH. destruct q as [[[r c] br] bc]. simpl. now apply HP.
Qed.

Lemma secondPass_puzzle (P : Board -> Prop) (target maxRem : nat)
    (L : list (nat * nat * nat * nat)) :
  (forall b r c, P b -> P (setCell b r c None)) ->
  forall st, P (puzzle st) -> P (puzzle (secondPass L target maxRem st)).
Proof.
  intros HP. induction L as [|q L IH]; intros st H; simpl; auto.
  destruct q as [[[r c] br] bc].
  destruct (target <=? totalRemoved st); auto.
  destruct (maxRem <=? nth2 0 (boxRemovals st) br bc); auto.
  apply IH. simpl. now apply HP.
Qed.

Lemma symmetricLoop_puzzle (P : Board -> Prop) (cellsToRemove maxRem : nat)
    (L : list (nat * nat)) :
  (forall b r c, P b -> P (setCell b r c None)) ->
  forall st, P (puzzle st) ->
             P (puzzle (symmetricLoop L cellsToRemove maxRem st)).
Proof.
  intros HP. induction L as [|q L IH]; intros st H; cbn [symmetricLoop]; auto.
  destruct q as [r c].
  destruct (cellsToRemove <=? totalRemoved st); auto.
  destruct (_ || _); auto.
  apply IH. cbn [puzzle]. now apply HP, HP.
Qed.

Lemma removeCellsImproved_sub (G : Board) (d : Difficulty) (g : Rng) :
  wf G ->
  wf (fst (removeCellsImproved G d g)) /\
  SubBoard (fst (removeCellsImproved G d g)) G.
Proof.
  intros Hwf. unfold removeCellsImproved.
  destruct (getBoxConstraints d) as [minPerBox maxPerBox].
  destruct (getCluesRange d) as [minTotal maxTotal].
  destruct (randomBelow (maxTotal - minTotal + 1) g) as [k g1].
  destruct (shuffleBoxes groupCellsByBox g1) as [cbb g2].
  destruct (shuffleArray (collectCells cbb (9 - maxPerBox)) g2) as [cells g3].
  cbn [fst]. rewrite map_id_eq.
  apply (secondPass_puzzle (fun p => wf p /\ SubBoard p G)).
  { intros b r c. apply SubBoard_remove. }
  rewrite firstPass_fold.
  apply (fold_removeTagged_puzzle (fun p => wf p /\ SubBoard p G)).
  { intros b r c. apply SubBoard_remove. }
  cbn [puzzle]. split; [assumption|apply SubBoard_refl].
Qed.

Lemma randomBelow_lt (n : nat) (g : Rng) : 0 < n -> fst (randomBelow n g) < n.
Proof.
  intros H. unfold randomBelow. cbn [fst]. apply Nat.mod_upper_bound. lia.
Qed.

(** Clue counts of the puzzle that [removeCellsImproved] makes from a complete
    grid. *)
Lemma removeCellsImproved_counts (G : Board) (d : Difficulty) (g : Rng) :
  wf G -> Full G ->
  fst (getCluesRange d) <= countFilled (fst (removeCellsImproved G d g))
    <= snd (getCluesRange d) /\
  forall br bc, br < 3 -> bc < 3 ->
    fst (getBoxConstraints d)
    <= countFilledInBox (fst (removeCellsImproved G d g)) br bc
    <= snd (getBoxConstraints d).
Proof.
  intros Hwf Hfull. unfold removeCellsImproved.
  destruct (getBoxConstraints d) as [minPerBox maxPerBox] eqn:Eb.
  destruct (getCluesRange d) as [minTotal maxTotal] eqn:Ec.
  pose proof (randomBelow_lt (maxTotal - minTotal + 1) g) as Hk.
  destruct (randomBelow (maxTotal - minTotal + 1) g) as [k g1].
  cbn [fst] in Hk. specialize (Hk ltac:(lia)).
  pose proof (@shuffleBoxes_spec groupCellsByBox g1 groupCellsByBox_wf3)
    as Hslots.
  destruct (shuffleBoxes groupCellsByBox g1) as [cbb g2].
  cbn [fst] in Hslots.
  pose proof (shuffleArray_Permutation (collectCells cbb (9 - maxPerBox)) g2)
    as HL2.
  destruct (shuffleArray (collectCells cbb (9 - maxPerBox)) g2) as [cells g3].
  cbn [fst] in HL2. cbn [fst snd]. rewrite map_id_eq.
  assert (9 - maxPerBox <= 9 - minPerBox /\ 9 - minPerBox <= 9 /\
          9 * (9 - maxPerBox) <= 81 - (minTotal + k) /\
          81 - (minTotal + k) <= 9 * (9 - minPerBox) /\
          minTotal + k <= maxTotal /\ maxTotal <= 81 /\
          minPerBox <= maxPerBox /\ maxPerBox <= 9) as Har.
  { destruct d; inversion Eb; inversion Ec; subst; lia. }
  destruct (removal_core G cbb (9 - maxPerBox) (9 - minPerBox)
              (81 - (minTotal + k)) cells Hwf Hfull Hslots)
    as [Hinv [Hbox Htot]]; try lia; try assumption.
  destruct Hinv as [_ [_ [Hsum [_ Hcnt]]]].
  split.
  - lia.
  - intros br bc Hr Hc. rewrite countFilledInBox_boxSum by assumption.
    specialize (Hsum br bc Hr Hc). specialize (Hbox br bc Hr Hc). lia.
Qed.

(** ** Results on the solver *)

Lemma getCell_Some_range (b : Board) (r c : nat) (v : Z) :
  wf b -> getCell b r c = Some v -> r < 9 /\ c < 9.
Proof.
  intros [Hl Hr] H. unfold getCell, nth2 in H.
  destruct (Nat.lt_ge_cases r 9) as [Hlt|Hge].
  - split; auto. destruct (Nat.lt_ge_cases c 9) as [Hc|Hc]; auto.
    rewrite nth_overflow in H by (rewrite Hr; assumption). discriminate.
  - rewrite (nth_overflow b) in H by lia. destruct c; discriminate.
Qed.

(** On a board without conflicts [solveSudoku] finds a completion exactly
    when there is one. *)
Lemma solveSudoku_valid (b : Board) :
  wf b -> NoConflict b ->
  exists ok b',
    solveSudoku b = Some (ok, b') /\
    (ok = true -> Completion b b') /\
    (ok = false -> b' = b /\ NoneOf (Completion b)).
Proof.
  intros Hwf Hnc. destruct (solveSudoku_spec Hwf) as [ok [b' [E [Hf Ht]]]].
  exists ok, b'. split; auto. split.
  - intros Hok. destruct (Ht Hok) as [Hw [Hfi Hn]].
    split; auto.
  - exact Hf.
Qed.

(** C9: [solveSudoku] returns on every 9x9 board; no cell that was filled in
    the input is changed, whether the search succeeds or fails; and when it
    returns false the board is exactly the input board again. *)
Theorem solveSudoku_frame (b : Board) :
  wf b ->
  exists ok b',
    solveSudoku b = Some (ok, b') /\
    (forall r c v, getCell b r c = Some v -> getCell b' r c = Some v) /\
    (ok = false -> b' = b).
Proof.
  intros Hwf. destruct (solveSudoku_spec Hwf) as [ok [b' [E [Hf Ht]]]].
  exists ok, b'. split; auto. split.
  - intros r c v Hv. destruct ok.
    + destruct (Ht eq_refl) as [_ [Hfi _]].
      destruct (getCell_Some_range b r c v Hwf Hv) as [Hr Hc].
      apply (Fills_SubBoard Hfi); assumption.
    + destruct (Hf eq_refl) as [-> _]. exact Hv.
  - intros Hok. now apply Hf.
Qed.

Lemma solveSudoku_frame_witness :
  wf deadEndBoard /\
  exists ok b',
    solveSudoku deadEndBoard = Some (ok, b') /\
    (forall r c v, getCell deadEndBoard r c = Some v ->
                   getCell b' r c = Some v) /\
    (ok = false -> b' = deadEndBoard).
Proof.
  assert (wf deadEndBoard) as Hwf.
  { split; [reflexivity|].
    intros r Hr. do 9 (destruct r as [|r]; [reflexivity|]). lia. }
  split; [exact Hwf|].
  apply (solveSudoku_frame deadEndBoard Hwf).
Defined.

(** ** Results on the generator *)

(** C2: whatever [Math.random] returns, [generateCompleteSudoku] returns a
    board that [isBoardSolved] accepts: no empty cell, no duplicate in a row,
    column or box. *)
Theorem generateCompleteSudoku_solved (g : Rng) :
  exists G g',
    generateCompleteSudoku g = Some (G, g') /\ isBoardSolved G = true.
Proof.
  destruct (generateCompleteSudoku_spec g) as [G [g' [E [Hwf [Hfi Hnc]]]]].
  exists G, g'. split; auto.
  apply isBoardSolved_true. split; auto.
  exact (Fills_Full Hfi).
Qed.

Lemma documented_ranges (d : Difficulty) :
  getCluesRange d = documentedCluesRange d /\
  getBoxConstraints d = documentedBoxRange d.
Proof. destruct d; split; reflexivity. Qed.

(** C4: for every difficulty level and every behaviour of [Math.random],
    [generateSudokuPuzzle] returns a puzzle whose number of clues lies in the
    documented global range of the level and in which each of the nine boxes
    has a number of clues in the documented per-box range. *)
Theorem generateSudokuPuzzle_clue_counts (d : Difficulty) (g : Rng) :
  exists p g',
    generateSudokuPuzzle d g = Some (p, g') /\
    fst (documentedCluesRange d) <= countFilled p
      <= snd (documentedCluesRange d) /\
    Forall (fun bx =>
              fst (documentedBoxRange d)
              <= countFilledInBox p (fst bx) (snd bx)
              <= snd (documentedBoxRange d)) boxes.
Proof.
  unfold generateSudokuPuzzle.
  destruct (generateCompleteSudoku_spec g) as [G [g1 [E [Hwf [Hfi Hnc]]]]].
  rewrite E.
  destruct (removeCellsImproved_counts G d g1 Hwf (Fills_Full Hfi))
    as [Htot Hbox].
  destruct (documented_ranges d) as [<- <-].
  destruct (removeCellsImproved G d g1) as [p g'] eqn:Ep. cbn [fst] in *.
  exists p, g'. split; auto. split; auto.
  apply Forall_forall. intros [br bc] Hin. apply in_boxes in Hin.
  cbn [fst snd]. apply Hbox; tauto.
Qed.

(** *** Symmetric removal *)

Lemma getCell_remove_pair (p : Board) (r c r' c' : nat) :
  wf p -> r < 9 -> c < 9 -> r' < 9 -> c' < 9 ->
  (getCell (setCell (setCell p r c None) (8 - r) (8 - c) None) r' c' = None
   <-> (r' = r /\ c' = c) \/ (r' = 8 - r /\ c' = 8 - c)
       \/ getCell p r' c' = None).
Proof.
  intros Hwf Hr Hc Hr' Hc'.
  destruct (pos_eq_dec (8 - r, 8 - c) (r', c')) as [E|N].
  - apply pair_equal_spec in E. destruct E as [<- <-].
    rewrite getCell_setCell_eq by (try apply wf_setCell; auto; lia).
    split; auto.
  - rewrite getCell_setCell_neq by assumption.
    destruct (pos_eq_dec (r, c) (r', c')) as [E2|N2].
    + apply pair_equal_spec in E2. destruct E2 as [<- <-].
      rewrite getCell_setCell_eq by assumption. split; auto.
    + rewrite getCell_setCell_neq by assumption. split; auto.
      intros [[-> ->]|[[-> ->]|H]]; auto; congruence.
Qed.

Lemma Symmetric_remove_pair (p : Board) (r c : nat) :
  wf p -> r < 9 -> c < 9 -> Symmetric p ->
  Symmetric (setCell (setCell p r c None) (8 - r) (8 - c) None).
Proof.
  intros Hwf Hr Hc Hs r' c' Hr' Hc'.
  rewrite !getCell_remove_pair by (auto; lia).
  specialize (Hs r' c' Hr' Hc').
  split; intros [[H1 H2]|[[H1 H2]|H]].
  - right; left. lia.
  - left. lia.
  - right; right. now apply Hs.
  - right; left. lia.
  - left. lia.
  - right; right. now apply Hs.
Qed.

Lemma Symmetric_Full (b : Board) : Full b -> Symmetric b.
Proof.
  intros Hf r c Hr Hc. split; intros H; exfalso.
  - now apply (Hf r c).
  - apply (Hf (8 - r) (8 - c)); auto; lia.
Qed.

Lemma symmetricLoop_Symmetric (cellsToRemove maxRem : nat)
    (L : list (nat * nat)) :
  (forall q, In q L -> fst q < 9 /\ snd q < 9) ->
  forall st,
    wf (puzzle st) -> Symmetric (puzzle st) ->
    Symmetric (puzzle (symmetricLoop L cellsToRemove maxRem st)).
Proof.
  induction L as [|q L IH]; intros HL st Hwf Hs; cbn [symmetricLoop]; auto.
  destruct q as [r c].
  destruct (HL (r, c) (or_introl eq_refl)) as [Hr Hc]. cbn [fst snd] in Hr, Hc.
  destruct (cellsToRemove <=? totalRemoved st); auto.
  destruct (_ || _).
  - apply IH; auto. intros q Hq. apply HL. now right.
  - apply IH.
    + intros q Hq. apply HL. now right.
    + cbn [puzzle]. now apply wf_setCell, wf_setCell.
    + cbn [puzzle]. now apply Symmetric_remove_pair.
Qed.

Lemma symmetricPositions_range (q : nat * nat) :
  In q symmetricPositions -> fst q < 9 /\ snd q < 9.
Proof.
  assert (forallb (fun q => (fst q <? 9) && (snd q <? 9)) symmetricPositions
          = true) as H by (vm_compute; reflexivity).
  rewrite forallb_forall in H. intros Hin. specialize (H q Hin).
  apply andb_true_iff in H. destruct H as [H1 H2].
  apply Nat.ltb_lt in H1, H2. auto.
Qed.

(** What the removal loop of [generateSymmetricPuzzle] makes from a complete
    grid. *)
Lemma symmetricRemoval_spec (G : Board) (d : Difficulty) (g : Rng) :
  wf G -> Full G ->
  wf (fst (symmetricRemoval G d g)) /\
  SubBoard (fst (symmetricRemoval G d g)) G /\
  Symmetric (fst (symmetricRemoval G d g)).
Proof.
  intros Hwf Hfull. unfold symmetricRemoval.
  destruct (getCluesRange d) as [minTotal maxTotal].
  destruct (randomBelow (maxTotal - minTotal + 1) g) as [k g1].
  destruct (getBoxConstraints d) as [minPerBox maxPerBox].
  pose proof (shuffleArray_Permutation symmetricPositions g1) as HP.
  destruct (shuffleArray symmetricPositions g1) as [positions g2].
  cbn [fst] in *. rewrite map_id_eq.
  assert (wf (puzzle (symmetricLoop positions
                        (if (81 - (minTotal + k)) mod 2 =? 0
                         then 81 - (minTotal + k)
                         else 81 - (minTotal + k) - 1)
                        (9 - minPerBox) (mkRemoval G zeroRemovals 0))) /\
          SubBoard (puzzle (symmetricLoop positions
                        (if (81 - (minTotal + k)) mod 2 =? 0
                         then 81 - (minTotal + k)
                         else 81 - (minTotal + k) - 1)
                        (9 - minPerBox) (mkRemoval G zeroRemovals 0))) G)
    as [H1 H2].
  { apply (symmetricLoop_puzzle (fun p => wf p /\ SubBoard p G)).
    - intros b r c. apply SubBoard_remove.
    - cbn [puzzle]. split; [assumption|apply SubBoard_refl]. }
  split; auto. split; auto.
  apply symmetricLoop_Symmetric.
  - intros q Hq. apply symmetricPositions_range.
    eapply Permutation_in; [exact HP|exact Hq].
  - exact Hwf.
  - now apply Symmetric_Full.
Qed.

(** C7: in every puzzle returned by [generateSymmetricPuzzle], cell [(r, c)]
    is empty if and only if cell [(8-r, 8-c)] is empty. *)
Theorem generateSymmetricPuzzle_symmetric (d : Difficulty) (g : Rng) :
  exists p g',
    generateSymmetricPuzzle d g = Some (p, g') /\
    forall r c, r < 9 -> c < 9 ->
      (getCell p r c = None <-> getCell p (8 - r) (8 - c) = None).
Proof.
  unfold generateSymmetricPuzzle.
  destruct (generateCompleteSudoku_spec g) as [G [g1 [E [Hwf [Hfi Hnc]]]]].
  rewrite E.
  destruct (symmetricRemoval_spec G d g1 Hwf (Fills_Full Hfi)) as [_ [_ Hs]].
  destruct (symmetricRemoval G d g1) as [p g'].
  exists p, g'. split; auto.
Qed.

(** *** Generated puzzles are valid grids *)

Lemma SubBoard_NoConflict (p G : Board) :
  SubBoard p G -> NoConflict G -> NoConflict p.
Proof.
  intros Hs Hnc r c r' c' v Hr Hc Hr' Hc' Hne Hg H1 H2.
  apply (Hnc r c r' c' v); auto.
Qed.

Lemma SubBoard_digits (p G : Board) :
  SubBoard p G -> Fills emptyBoard G -> cellsAreDigits p = true.
Proof.
  intros Hs Hf. unfold cellsAreDigits. apply forallb_forall.
  intros [r c] Hin. apply in_allPositions in Hin. destruct Hin as [Hr Hc].
  cbn [fst snd]. destruct (getCell p r c) as [v|] eqn:E; auto.
  apply Hs in E; auto. specialize (Hf r c Hr Hc).
  rewrite getCell_emptyBoard in Hf. destruct Hf as [d [Hd Hg]].
  rewrite E in Hg. inversion Hg; subst d. apply in_digits in Hd.
  apply andb_true_iff. split; apply Z.leb_le; lia.
Qed.

Lemma SubBoard_Completion (p G : Board) :
  wf G -> SubBoard p G -> Fills emptyBoard G -> NoConflict G ->
  Completion p G.
Proof.
  intros Hwf Hs Hf Hnc. split; auto. split; auto.
  intros r c Hr Hc. destruct (getCell p r c) as [v|] eqn:E.
  - now apply Hs.
  - specialize (Hf r c Hr Hc). now rewrite getCell_emptyBoard in Hf.
Qed.

Lemma balancedLoop_inv (P : Board -> Prop) (d : Difficulty) :
  (forall g, exists p g', generateSudokuPuzzle d g = Some (p, g') /\ P p) ->
  forall n g, exists p g', balancedLoop n d g = Some (p, g') /\ P p.
Proof.
  intros H. induction n as [|n IH]; intros g; cbn [balancedLoop].
  - apply H.
  - destruct (H g) as [p [g' [E HP]]]. rewrite E.
    destruct (hasCompleteBox p).
    + apply IH.
    + exists p, g'. auto.
Qed.

Lemma generateSudokuPuzzle_valid (d : Difficulty) (g : Rng) :
  exists p g',
    generateSudokuPuzzle d g = Some (p, g') /\
    (cellsAreDigits p = true /\ isBoardValid p = true).
Proof.
  unfold generateSudokuPuzzle.
  destruct (generateCompleteSudoku_spec g) as [G [g1 [E [Hwf [Hfi Hnc]]]]].
  rewrite E.
  destruct (removeCellsImproved_sub G d g1 Hwf) as [Hw Hs].
  destruct (removeCellsImproved G d g1) as [p g']. cbn [fst] in *.
  exists p, g'. split; auto. split.
  - now apply SubBoard_digits with (G := G).
  - apply isBoardValid_true. now apply SubBoard_NoConflict with (G := G).
Qed.

(** C10: every puzzle returned by [generateSudokuPuzzle],
    [generateSymmetricPuzzle] or [generateBalancedPuzzle] is a valid grid:
    each filled cell holds a digit 1..9 and [isBoardValid] is true. *)
Theorem generated_puzzles_valid (d : Difficulty) (g : Rng) :
  (exists p g', generateSudokuPuzzle d g = Some (p, g') /\
                (cellsAreDigits p = true /\ isBoardValid p = true)) /\
  (exists p g', generateSymmetricPuzzle d g = Some (p, g') /\
                (cellsAreDigits p = true /\ isBoardValid p = true)) /\
  (exists p g', generateBalancedPuzzle d g = Some (p, g') /\
                (cellsAreDigits p = true /\ isBoardValid p = true)).
Proof.
  split; [apply generateSudokuPuzzle_valid|]. split.
  - unfold generateSymmetricPuzzle.
    destruct (generateCompleteSudoku_spec g) as [G [g1 [E [Hwf [Hfi Hnc]]]]].
    rewrite E.
    destruct (symmetricRemoval_spec G d g1 Hwf (Fills_Full Hfi))
      as [Hw [Hs _]].
    destruct (symmetricRemoval G d g1) as [p g']. cbn [fst] in *.
    exists p, g'. split; auto. split.
    + now apply SubBoard_digits with (G := G).
    + apply isBoardValid_true. now apply SubBoard_NoConflict with (G := G).
  - unfold generateBalancedPuzzle.
    apply (balancedLoop_inv
             (fun p => cellsAreDigits p = true /\ isBoardValid p = true)).
    apply generateSudokuPuzzle_valid.
Qed.

(** *** Round trip *)

Lemma puzzle_roundtrip (G p : Board) :
  wf G -> Fills emptyBoard G -> NoConflict G -> wf p -> SubBoard p G ->
  SolvesBackTo G p.
Proof.
  intros Hwf Hfi Hnc Hwp Hs.
  pose proof (SubBoard_Completion p G Hwf Hs Hfi Hnc) as HG.
  pose proof (SubBoard_NoConflict p G Hs Hnc) as Hncp.
  destruct (solveSudoku_valid p Hwp Hncp) as [ok [solved [E [Ht Hf]]]].
  destruct ok.
  - exists solved. split; auto. specialize (Ht eq_refl). split.
    + apply isBoardValid_true. apply Ht.
    + intros Hu.
      destruct (@hasUniqueSolution_spec p Hwp Hncp) as [u [Eu Hone]].
      rewrite Eu in Hu. inversion Hu; subst u.
      destruct (proj1 Hone eq_refl) as [s [_ Huniq]].
      rewrite (Huniq solved Ht), (Huniq G HG). reflexivity.
  - exfalso. destruct (Hf eq_refl) as [_ Hnone]. exact (Hnone G HG).
Qed.

(** C3: let [G] be the complete grid from which [generateSudokuPuzzle] and
    [generateSymmetricPuzzle] make their puzzles.  [solveSudoku] on either
    puzzle returns true with a board that [isBoardValid] accepts, and when
    [hasUniqueSolution] holds of the puzzle that board is [G]. *)
Theorem generated_puzzle_roundtrip (d : Difficulty) (g : Rng) :
  exists G g1,
    generateCompleteSudoku g = Some (G, g1) /\
    generateSudokuPuzzle d g = Some (removeCellsImproved G d g1) /\
    generateSymmetricPuzzle d g = Some (symmetricRemoval G d g1) /\
    SolvesBackTo G (fst (removeCellsImproved G d g1)) /\
    SolvesBackTo G (fst (symmetricRemoval G d g1)).
Proof.
  destruct (generateCompleteSudoku_spec g) as [G [g1 [E [Hwf [Hfi Hnc]]]]].
  exists G, g1. split; auto.
  unfold generateSudokuPuzzle, generateSymmetricPuzzle. rewrite E.
  split; auto. split; auto.
  destruct (removeCellsImproved_sub G d g1 Hwf) as [Hw1 Hs1].
  destruct (symmetricRemoval_spec G d g1 Hwf (Fills_Full Hfi)) as [Hw2 [Hs2 _]].
  split; now apply puzzle_roundtrip.
Qed.

Lemma Some_inj {A : Type} (x y : A) : Some x = Some y -> x = y.
Proof. intros H. now injection H. Qed.

(** For the run [sampleRandom] and level Easy both puzzles have a unique
    solution, and solving them gives the complete grid back. *)
Lemma generated_puzzle_roundtrip_witness :
  exists G g1,
    generateCompleteSudoku sampleRandom = Some (G, g1) /\
    (hasUniqueSolution (fst (removeCellsImproved G EASY g1)) = Some true /\
     solveSudoku (fst (removeCellsImproved G EASY g1)) = Some (true, G)) /\
    (hasUniqueSolution (fst (symmetricRemoval G EASY g1)) = Some true /\
     solveSudoku (fst (symmetricRemoval G EASY g1)) = Some (true, G)).
Proof.
  destruct (generated_puzzle_roundtrip EASY sampleRandom)
    as [G [g1 [E [_ [_ [[s1 [E1 [_ H1]]] [s2 [E2 [_ H2]]]]]]]]].
  assert (option_map
            (fun r => (hasUniqueSolution (fst (removeCellsImproved (fst r) EASY (snd r))),
                       hasUniqueSolution (fst (symmetricRemoval (fst r) EASY (snd r)))))
            (generateCompleteSudoku sampleRandom)
          = Some (Some true, Some true)) as Hu by (vm_compute; reflexivity).
  rewrite E in Hu. cbn [option_map fst snd] in Hu.
  apply Some_inj, pair_equal_spec in Hu. destruct Hu as [Hu1 Hu2].
  exists G, g1. split; [exact E|]. split; split; auto.
  - rewrite E1, (H1 Hu1). reflexivity.
  - rewrite E2, (H2 Hu2). reflexivity.
Defined.

(** *** Hints *)

Lemma find_ext_in {A : Type} (f h : A -> bool) (l : list A) :
  (forall x, In x l -> f x = h x) -> find f l = find h l.
Proof.
  induction l as [|a t IH]; intros H; simpl; auto.
  rewrite (H a (or_introl eq_refl)). destruct (h a); auto.
  apply IH. intros x Hx. apply H. now right.
Qed.

(** On a board without conflicts [getNextHint] returns [null] when there is
    no completion, and otherwise the first empty cell with the digit that the
    solved copy holds there; the board itself is left as it is. *)
Lemma getNextHint_valid (b : Board) :
  wf b -> NoConflict b ->
  (NoneOf (Completion b) -> getNextHint b = (Some None, b)) /\
  (forall r c,
     (exists s, Completion b s) -> firstEmpty b = Some (r, c) ->
     exists solved v,
       solveSudoku b = Some (true, solved) /\
       getCell solved r c = Some v /\
       getNextHint b = (Some (Some (mkHint r c v)), b)).
Proof.
  intros Hwf Hnc. unfold getNextHint. rewrite map_id_eq.
  destruct (solveSudoku_valid b Hwf Hnc) as [ok [solved [E [Ht Hf]]]].
  rewrite E. destruct ok.
  - specialize (Ht eq_refl). split.
    + intros Hnone. exfalso. exact (Hnone solved Ht).
    + intros r c _ Hfe.
      destruct Ht as [Hws [Hfi Hncs]].
      pose proof (Fills_Full Hfi) as Hfull.
      rewrite (@find_ext_in _ _ (fun p => isNull (getCell b (fst p) (snd p)))).
      * fold (firstEmpty b). rewrite Hfe.
        destruct (firstEmpty_Some _ Hfe) as [Hr [Hc _]].
        destruct (getCell solved r c) as [v|] eqn:Ev.
        -- exists solved, v. auto.
        -- exfalso. now apply (Hfull r c).
      * intros [r' c'] Hin. apply in_allPositions in Hin.
        cbn [fst snd]. destruct (getCell solved r' c') eqn:Ev.
        -- cbn [isNull negb]. now rewrite andb_true_r.
        -- exfalso. apply (Hfull r' c'); tauto.
  - destruct (Hf eq_refl) as [_ Hnone]. split; auto.
    intros r c [s Hs]. exfalso. exact (Hnone s Hs).
Qed.

(** On a board without conflicts [isSolvable] decides whether a completion
    exists. *)
Lemma isSolvable_valid (b : Board) :
  wf b -> NoConflict b ->
  exists ok, isSolvable b = Some ok /\
             (ok = true <-> exists s, Completion b s).
Proof.
  intros Hwf Hnc. unfold isSolvable. rewrite map_id_eq.
  destruct (solveSudoku_valid b Hwf Hnc) as [ok [solved [E [Ht Hf]]]].
  rewrite E. exists ok. split; [reflexivity|]. split.
  - intros Hok. exists solved. now apply Ht.
  - intros [s Hs]. destruct ok; [reflexivity|].
    exfalso. destruct (Hf eq_refl) as [_ Hnone]. exact (Hnone s Hs).
Qed.

(** The empty board has more than one completion, so [hasUniqueSolution]
    is false for it. *)
Lemma hasUniqueSolution_emptyBoard : hasUniqueSolution emptyBoard = Some false.
Proof.
  assert (NoConflict emptyBoard) as Hnc.
  { intros r c r' c' v _ _ _ _ _ _ H.
    rewrite getCell_emptyBoard in H. discriminate. }
  destruct (@hasUniqueSolution_spec emptyBoard wf_emptyBoard Hnc)
    as [u [E Hone]].
  rewrite E. destruct u; [exfalso|reflexivity].
  destruct (proj1 Hone eq_refl) as [s [_ Huniq]].
  pose proof (Huniq _ knownSolution_Completion) as H1.
  pose proof (Huniq _ otherSolution_Completion) as H2.
  rewrite <- H2 in H1. discriminate H1.
Qed.

(** ** Boards with a conflict among the given cells *)

Lemma conflictBoard_no_completion : NoneOf (Completion conflictBoard).
Proof.
  intros s [_ [Hf Hnc]].
  pose proof (Hf 0 0 ltac:(lia) ltac:(lia)) as H00.
  pose proof (Hf 0 1 ltac:(lia) ltac:(lia)) as H01.
  change (getCell conflictBoard 0 0) with (Some 1%Z) in H00.
  change (getCell conflictBoard 0 1) with (Some 1%Z) in H01.
  apply (Hnc 0 0 0 1 1%Z); try lia; auto.
  - discriminate.
  - left. reflexivity.
Qed.

(** C1 (failing input): on [conflictBoard], where [isBoardValid] is false and
    which has no completion, [solveSudoku] fills the empty cell and returns
    true, and the board it leaves is not a solution. *)
Theorem solveSudoku_true_on_conflict :
  isBoardValid conflictBoard = false /\
  NoneOf (Completion conflictBoard) /\
  exists b',
    solveSudoku conflictBoard = Some (true, b') /\
    getCell b' 8 8 = Some 2%Z /\
    isBoardSolved b' = false.
Proof.
  split; [vm_compute; reflexivity|].
  split; [apply conflictBoard_no_completion|].
  eexists. split; [vm_compute; reflexivity|].
  split; vm_compute; reflexivity.
Qed.

(** C5 (failing input): [hasUniqueSolution] returns true on [conflictBoard],
    which has no completion at all. *)
Theorem hasUniqueSolution_true_on_conflict :
  hasUniqueSolution conflictBoard = Some true /\
  NoneOf (Completion conflictBoard).
Proof.
  split; [vm_compute; reflexivity|apply conflictBoard_no_completion].
Qed.

(** C8 (failing input): [conflictBoard] is unsolvable ([isBoardValid] is
    false and it has no completion), and [getNextHint] returns the hint
    (8, 8, 2) for it instead of [null]. *)
Theorem getNextHint_on_conflict :
  isBoardValid conflictBoard = false /\
  NoneOf (Completion conflictBoard) /\
  getNextHint conflictBoard = (Some (Some (mkHint 8 8 2)), conflictBoard).
Proof.
  split; [vm_compute; reflexivity|].
  split; [apply conflictBoard_no_completion|vm_compute; reflexivity].
Qed.

(** C6 (failing input): at level Medium the per-box minimum is 2 clues, and
    for the run [centreFirstRandom] of [Math.random] the puzzle returned by
    [generateSymmetricPuzzle] keeps a single clue in the centre box: eight of
    its cells are removed, one more than the cap of 7. *)
Theorem generateSymmetricPuzzle_centre_box :
  fst (getBoxConstraints MEDIUM) = 2 /\
  exists p g',
    generateSymmetricPuzzle MEDIUM centreFirstRandom = Some (p, g') /\
    countFilledInBox p 1 1 = 1.
Proof.
  split; [reflexivity|].
  assert (option_map (fun r => countFilledInBox (fst r) 1 1)
                     (generateSymmetricPuzzle MEDIUM centreFirstRandom)
          = Some 1) as H by (vm_compute; reflexivity).
  destruct (generateSymmetricPuzzle MEDIUM centreFirstRandom) as [[p g']|];
    [|discriminate].
  exists p, g'. split; [reflexivity|].
  cbn [option_map fst] in H. now injection H.
Qed.

(** * Further properties of the code *)

Lemma wf_conflictBoard : wf conflictBoard.
Proof.
  split; [reflexivity|].
  intros r Hr. do 9 (destruct r as [|r]; [reflexivity|]). lia.
Qed.

(** ** sudokuValidator.ts *)

(** X1: for a cell of a 9x9 board, [isValidMove] is true exactly when no other
    cell of the same row, column or box holds [num]; what the cell itself
    holds does not matter. *)
Theorem isValidMove_iff_no_peer (b : Board) (r c : nat) (n : Z) :
  wf b -> r < 9 -> c < 9 ->
  (isValidMove b r c n = true <->
   forall r' c', Peers r c r' c' -> getCell b r' c' <> Some n).
Proof.
  intros _ Hr Hc. rewrite (isValidMove_true b n Hr Hc). unfold Peers. split.
  - intros H r' c' [_ [_ [Hr' [Hc' [Hne Hg]]]]]. now apply H.
  - intros H r' c' Hr' Hc' Hne Hg. apply H. tauto.
Qed.

Lemma isValidMove_iff_no_peer_witness :
  wf conflictBoard /\ 0 < 9 /\ 1 < 9 /\
  (isValidMove conflictBoard 0 1 1 = true <->
   forall r' c', Peers 0 1 r' c' -> getCell conflictBoard r' c' <> Some 1%Z).
Proof.
  split; [exact wf_conflictBoard|]. split; [lia|]. split; [lia|].
  apply (isValidMove_iff_no_peer conflictBoard 0 1 1 wf_conflictBoard); lia.
Defined.

Lemma In_findConflicts (b : Board) (r c r' c' : nat) :
  r < 9 -> c < 9 ->
  (In (r', c') (findConflicts b r c) <->
   Peers r c r' c' /\
   exists v, getCell b r c = Some v /\ getCell b r' c' = Some v).
Proof.
  intros Hr Hc. unfold findConflicts, Peers.
  destruct (getCell b r c) as [v|] eqn:Ev.
  2:{ split; [intros []|]. intros [_ [v [Hv _]]]. discriminate. }
  cbv zeta. rewrite !in_app_iff, !in_map_iff. split.
  - intros [[x [Heq Hin]]|[[x [Heq Hin]]|Hin]].
    + apply pair_equal_spec in Heq. destruct Heq as [<- <-].
      apply filter_In in Hin. destruct Hin as [Hx Hf].
      apply in_seq in Hx. apply andb_true_iff in Hf. destruct Hf as [Hne Hv].
      apply negb_true_iff, Nat.eqb_neq in Hne. apply cellIs_true in Hv.
      split; [|exists v; auto].
      repeat split; try lia; [congruence|left; reflexivity].
    + apply pair_equal_spec in Heq. destruct Heq as [<- <-].
      apply filter_In in Hin. destruct Hin as [Hx Hf].
      apply in_seq in Hx. apply andb_true_iff in Hf. destruct Hf as [Hne Hv].
      apply negb_true_iff, Nat.eqb_neq in Hne. apply cellIs_true in Hv.
      split; [|exists v; auto].
      repeat split; try lia; [congruence|right; left; reflexivity].
    + apply in_flat_map in Hin. destruct Hin as [i [Hi Hin]].
      apply in_flat_map in Hin. destruct Hin as [j [Hj Hin]].
      apply in_seq in Hi. apply in_seq in Hj.
      destruct ((r - r mod 3 + i =? r) && (c - c mod 3 + j =? c)) eqn:Eself;
        [destruct Hin|].
      destruct (cellIs (getCell b (r - r mod 3 + i) (c - c mod 3 + j)) v)
        eqn:Ecell; [|destruct Hin].
      destruct Hin as [Heq|[]].
      apply pair_equal_spec in Heq. destruct Heq as [Hr' Hc'].
      apply cellIs_true in Ecell. rewrite Hr', Hc' in Ecell, Eself.
      split; [|exists v; auto].
      split; [assumption|]. split; [assumption|].
      split; [rewrite <- Hr'; apply box_offset_lt; lia|].
      split; [rewrite <- Hc'; apply box_offset_lt; lia|].
      split.
      * intros Heq. apply pair_equal_spec in Heq. destruct Heq as [-> ->].
        rewrite !Nat.eqb_refl in Eself. discriminate.
      * right; right. rewrite <- Hr', <- Hc', !box_of_offset by lia. auto.
  - intros [[_ [_ [Hr' [Hc' [Hne Hg]]]]] [w [Hw Hv']]].
    inversion Hw; subst w.
    destruct Hg as [<-|[<-|[Hbr Hbc]]].
    + left. exists c'. split; auto. apply filter_In. split.
      * apply in_seq. lia.
      * apply andb_true_iff. split.
        -- apply negb_true_iff, Nat.eqb_neq. congruence.
        -- now apply cellIs_true.
    + right; left. exists r'. split; auto. apply filter_In. split.
      * apply in_seq. lia.
      * apply andb_true_iff. split.
        -- apply negb_true_iff, Nat.eqb_neq. congruence.
        -- now apply cellIs_true.
    + right; right.
      destruct (box_offset r r' Hbr) as [i [Hi Hri]].
      destruct (box_offset c c' Hbc) as [j [Hj Hcj]].
      apply in_flat_map. exists i. split; [apply in_seq; lia|].
      apply in_flat_map. exists j. split; [apply in_seq; lia|].
      rewrite Hri, Hcj.
      destruct ((r' =? r) && (c' =? c)) eqn:Eself.
      * apply andb_true_iff in Eself. destruct Eself as [E1 E2].
        apply Nat.eqb_eq in E1, E2. congruence.
      * rewrite (proj2 (cellIs_true _ _) Hv'). now left.
Qed.

(** X2: the list returned by [findConflicts] for a cell of a 9x9 board holds
    exactly the other cells of its row, column and box that hold the same
    value; for an empty cell it is empty. *)
Theorem findConflicts_members (b : Board) (r c r' c' : nat) :
  wf b -> r < 9 -> c < 9 ->
  (In (r', c') (findConflicts b r c) <->
   Peers r c r' c' /\
   exists v, getCell b r c = Some v /\ getCell b r' c' = Some v).
Proof. intros _. apply In_findConflicts. Qed.

Lemma findConflicts_members_witness :
  wf conflictBoard /\ 0 < 9 /\ 0 < 9 /\
  (In (0, 1) (findConflicts conflictBoard 0 0) <->
   Peers 0 0 0 1 /\
   exists v, getCell conflictBoard 0 0 = Some v /\
             getCell conflictBoard 0 1 = Some v).
Proof.
  split; [exact wf_conflictBoard|]. split; [lia|]. split; [lia|].
  apply (findConflicts_members conflictBoard 0 0 0 1 wf_conflictBoard); lia.
Defined.

Lemma Peers_sym (r c r' c' : nat) : Peers r c r' c' -> Peers r' c' r c.
Proof.
  unfold Peers. intros [H1 [H2 [H3 [H4 [H5 H6]]]]].
  repeat split; auto. now apply sameGroup_sym.
Qed.

(** X3: conflict detection is symmetric: on a 9x9 board a cell lists another
    cell as a conflict exactly when that cell lists it. *)
Theorem findConflicts_symmetric (b : Board) (r c r' c' : nat) :
  wf b -> r < 9 -> c < 9 -> r' < 9 -> c' < 9 ->
  (In (r', c') (findConflicts b r c) <-> In (r, c) (findConflicts b r' c')).
Proof.
  intros _ Hr Hc Hr' Hc'. rewrite !In_findConflicts by assumption.
  split; intros [Hp [v [H1 H2]]]; (split; [now apply Peers_sym|]);
    exists v; auto.
Qed.

Lemma findConflicts_symmetric_witness :
  wf conflictBoard /\ 0 < 9 /\ 0 < 9 /\ 0 < 9 /\ 1 < 9 /\
  (In (0, 1) (findConflicts conflictBoard 0 0) <->
   In (0, 0) (findConflicts conflictBoard 0 1)).
Proof.
  split; [exact wf_conflictBoard|].
  split; [lia|]. split; [lia|]. split; [lia|]. split; [lia|].
  apply (findConflicts_symmetric conflictBoard 0 0 0 1 wf_conflictBoard); lia.
Defined.

(** X4: a filled cell of a 9x9 board has an empty conflict list exactly when
    its own value is a valid move at its position. *)
Theorem findConflicts_empty_iff_valid (b : Board) (r c : nat) (v : Z) :
  wf b -> getCell b r c = Some v ->
  (findConflicts b r c = [] <-> isValidMove b r c v = true).
Proof. intros _. apply findConflicts_nil. Qed.

Lemma findConflicts_empty_iff_valid_witness :
  wf knownSolution /\ getCell knownSolution 4 4 = Some 9%Z /\
  (findConflicts knownSolution 4 4 = [] <->
   isValidMove knownSolution 4 4 9 = true).
Proof.
  split; [exact wf_knownSolution|]. split; [reflexivity|].
  apply (findConflicts_empty_iff_valid knownSolution 4 4 9 wf_knownSolution).
  reflexivity.
Defined.

(** X5: on a 9x9 board [isBoardValid] is true exactly when no two distinct
    cells of a row, a column or a box hold the same value. *)
Theorem isBoardValid_iff_no_duplicate (b : Board) :
  wf b ->
  (isBoardValid b = true <->
   forall r c r' c' v,
     Peers r c r' c' -> getCell b r c = Some v -> getCell b r' c' <> Some v).
Proof.
  intros _. rewrite isBoardValid_true. unfold NoConflict, Peers. split.
  - intros H r c r' c' v [H1 [H2 [H3 [H4 [H5 H6]]]]]. now apply H.
  - intros H r c r' c' v H1 H2 H3 H4 H5 H6. apply H. tauto.
Qed.

Lemma isBoardValid_iff_no_duplicate_witness :
  wf conflictBoard /\
  (isBoardValid conflictBoard = true <->
   forall r c r' c' v,
     Peers r c r' c' -> getCell conflictBoard r c = Some v ->
     getCell conflictBoard r' c' <> Some v).
Proof.
  split; [exact wf_conflictBoard|].
  apply (isBoardValid_iff_no_duplicate conflictBoard wf_conflictBoard).
Defined.

(** X6: on a board that [isBoardValid] accepts, a move is valid exactly when
    the board with that move made is still accepted. *)
Theorem isValidMove_iff_still_valid (b : Board) (r c : nat) (n : Z) :
  wf b -> r < 9 -> c < 9 -> isBoardValid b = true ->
  (isValidMove b r c n = true <->
   isBoardValid (setCell b r c (Some n)) = true).
Proof.
  intros Hwf Hr Hc Hv. apply isBoardValid_true in Hv.
  rewrite isBoardValid_true. split.
  - intros Hm. now apply NoConflict_setCell.
  - intros Hnc. apply isValidMove_true; auto.
    intros r' c' Hr' Hc' Hne Hg Hn.
    apply (Hnc r c r' c' n); auto.
    + now apply getCell_setCell_eq.
    + now rewrite getCell_setCell_neq.
Qed.

Lemma isValidMove_iff_still_valid_witness :
  wf emptyBoard /\ 3 < 9 /\ 5 < 9 /\ isBoardValid emptyBoard = true /\
  (isValidMove emptyBoard 3 5 7 = true <->
   isBoardValid (setCell emptyBoard 3 5 (Some 7%Z)) = true).
Proof.
  assert (wf emptyBoard) as Hwf.
  { split; [reflexivity|].
    intros r Hr. do 9 (destruct r as [|r]; [reflexivity|]). lia. }
  split; [exact Hwf|]. split; [lia|]. split; [lia|].
  split; [reflexivity|].
  apply (isValidMove_iff_still_valid emptyBoard 3 5 7 Hwf);
    [lia|lia|reflexivity].
Defined.

(** *** The conflict map *)

Lemma nodupS_NoDup (l : list String.string) : nodupS l = true -> NoDup l.
Proof.
  induction l as [|k t IH]; intros H.
  - constructor.
  - simpl in H. apply andb_true_iff in H. destruct H as [H1 H2].
    constructor; auto. intros Hin. apply negb_true_iff in H1.
    assert (existsb (String.eqb k) t = true) as Ht.
    { apply existsb_exists. exists k. split; auto. apply String.eqb_refl. }
    congruence.
Qed.

Lemma conflictKey_NoDup :
  NoDup (map (fun p => conflictKey (fst p) (snd p)) allPositions).
Proof. apply nodupS_NoDup. vm_compute. reflexivity. Qed.

Lemma mapHas_false {V : Type} (k : String.string) (m : StringMap V) :
  ~ In k (map fst m) -> mapHas k m = false.
Proof.
  intros H. unfold mapHas. apply existsb_false_forall.
  intros [k' v] Hin. simpl. destruct (String.eqb_spec k' k) as [->|]; auto.
  exfalso. apply H. apply in_map_iff. exists (k, v). auto.
Qed.

Lemma mapSet_fresh {V : Type} (k : String.string) (v : V) (m : StringMap V) :
  ~ In k (map fst m) -> mapSet k v m = m ++ [(k, v)].
Proof.
  induction m as [|[k' w] t IH]; intros H; simpl; auto.
  destruct (String.eqb_spec k' k) as [->|Hne].
  - exfalso. apply H. now left.
  - rewrite IH; auto. intros Hin. apply H. now right.
Qed.

Lemma findAllConflicts_fold (b : Board) (l : list (nat * nat)) :
  forall acc : StringMap (list (nat * nat)),
    NoDup (map fst acc ++ map (fun p => conflictKey (fst p) (snd p)) l) ->
    fold_left (fun allConflicts p =>
        match getCell b (fst p) (snd p) with
        | None => allConflicts
        | Some _ =>
          let conflicts := findConflicts b (fst p) (snd p) in
          if 0 <? length conflicts
          then mapSet (conflictKey (fst p) (snd p)) conflicts allConflicts
          else allConflicts
        end) l acc
    = acc ++ map (fun p => (conflictKey (fst p) (snd p),
                            findConflicts b (fst p) (snd p)))
                 (filter (conflicting b) l).
Proof.
  induction l as [|p l IH]; intros acc Hnd.
  - simpl. now rewrite app_nil_r.
  - cbn [fold_left filter].
    replace (conflicting b p)
      with (match getCell b (fst p) (snd p) with
            | None => false
            | Some _ => 0 <? length (findConflicts b (fst p) (snd p))
            end) by reflexivity.
    assert (NoDup (map fst acc ++ map (fun p => conflictKey (fst p) (snd p)) l))
      as Hnd'.
    { cbn [map] in Hnd. now apply NoDup_remove_1 in Hnd. }
    assert (~ In (conflictKey (fst p) (snd p)) (map fst acc)) as Hfresh.
    { cbn [map] in Hnd. apply NoDup_remove_2 in Hnd.
      intros Hin. apply Hnd. apply in_or_app. now left. }
    destruct (getCell b (fst p) (snd p)) as [v|]; [|now apply IH].
    cbv zeta. destruct (0 <? length (findConflicts b (fst p) (snd p))).
    + rewrite mapSet_fresh by assumption. rewrite IH.
      * cbn [map]. now rewrite <- app_assoc.
      * rewrite map_app. cbn [map fst]. rewrite <- app_assoc. exact Hnd.
    + now apply IH.
Qed.

Lemma findAllConflicts_filter (b : Board) :
  findAllConflicts b =
  map (fun p => (conflictKey (fst p) (snd p), findConflicts b (fst p) (snd p)))
      (filter (conflicting b) allPositions).
Proof.
  unfold findAllConflicts. rewrite findAllConflicts_fold.
  - reflexivity.
  - apply conflictKey_NoDup.
Qed.

(** X7: on a 9x9 board the map built by [findAllConflicts] holds, in
    row-major order, one entry for each filled cell that has a conflict (and
    none for any other cell): its key and its list of conflicts. *)
Theorem findAllConflicts_entries (b : Board) :
  wf b ->
  findAllConflicts b =
  map (fun p => (conflictKey (fst p) (snd p), findConflicts b (fst p) (snd p)))
      (filter (conflicting b) allPositions).
Proof. intros _. exact (findAllConflicts_filter b). Qed.

Lemma findAllConflicts_entries_witness :
  wf conflictBoard /\
  findAllConflicts conflictBoard =
  map (fun p => (conflictKey (fst p) (snd p),
                 findConflicts conflictBoard (fst p) (snd p)))
      (filter (conflicting conflictBoard) allPositions).
Proof.
  split; [exact wf_conflictBoard|].
  apply (findAllConflicts_entries conflictBoard wf_conflictBoard).
Defined.

Lemma conflicting_true (b : Board) (r c : nat) :
  r < 9 -> c < 9 ->
  (conflicting b (r, c) = true <->
   exists v r' c', Peers r c r' c' /\
                   getCell b r c = Some v /\ getCell b r' c' = Some v).
Proof.
  intros Hr Hc. unfold conflicting. cbn [fst snd].
  destruct (getCell b r c) as [v|] eqn:Ev.
  - split.
    + intros H. apply Nat.ltb_lt in H.
      destruct (findConflicts b r c) as [|[r' c'] t] eqn:Ef;
        [simpl in H; lia|].
      assert (In (r', c') (findConflicts b r c)) as Hin
        by (rewrite Ef; now left).
      apply In_findConflicts in Hin; auto.
      destruct Hin as [Hp [w [Hw Hw']]]. rewrite Ev in Hw.
      inversion Hw; subst w. exists v, r', c'. auto.
    + intros [w [r' [c' [Hp [Hw Hw']]]]]. inversion Hw; subst w.
      assert (In (r', c') (findConflicts b r c)) as Hin.
      { apply In_findConflicts; auto. split; auto. exists v. auto. }
      apply Nat.ltb_lt. destruct (findConflicts b r c); [destruct Hin|].
      simpl. lia.
  - split; [discriminate|]. intros [v [_ [_ [_ [Hv _]]]]]. discriminate.
Qed.

(** X8: the key of a cell of a 9x9 board is in the map of [findAllConflicts]
    (the test of [isCellConflicting] after the effect has run) exactly when
    the cell is filled and another cell of its row, column or box holds the
    same value. *)
Theorem findAllConflicts_has (b : Board) (r c : nat) :
  wf b -> r < 9 -> c < 9 ->
  (mapHas (conflictKey r c) (findAllConflicts b) = true <->
   exists v r' c', Peers r c r' c' /\
                   getCell b r c = Some v /\ getCell b r' c' = Some v).
Proof.
  intros _ Hr Hc. rewrite <- conflicting_true by assumption.
  rewrite findAllConflicts_filter. unfold mapHas. rewrite existsb_exists.
  split.
  - intros [[k l] [Hin Hk]]. apply in_map_iff in Hin.
    destruct Hin as [[r' c'] [Heq Hf]]. apply filter_In in Hf.
    destruct Hf as [Hpos Hconf]. cbn [fst snd] in *.
    apply pair_equal_spec in Heq. destruct Heq as [Hkey _].
    apply String.eqb_eq in Hk. rewrite <- Hkey in Hk.
    assert ((r', c') = (r, c)) as Heq.
    { pose proof conflictKey_NoDup as Hnd.
      assert (In (r, c) allPositions) as Hin by (apply in_allPositions; auto).
      destruct (pos_eq_dec (r', c') (r, c)) as [E|N]; auto. exfalso.
      apply in_split in Hpos. destruct Hpos as [l1 [l2 Hsplit]].
      rewrite Hsplit in Hnd, Hin. rewrite map_app in Hnd. cbn [map] in Hnd.
      apply NoDup_remove_2 in Hnd. apply Hnd. cbn [fst snd]. rewrite Hk.
      apply in_app_or in Hin. apply in_or_app.
      destruct Hin as [Hin|[Hin|Hin]]; [left|congruence|right];
        apply in_map_iff; exists (r, c); auto. }
    apply pair_equal_spec in Heq. destruct Heq as [-> ->]. exact Hconf.
  - intros Hconf. exists (conflictKey r c, findConflicts b r c). split.
    + apply in_map_iff. exists (r, c). split; auto.
      apply filter_In. split; auto. apply in_allPositions. auto.
    + apply String.eqb_refl.
Qed.

Lemma findAllConflicts_has_witness :
  wf conflictBoard /\ 0 < 9 /\ 1 < 9 /\
  (mapHas (conflictKey 0 1) (findAllConflicts conflictBoard) = true <->
   exists v r' c', Peers 0 1 r' c' /\
                   getCell conflictBoard 0 1 = Some v /\
                   getCell conflictBoard r' c' = Some v).
Proof.
  split; [exact wf_conflictBoard|]. split; [lia|]. split; [lia|].
  apply (findAllConflicts_has conflictBoard 0 1 wf_conflictBoard); lia.
Defined.

(** X9: on a 9x9 board the map of [findAllConflicts] is empty exactly when
    [isBoardValid] is true. *)
Theorem findAllConflicts_empty_iff_valid (b : Board) :
  wf b -> (mapSize (findAllConflicts b) = 0 <-> isBoardValid b = true).
Proof.
  intros _. rewrite findAllConflicts_filter. unfold mapSize. rewrite length_map.
  unfold isBoardValid. rewrite forallb_forall. split.
  - intros H p Hin.
    assert (conflicting b p = false) as Hc.
    { destruct (conflicting b p) eqn:E; auto.
      assert (In p (filter (conflicting b) allPositions)) as Hf
        by (apply filter_In; auto).
      destruct (filter (conflicting b) allPositions); [destruct Hf|].
      discriminate. }
    unfold conflicting in Hc. destruct (getCell b (fst p) (snd p)); auto.
    now rewrite Hc.
  - intros H.
    destruct (filter (conflicting b) allPositions) as [|p t] eqn:E; auto.
    assert (In p (filter (conflicting b) allPositions)) as Hf
      by (rewrite E; now left).
    apply filter_In in Hf. destruct Hf as [Hin Hc].
    specialize (H p Hin). unfold conflicting in Hc.
    destruct (getCell b (fst p) (snd p)); [|discriminate].
    rewrite Hc in H. discriminate.
Qed.

Lemma findAllConflicts_empty_iff_valid_witness :
  wf knownSolution /\
  (mapSize (findAllConflicts knownSolution) = 0 <->
   isBoardValid knownSolution = true).
Proof.
  split; [exact wf_knownSolution|].
  apply (findAllConflicts_empty_iff_valid knownSolution wf_knownSolution).
Defined.

(** *** Candidates *)

Lemma In_getAvailableNumbers (b : Board) (r c : nat) (d : Z) :
  In d (getAvailableNumbers b r c) <->
  getCell b r c = None /\ In d digits /\ isValidMove b r c d = true.
Proof.
  unfold getAvailableNumbers. destruct (getCell b r c) as [v|].
  - split; [intros []|]. intros [H _]. discriminate.
  - rewrite filter_In. tauto.
Qed.

(** X10: on a 9x9 board [getAvailableNumbers] returns the empty list for a
    filled cell, and for an empty cell the digits 1..9 that no other cell of
    its row, column or box holds. *)
Theorem getAvailableNumbers_members (b : Board) (r c : nat) (d : Z) :
  wf b -> r < 9 -> c < 9 ->
  (getCell b r c <> None -> getAvailableNumbers b r c = []) /\
  (In d (getAvailableNumbers b r c) <->
   getCell b r c = None /\ (1 <= d <= 9)%Z /\
   forall r' c', Peers r c r' c' -> getCell b r' c' <> Some d).
Proof.
  intros _ Hr Hc. split.
  - intros H. unfold getAvailableNumbers.
    destruct (getCell b r c); [reflexivity|congruence].
  - rewrite In_getAvailableNumbers, in_digits.
    rewrite (isValidMove_true b d Hr Hc). unfold Peers.
    split; intros [H1 [H2 H3]]; repeat split; try tauto.
    + intros r' c' [_ [_ [Hr' [Hc' [Hne Hg]]]]]. now apply H3.
    + intros r' c' Hr' Hc' Hne Hg. apply H3. tauto.
Qed.

Lemma getAvailableNumbers_members_witness :
  wf conflictBoard /\ 8 < 9 /\ 8 < 9 /\
  (getCell conflictBoard 8 8 <> None ->
   getAvailableNumbers conflictBoard 8 8 = []) /\
  (In 2%Z (getAvailableNumbers conflictBoard 8 8) <->
   getCell conflictBoard 8 8 = None /\ (1 <= 2 <= 9)%Z /\
   forall r' c', Peers 8 8 r' c' -> getCell conflictBoard r' c' <> Some 2%Z).
Proof.
  split; [exact wf_conflictBoard|]. split; [lia|]. split; [lia|].
  apply (getAvailableNumbers_members conflictBoard 8 8 2 wf_conflictBoard);
    lia.
Defined.

(** X11: the candidates never miss a solution: at an empty cell of a 9x9 board,
    the digit that a completion of the board holds there is in the list of
    [getAvailableNumbers].  Hence a board with an empty cell without
    candidates has no completion, and a single candidate is the digit of
    every completion. *)
Theorem getAvailableNumbers_complete (b s : Board) (r c : nat) :
  wf b -> r < 9 -> c < 9 -> getCell b r c = None -> Completion b s ->
  (exists d, getCell s r c = Some d /\ In d (getAvailableNumbers b r c)) /\
  getAvailableNumbers b r c <> [] /\
  (forall d, getAvailableNumbers b r c = [d] -> getCell s r c = Some d).
Proof.
  intros _ Hr Hc Hn Hs.
  destruct (Completion_digit Hr Hc Hn Hs) as [d [Hd Hsd]].
  assert (In d (getAvailableNumbers b r c)) as Hin.
  { apply In_getAvailableNumbers. split; auto. split; auto.
    now apply Completion_valid_move with (s := s). }
  split; [eauto|]. split.
  - intros E. rewrite E in Hin. destruct Hin.
  - intros d' E. rewrite E in Hin. destruct Hin as [<-|[]]. exact Hsd.
Qed.

Lemma getAvailableNumbers_complete_witness :
  wf emptyBoard /\ 0 < 9 /\ 0 < 9 /\ getCell emptyBoard 0 0 = None /\
  Completion emptyBoard knownSolution /\
  (exists d, getCell knownSolution 0 0 = Some d /\
             In d (getAvailableNumbers emptyBoard 0 0)) /\
  getAvailableNumbers emptyBoard 0 0 <> [] /\
  (forall d, getAvailableNumbers emptyBoard 0 0 = [d] ->
             getCell knownSolution 0 0 = Some d).
Proof.
  split; [exact wf_emptyBoard|].
  split; [lia|]. split; [lia|]. split; [reflexivity|].
  split; [exact knownSolution_Completion|].
  apply (getAvailableNumbers_complete emptyBoard knownSolution 0 0
           wf_emptyBoard);
    [lia|lia|reflexivity|exact knownSolution_Completion].
Defined.

(** ** sudokuSolver.ts *)

Lemma Filling_valid_move (b s : Board) (r c : nat) (d : Z) :
  r < 9 -> c < 9 -> getCell b r c = None -> getCell s r c = Some d ->
  Filling b s -> isValidMove b r c d = true.
Proof.
  intros Hr Hc Hn Hs [_ [Hf Hnew]]. apply isValidMove_true; auto.
  intros r' c' Hr' Hc' Hne Hg Hb.
  apply (Hnew r c r' c' d); auto.
  - unfold Peers. tauto.
  - apply (Fills_SubBoard Hf); auto.
Qed.

Lemma Filling_narrow (b s : Board) (r c : nat) (d : Z) :
  wf b -> r < 9 -> c < 9 -> getCell s r c = Some d ->
  Filling b s -> Filling (setCell b r c (Some d)) s.
Proof.
  intros Hwf Hr Hc Hs [Hws [Hf Hnew]]. split; auto. split.
  - now apply Fills_narrow.
  - intros r1 c1 r2 c2 v Hp Hn. apply Hnew; auto.
    destruct (pos_eq_dec (r, c) (r1, c1)) as [E|N].
    + apply pair_equal_spec in E. destruct E as [<- <-].
      rewrite getCell_setCell_eq in Hn by assumption. discriminate.
    + now rewrite getCell_setCell_neq in Hn.
Qed.

Lemma Filling_widen (b s : Board) (r c : nat) (n : Z) :
  wf b -> r < 9 -> c < 9 -> getCell b r c = None -> In n digits ->
  isValidMove b r c n = true ->
  Filling (setCell b r c (Some n)) s -> Filling b s.
Proof.
  intros Hwf Hr Hc Hn Hd Hv [Hws [Hf Hnew]].
  assert (Fills b s) as Hfb
    by (apply Fills_step with (r := r) (c := c) (n := n); auto).
  assert (getCell s r c = Some n) as Hsn.
  { specialize (Hf r c Hr Hc).
    now rewrite getCell_setCell_eq in Hf by assumption. }
  rewrite isValidMove_true in Hv by assumption.
  split; auto. split; auto.
  intros r1 c1 r2 c2 v Hp Hn1 Hs1 Hs2.
  destruct (pos_eq_dec (r, c) (r1, c1)) as [E|N].
  - apply pair_equal_spec in E. destruct E as [<- <-].
    rewrite Hsn in Hs1. inversion Hs1; subst v.
    destruct Hp as [_ [_ [Hr2 [Hc2 [Hne Hg]]]]].
    destruct (getCell b r2 c2) as [w|] eqn:Eb.
    + assert (getCell s r2 c2 = Some w) as Hw
        by (apply (Fills_SubBoard Hfb); assumption).
      rewrite Hw in Hs2. inversion Hs2; subst w.
      now apply (Hv r2 c2).
    + apply (Hnew r2 c2 r c n); auto.
      * apply Peers_sym. unfold Peers. tauto.
      * now rewrite getCell_setCell_neq.
  - apply (Hnew r1 c1 r2 c2 v); auto.
    now rewrite getCell_setCell_neq.
Qed.

Lemma Filling_self (b : Board) : wf b -> Full b -> Filling b b.
Proof.
  intros Hwf Hf. split; auto. split; [now apply Fills_self|].
  intros r c r' c' v [Hr [Hc _]] Hn. exfalso. now apply (Hf r c).
Qed.

Lemma solveSudoku_fuel_filling (fuel : nat) :
  forall b, wf b -> countEmpty b <= fuel ->
  exists ok b',
    solveSudoku_fuel fuel b = Some (ok, b') /\
    (ok = true -> Filling b b') /\
    (ok = false -> b' = b /\ forall s, ~ Filling b s).
Proof.
  induction fuel as [|fuel IH]; intros b Hwf Hfuel.
  - assert (firstEmpty b = None) as E by (apply countEmpty_zero; lia).
    simpl. rewrite E. exists true, b. split; auto. split; [|discriminate].
    intros _. apply Filling_self; auto. now apply firstEmpty_None.
  - simpl. destruct (firstEmpty b) as [[r c]|] eqn:E.
    + destruct (firstEmpty_Some _ E) as [Hr [Hc Hn]].
      assert (forall n, wf (setCell b r c (Some n)) /\
                        countEmpty (setCell b r c (Some n)) <= fuel) as Hsub.
      { intros n. split; [now apply wf_setCell|].
        pose proof (countEmpty_setCell n Hwf Hr Hc Hn). lia. }
      destruct (@tryNumbers_spec (solveSudoku_fuel fuel) r c b digits Hn)
        as [ok [b' [Et [Hf Ht]]]].
      { intros n _ _. destruct (Hsub n) as [Hw Hc'].
        destruct (IH _ Hw Hc') as [ok [b1 [E1 [_ Hf1]]]].
        exists ok, b1. split; auto. intros Hok. now apply Hf1. }
      exists ok, b'. split; auto. split.
      * intros Hok. destruct (Ht Hok) as [n [Hd [Hv En]]].
        destruct (Hsub n) as [Hw Hc'].
        destruct (IH _ Hw Hc') as [ok1 [b1 [E1 [Ht1 _]]]].
        rewrite En in E1. inversion E1; subst ok1 b1.
        apply Filling_widen with (r := r) (c := c) (n := n); auto.
      * intros Hok. destruct (Hf Hok) as [Hb' Hall]. split; auto.
        intros s Hs.
        assert (exists d, In d digits /\ getCell s r c = Some d)
          as [d [Hd Hsd]].
        { destruct Hs as [_ [Hfs _]]. specialize (Hfs r c Hr Hc).
          now rewrite Hn in Hfs. }
        pose proof (Filling_valid_move b s r c d Hr Hc Hn Hsd Hs) as Hv.
        specialize (Hall d Hd Hv).
        destruct (Hsub d) as [Hw Hc'].
        destruct (IH _ Hw Hc') as [ok1 [b1 [E1 [_ Hf1]]]].
        rewrite Hall in E1. inversion E1; subst ok1 b1.
        destruct (Hf1 eq_refl) as [_ Hno].
        apply (Hno s). now apply Filling_narrow.
    + exists true, b. split; auto. split; [|discriminate].
      intros _. apply Filling_self; auto. now apply firstEmpty_None.
Qed.

(** X12: on every 9x9 board [solveSudoku] returns.  It returns true exactly
    when the empty cells can be filled with digits 1..9 so that no digit
    that is filled in repeats in its row, column or box, and the board is
    then such a filling; duplicates among the cells given at the start play
    no part.  When it returns false the board is the input board. *)
Theorem solveSudoku_finds_filling (b : Board) :
  wf b ->
  exists ok b',
    solveSudoku b = Some (ok, b') /\
    (ok = true -> Filling b b') /\
    (ok = false -> b' = b /\ forall s, ~ Filling b s).
Proof.
  intros Hwf. apply solveSudoku_fuel_filling; auto. apply countEmpty_le.
Qed.

Lemma solveSudoku_finds_filling_witness :
  wf conflictBoard /\
  exists ok b',
    solveSudoku conflictBoard = Some (ok, b') /\
    (ok = true -> Filling conflictBoard b') /\
    (ok = false -> b' = conflictBoard /\ forall s, ~ Filling conflictBoard s).
Proof.
  assert (wf conflictBoard) as Hwf.
  { split; [reflexivity|].
    intros r Hr. do 9 (destruct r as [|r]; [reflexivity|]). lia. }
  split; [exact Hwf|].
  apply (solveSudoku_finds_filling conflictBoard Hwf).
Defined.

(** X13: on a 9x9 board that [isBoardValid] accepts, [solveSudoku] returns
    true exactly when the board has a completion (a full board without
    duplicate in any row, column or box that keeps the given cells), and the
    board it leaves is then a completion that [isBoardSolved] accepts. *)
Theorem solveSudoku_correct_on_valid (b : Board) :
  wf b -> isBoardValid b = true ->
  exists ok b',
    solveSudoku b = Some (ok, b') /\
    (ok = true <-> exists s, Completion b s) /\
    (ok = true -> Completion b b' /\ isBoardSolved b' = true).
Proof.
  intros Hwf Hv. apply isBoardValid_true in Hv.
  destruct (solveSudoku_valid b Hwf Hv) as [ok [b' [E [Ht Hf]]]].
  exists ok, b'. split; auto. split; [split|].
  - intros Hok. exists b'. now apply Ht.
  - intros [s Hs]. destruct ok; auto.
    exfalso. destruct (Hf eq_refl) as [_ Hnone]. exact (Hnone s Hs).
  - intros Hok. specialize (Ht Hok). split; auto.
    apply isBoardSolved_true. destruct Ht as [_ [Hfi Hnc]].
    split; auto. exact (Fills_Full Hfi).
Qed.

Lemma solveSudoku_correct_on_valid_witness :
  wf emptyBoard /\ isBoardValid emptyBoard = true /\
  exists ok b',
    solveSudoku emptyBoard = Some (ok, b') /\
    (ok = true <-> exists s, Completion emptyBoard s) /\
    (ok = true -> Completion emptyBoard b' /\ isBoardSolved b' = true).
Proof.
  assert (wf emptyBoard) as Hwf.
  { split; [reflexivity|].
    intros r Hr. do 9 (destruct r as [|r]; [reflexivity|]). lia. }
  split; [exact Hwf|]. split; [reflexivity|].
  apply (solveSudoku_correct_on_valid emptyBoard Hwf). reflexivity.
Defined.

(** X14: on every 9x9 board, [getNextHint] returns [null] when the board has
    no empty cell or when [solveSudoku] fails on the copy.  Otherwise it
    returns the first empty cell in row-major order with the digit that the
    solved copy holds there; that digit is in 1..9 and is a valid move on
    the board as it is. *)
Theorem getNextHint_result (b : Board) :
  wf b ->
  exists ok solved,
    solveSudoku b = Some (ok, solved) /\
    match firstEmpty b with
    | Some (r, c) =>
      if ok
      then exists v,
             fst (getNextHint b) = Some (Some (mkHint r c v)) /\
             getCell solved r c = Some v /\
             (1 <= v <= 9)%Z /\ isValidMove b r c v = true
      else fst (getNextHint b) = Some None
    | None => fst (getNextHint b) = Some None
    end.
Proof.
  intros Hwf.
  assert (exists ok solved,
            solveSudoku b = Some (ok, solved) /\
            (ok = true -> Filling b solved) /\
            (ok = false -> solved = b /\ forall s, ~ Filling b s))
    as [ok [solved [E [Ht Hf]]]]
    by (apply solveSudoku_fuel_filling; [exact Hwf|apply countEmpty_le]).
  exists ok, solved. split; auto.
  unfold getNextHint. rewrite map_id_eq, E.
  destruct ok.
  - pose proof (Ht eq_refl) as HF. destruct HF as [Hws [Hfi Hnew]].
    pose proof (Fills_Full Hfi) as Hfull.
    rewrite (@find_ext_in _ _ (fun p => isNull (getCell b (fst p) (snd p)))).
    + fold (firstEmpty b). destruct (firstEmpty b) as [[r c]|] eqn:Hfe.
      * destruct (firstEmpty_Some _ Hfe) as [Hr [Hc Hn]].
        pose proof (Hfi r c Hr Hc) as Hd. rewrite Hn in Hd.
        destruct Hd as [d [Hd Hsd]]. rewrite Hsd. exists d.
        split; [reflexivity|]. split; [reflexivity|].
        split; [now apply in_digits|].
        apply Filling_valid_move with (s := solved); auto.
      * reflexivity.
    + intros [r' c'] Hin. apply in_allPositions in Hin.
      cbn [fst snd]. destruct (getCell solved r' c') eqn:Ev.
      * cbn [isNull negb]. now rewrite andb_true_r.
      * exfalso. apply (Hfull r' c'); tauto.
  - destruct (firstEmpty b) as [[r c]|]; reflexivity.
Qed.

Lemma getNextHint_result_witness :
  wf conflictBoard /\
  exists ok solved,
    solveSudoku conflictBoard = Some (ok, solved) /\
    match firstEmpty conflictBoard with
    | Some (r, c) =>
      if ok
      then exists v,
             fst (getNextHint conflictBoard) = Some (Some (mkHint r c v)) /\
             getCell solved r c = Some v /\
             (1 <= v <= 9)%Z /\ isValidMove conflictBoard r c v = true
      else fst (getNextHint conflictBoard) = Some None
    | None => fst (getNextHint conflictBoard) = Some None
    end.
Proof.
  assert (wf conflictBoard) as Hwf.
  { split; [reflexivity|].
    intros r Hr. do 9 (destruct r as [|r]; [reflexivity|]). lia. }
  split; [exact Hwf|].
  apply (getNextHint_result conflictBoard Hwf).
Defined.

(** X15: on a 9x9 board that [isBoardValid] accepts, [isSolvable] is true
    exactly when the board has a completion. *)
Theorem isSolvable_correct_on_valid (b : Board) :
  wf b -> isBoardValid b = true ->
  exists ok, isSolvable b = Some ok /\
             (ok = true <-> exists s, Completion b s).
Proof.
  intros Hwf Hv. apply isBoardValid_true in Hv.
  now apply isSolvable_valid.
Qed.

Lemma isSolvable_correct_on_valid_witness :
  wf emptyBoard /\ isBoardValid emptyBoard = true /\
  exists ok, isSolvable emptyBoard = Some ok /\
             (ok = true <-> exists s, Completion emptyBoard s).
Proof.
  split.
  { split; [reflexivity|].
    intros r Hr. do 9 (destruct r as [|r]; [reflexivity|]). lia. }
  split; [reflexivity|].
  apply (isSolvable_correct_on_valid emptyBoard wf_emptyBoard). reflexivity.
Defined.

(** ** sudokuGenerator.ts: the uniqueness check *)

(** X16: on a 9x9 board that [isBoardValid] accepts, [hasUniqueSolution] is
    true exactly when the board has one completion and no other; it is false
    when there is none and when there are several. *)
Theorem hasUniqueSolution_correct_on_valid (b : Board) :
  wf b -> isBoardValid b = true ->
  exists u, hasUniqueSolution b = Some u /\
            (u = true <-> OneOf (Completion b)).
Proof.
  intros Hwf Hv. apply isBoardValid_true in Hv.
  now apply hasUniqueSolution_spec.
Qed.

Lemma hasUniqueSolution_correct_on_valid_witness :
  wf emptyBoard /\ isBoardValid emptyBoard = true /\
  exists u, hasUniqueSolution emptyBoard = Some u /\
            (u = true <-> OneOf (Completion emptyBoard)).
Proof.
  split; [exact wf_emptyBoard|]. split; [reflexivity|].
  apply (hasUniqueSolution_correct_on_valid emptyBoard wf_emptyBoard).
  reflexivity.
Defined.

(** ** sudokuGenerator.ts *)

(** X17: [shuffleArray] returns a permutation of its argument, whatever
    [Math.random] gives: the same elements with the same multiplicities, hence
    an array of the same length. *)
Theorem shuffleArray_is_permutation {A : Type} (a : list A) (g : Rng) :
  Permutation (fst (shuffleArray a g)) a /\
  length (fst (shuffleArray a g)) = length a.
Proof.
  split.
  - apply shuffleArray_Permutation.
  - apply Permutation_length, shuffleArray_Permutation.
Qed.

Lemma shuffleFrom_draws {A : Type} (i : nat) :
  forall (a : list A) (g : Rng),
    snd (shuffleFrom i a g) = mkRng (stream g) (cursor g + i).
Proof.
  induction i as [|i IH]; intros a g.
  - simpl. destruct g as [s c]. simpl. now rewrite Nat.add_0_r.
  - cbn [shuffleFrom]. unfold randomBelow. rewrite IH. cbn [stream cursor].
    f_equal. lia.
Qed.

(** X18: a call of [shuffleArray] on an array of length n draws exactly n - 1
    random numbers (none for an empty or a one-element array, which is
    returned as it is). *)
Theorem shuffleArray_draws {A : Type} (a : list A) (g : Rng) :
  snd (shuffleArray a g) = mkRng (stream g) (cursor g + (length a - 1)) /\
  (length a <= 1 -> fst (shuffleArray a g) = a).
Proof.
  split.
  - apply shuffleFrom_draws.
  - intros H. unfold shuffleArray.
    replace (length a - 1) with 0 by lia. reflexivity.
Qed.

Lemma hasCompleteBox_false (p : Board) (hi : nat) :
  hi < 9 ->
  (forall br bc, br < 3 -> bc < 3 -> countFilledInBox p br bc <= hi) ->
  hasCompleteBox p = false.
Proof.
  intros Hhi H. unfold hasCompleteBox. apply existsb_false_forall.
  intros [br bc] Hin. apply in_boxes in Hin. cbn [fst snd].
  apply Nat.eqb_neq. specialize (H br bc (proj1 Hin) (proj2 Hin)). lia.
Qed.

(** X19: the retry loop of [generateBalancedPuzzle] never retries: no puzzle
    of [generateSudokuPuzzle] has a completely filled box, so for the same
    run of [Math.random] [generateBalancedPuzzle] returns the very puzzle
    that [generateSudokuPuzzle] returns. *)
Theorem generateBalancedPuzzle_first_attempt (d : Difficulty) (g : Rng) :
  generateBalancedPuzzle d g = generateSudokuPuzzle d g /\
  exists p g', generateSudokuPuzzle d g = Some (p, g') /\
               hasCompleteBox p = false.
Proof.
  assert (exists p g', generateSudokuPuzzle d g = Some (p, g') /\
                       hasCompleteBox p = false) as H.
  { unfold generateSudokuPuzzle.
    destruct (generateCompleteSudoku_spec g) as [G [g1 [E [Hwf [Hfi Hnc]]]]].
    rewrite E.
    destruct (removeCellsImproved_counts G d g1 Hwf (Fills_Full Hfi))
      as [_ Hbox].
    destruct (removeCellsImproved G d g1) as [p g']. cbn [fst] in Hbox.
    exists p, g'. split; auto.
    apply hasCompleteBox_false with (hi := snd (getBoxConstraints d)).
    - destruct d; simpl; lia.
    - intros br bc Hr Hc. now apply Hbox. }
  split; auto.
  destruct H as [p [g' [E Hc]]].
  unfold generateBalancedPuzzle. cbn [balancedLoop]. now rewrite E, Hc.
Qed.

(** *** Rows, columns and boxes of a complete grid *)

Lemma group_values (G : Board) (ps : list (nat * nat)) :
  Fills emptyBoard G -> NoConflict G ->
  NoDup ps -> length ps = 9 ->
  (forall p, In p ps -> fst p < 9 /\ snd p < 9) ->
  (forall p q, In p ps -> In q ps ->
               sameGroup (fst p) (snd p) (fst q) (snd q)) ->
  Permutation (valuesAt G ps) (map Some digits).
Proof.
  intros Hfi Hnc Hnd Hlen Hrange Hgroup. unfold valuesAt.
  apply NoDup_Permutation_bis.
  - apply NoDup_map_NoDup_ForallPairs; auto.
    intros [r c] [r' c'] Hp Hq Heq. cbn [fst snd] in Heq.
    destruct (pos_eq_dec (r, c) (r', c')) as [E|N]; auto. exfalso.
    destruct (Hrange _ Hp) as [Hr Hc]. destruct (Hrange _ Hq) as [Hr' Hc'].
    cbn [fst snd] in *.
    pose proof (Hfi r c Hr Hc) as Hd. rewrite getCell_emptyBoard in Hd.
    destruct Hd as [d [_ Hd]].
    apply (Hnc r c r' c' d); auto.
    + exact (Hgroup _ _ Hp Hq).
    + now rewrite <- Heq.
  - rewrite !length_map, Hlen. reflexivity.
  - intros v Hin. apply in_map_iff in Hin. destruct Hin as [[r c] [Hv Hp]].
    destruct (Hrange _ Hp) as [Hr Hc]. cbn [fst snd] in *.
    pose proof (Hfi r c Hr Hc) as Hd. rewrite getCell_emptyBoard in Hd.
    destruct Hd as [d [Hd Hg]]. rewrite Hg in Hv. subst v.
    now apply in_map.
Qed.

Lemma rowCells_group (r : nat) :
  r < 9 ->
  NoDup (rowCells r) /\ length (rowCells r) = 9 /\
  (forall p, In p (rowCells r) -> fst p < 9 /\ snd p < 9) /\
  (forall p q, In p (rowCells r) -> In q (rowCells r) ->
               sameGroup (fst p) (snd p) (fst q) (snd q)).
Proof.
  intros Hr. unfold rowCells. split; [|split; [|split]].
  - apply Finite.Injective_map_NoDup; [|apply seq_NoDup].
    intros x y H. now inversion H.
  - now rewrite length_map, length_seq.
  - intros p Hin. apply in_map_iff in Hin. destruct Hin as [c [<- Hc]].
    apply in_seq in Hc. simpl. lia.
  - intros p q Hp Hq. apply in_map_iff in Hp, Hq.
    destruct Hp as [c [<- _]]. destruct Hq as [c' [<- _]].
    left. reflexivity.
Qed.

Lemma colCells_group (c : nat) :
  c < 9 ->
  NoDup (colCells c) /\ length (colCells c) = 9 /\
  (forall p, In p (colCells c) -> fst p < 9 /\ snd p < 9) /\
  (forall p q, In p (colCells c) -> In q (colCells c) ->
               sameGroup (fst p) (snd p) (fst q) (snd q)).
Proof.
  intros Hc. unfold colCells. split; [|split; [|split]].
  - apply Finite.Injective_map_NoDup; [|apply seq_NoDup].
    intros x y H. now inversion H.
  - now rewrite length_map, length_seq.
  - intros p Hin. apply in_map_iff in Hin. destruct Hin as [r [<- Hr]].
    apply in_seq in Hr. simpl. lia.
  - intros p q Hp Hq. apply in_map_iff in Hp, Hq.
    destruct Hp as [r [<- _]]. destruct Hq as [r' [<- _]].
    right; left. reflexivity.
Qed.

Lemma boxCells_group (br bc : nat) :
  br < 3 -> bc < 3 ->
  NoDup (boxCells br bc) /\ length (boxCells br bc) = 9 /\
  (forall p, In p (boxCells br bc) -> fst p < 9 /\ snd p < 9) /\
  (forall p q, In p (boxCells br bc) -> In q (boxCells br bc) ->
               sameGroup (fst p) (snd p) (fst q) (snd q)).
Proof.
  intros Hr Hc.
  assert (forall p, In p (boxCells br bc) ->
                    fst p < 9 /\ snd p < 9 /\
                    fst p / 3 = br /\ snd p / 3 = bc) as Hin.
  { intros p Hp. unfold boxCells in Hp. apply in_flat_map in Hp.
    destruct Hp as [i [Hi Hp]]. apply in_map_iff in Hp.
    destruct Hp as [j [<- Hj]]. apply in_seq in Hi. apply in_seq in Hj.
    cbn [fst snd]. repeat split; try lia.
    - rewrite Nat.div_add_l by lia. rewrite (Nat.div_small i 3) by lia. lia.
    - rewrite Nat.div_add_l by lia. rewrite (Nat.div_small j 3) by lia. lia. }
  split; [|split; [|split]].
  - apply nodupb_NoDup.
    destruct br as [|[|[|br]]]; try lia;
      destruct bc as [|[|[|bc]]]; try lia; vm_compute; reflexivity.
  - destruct br as [|[|[|br]]]; try lia;
      destruct bc as [|[|[|bc]]]; try lia; reflexivity.
  - intros p Hp. destruct (Hin p Hp) as [H1 [H2 _]]. auto.
  - intros p q Hp Hq.
    destruct (Hin p Hp) as [_ [_ [H1 H2]]].
    destruct (Hin q Hq) as [_ [_ [H3 H4]]].
    right; right. split; congruence.
Qed.

(** X20: in the board returned by [generateCompleteSudoku], the values of
    every row, of every column and of every box are a permutation of the
    digits 1..9. *)
Theorem generateCompleteSudoku_latin (g : Rng) :
  exists G g',
    generateCompleteSudoku g = Some (G, g') /\
    Forall (fun i =>
              Permutation (valuesAt G (rowCells i)) (map Some digits) /\
              Permutation (valuesAt G (colCells i)) (map Some digits) /\
              Permutation (valuesAt G (boxCells (i / 3) (i mod 3)))
                          (map Some digits))
           (seq 0 9).
Proof.
  destruct (generateCompleteSudoku_spec g) as [G [g' [E [Hwf [Hfi Hnc]]]]].
  exists G, g'. split; auto.
  apply Forall_forall. intros i Hi. apply in_seq in Hi.
  assert (i / 3 < 3) as Hbr by (apply Nat.Div0.div_lt_upper_bound; lia).
  assert (i mod 3 < 3) as Hbc by (apply Nat.mod_upper_bound; lia).
  destruct (rowCells_group i) as [R1 [R2 [R3 R4]]]; [lia|].
  destruct (colCells_group i) as [C1 [C2 [C3 C4]]]; [lia|].
  destruct (boxCells_group (i / 3) (i mod 3) Hbr Hbc) as [B1 [B2 [B3 B4]]].
  split; [|split]; now apply group_values.
Qed.

(** X21: on every 9x9 board the clue counts of the nine boxes, as
    [countFilledInBox] gives them, are at most 9 each and add up to the number
    of filled cells of the board. *)
Theorem countFilledInBox_total (b : Board) :
  wf b ->
  list_sum (map (fun bx => countFilledInBox b (fst bx) (snd bx)) boxes)
  = countFilled b /\
  Forall (fun bx => countFilledInBox b (fst bx) (snd bx) <= 9) boxes.
Proof.
  intros _. split.
  - unfold countFilled, countFilledInBox, filled.
    cbv - [getCell isNull Nat.add]. cbn [Nat.add]. lia.
  - apply Forall_forall. intros [br bc] Hin. apply in_boxes in Hin.
    destruct Hin as [Hr Hc]. cbn [fst snd].
    destruct br as [|[|[|br]]]; try lia;
      destruct bc as [|[|[|bc]]]; try lia;
      unfold countFilledInBox;
      cbv - [getCell isNull Nat.add Nat.le]; cbn [Nat.add];
      repeat match goal with
             | |- context [if ?x then 0 else 1] => destruct x
             end; lia.
Qed.

Lemma countFilledInBox_total_witness :
  wf conflictBoard /\
  list_sum (map (fun bx => countFilledInBox conflictBoard (fst bx) (snd bx))
                boxes)
  = countFilled conflictBoard /\
  Forall (fun bx => countFilledInBox conflictBoard (fst bx) (snd bx) <= 9)
         boxes.
Proof.
  split; [exact wf_conflictBoard|].
  apply (countFilledInBox_total conflictBoard wf_conflictBoard).
Defined.

(** *** Clues of a symmetric puzzle *)

Lemma symmetricLoop_cons (row col : nat) (rest : list (nat * nat))
    (cellsToRemove cap : nat) (st : Removal) :
  symmetricLoop ((row, col) :: rest) cellsToRemove cap st =
  if cellsToRemove <=? totalRemoved st then st
  else if (cap <=? nth2 0 (boxRemovals st) (row / 3) (col / 3))
          || (cap <=? nth2 0 (boxRemovals st) ((8 - row) / 3) ((8 - col) / 3))
       then symmetricLoop rest cellsToRemove cap st
       else symmetricLoop rest cellsToRemove cap (removePair st row col).
Proof. reflexivity. Qed.

Lemma mirror_box (r : nat) : r < 9 -> (8 - r) / 3 = 2 - r / 3.
Proof.
  intros H. do 9 (destruct r as [|r]; [reflexivity|]). lia.
Qed.

Lemma removePair_counter (st : Removal) (r c br bc : nat) :
  wf3 (boxRemovals st) -> r < 9 -> c < 9 ->
  nth2 0 (boxRemovals (removePair st r c)) br bc
  = nth2 0 (boxRemovals st) br bc + touch br bc (r, c).
Proof.
  intros Hw Hr Hc. unfold removePair, touch. cbn [boxRemovals fst snd].
  assert (r / 3 < 3) as H1 by now apply box_index_lt.
  assert (c / 3 < 3) as H2 by now apply box_index_lt.
  assert ((8 - r) / 3 < 3) as H3 by (apply box_index_lt; lia).
  assert ((8 - c) / 3 < 3) as H4 by (apply box_index_lt; lia).
  set (R1 := upd2 (boxRemovals st) (r / 3) (c / 3)
                  (nth2 0 (boxRemovals st) (r / 3) (c / 3) + 1)).
  assert (wf3 R1) as Hw1 by now apply wf3_upd2.
  assert (forall x y,
            nth2 0 R1 x y = nth2 0 (boxRemovals st) x y
                            + (if (r / 3 =? x) && (c / 3 =? y) then 1 else 0))
    as HR1.
  { intros x y. unfold R1.
    destruct (Nat.eqb_spec (r / 3) x) as [<-|N1]; cbn [andb].
    - destruct (Nat.eqb_spec (c / 3) y) as [<-|N2].
      + now rewrite wf3_nth2_upd2_eq.
      + rewrite nth2_upd2_neq by congruence. lia.
    - rewrite nth2_upd2_neq by congruence. lia. }
  destruct (Nat.eqb_spec ((8 - r) / 3) br) as [<-|N1]; cbn [andb].
  - destruct (Nat.eqb_spec ((8 - c) / 3) bc) as [<-|N2].
    + rewrite wf3_nth2_upd2_eq by assumption. rewrite HR1. lia.
    + rewrite nth2_upd2_neq by congruence. rewrite HR1. lia.
  - rewrite nth2_upd2_neq by congruence. rewrite HR1. lia.
Qed.

Lemma touch_mirror (br bc r c : nat) :
  br < 3 -> bc < 3 -> r < 9 -> c < 9 ->
  touch br bc (r, c) = touch (2 - br) (2 - bc) (r, c).
Proof.
  intros Hbr Hbc Hr Hc. unfold touch. cbn [fst snd].
  rewrite !mirror_box by assumption.
  pose proof (box_index_lt Hr) as Hx. pose proof (box_index_lt Hc) as Hy.
  destruct (r / 3) as [|[|[|x]]]; try lia;
    destruct (c / 3) as [|[|[|y]]]; try lia;
    destruct br as [|[|[|br]]]; try lia;
    destruct bc as [|[|[|bc]]]; try lia; reflexivity.
Qed.

Lemma touch_zero (br bc r c : nat) :
  (r / 3, c / 3) <> (br, bc) -> ((8 - r) / 3, (8 - c) / 3) <> (br, bc) ->
  touch br bc (r, c) = 0.
Proof.
  intros N1 N2. unfold touch. cbn [fst snd].
  destruct (Nat.eqb_spec (r / 3) br), (Nat.eqb_spec (c / 3) bc);
    destruct (Nat.eqb_spec ((8 - r) / 3) br), (Nat.eqb_spec ((8 - c) / 3) bc);
    cbn [andb]; try reflexivity; exfalso; (apply N1 + apply N2); congruence.
Qed.

Lemma SInv_removePair (st : Removal) (r c : nat) :
  SInv st -> r < 9 -> c < 9 -> (r, c) <> (8 - r, 8 - c) ->
  getCell (puzzle st) r c <> None ->
  getCell (puzzle st) (8 - r) (8 - c) <> None ->
  SInv (removePair st r c).
Proof.
  intros [Hwf [Hw3 [Hcnt [Htot Hmir]]]] Hr Hc Hne Hn1 Hn2.
  assert (r / 3 < 3) as H1 by now apply box_index_lt.
  assert (c / 3 < 3) as H2 by now apply box_index_lt.
  assert ((8 - r) / 3 < 3) as H3 by (apply box_index_lt; lia).
  assert ((8 - c) / 3 < 3) as H4 by (apply box_index_lt; lia).
  split; [|split; [|split; [|split]]].
  - unfold removePair. cbn [puzzle]. now apply wf_setCell, wf_setCell.
  - unfold removePair. cbn [boxRemovals]. now apply wf3_upd2, wf3_upd2.
  - unfold removePair. cbn [puzzle totalRemoved].
    pose proof (countFilled_remove Hwf Hr Hc Hn1) as C1.
    assert (getCell (setCell (puzzle st) r c None) (8 - r) (8 - c) <> None)
      as Hn2' by now rewrite getCell_setCell_neq.
    pose proof (@countFilled_remove (setCell (puzzle st) r c None)
                  (8 - r) (8 - c) (wf_setCell r c None Hwf)
                  ltac:(lia) ltac:(lia) Hn2') as C2.
    lia.
  - unfold removePair. cbn [boxRemovals totalRemoved].
    rewrite sumR_incr; auto; [|now apply wf3_upd2].
    rewrite sumR_incr by assumption. lia.
  - intros br bc Hbr Hbc.
    rewrite !removePair_counter by assumption.
    rewrite (Hmir br bc Hbr Hbc).
    now rewrite (touch_mirror br bc r c Hbr Hbc Hr Hc).
Qed.

Lemma SPending_skip (b : Board) (q : nat * nat) (L : list (nat * nat)) :
  SPending b (q :: L) -> SPending b L.
Proof.
  intros [Hnd Hall]. split.
  - cbn [map app] in Hnd. inversion Hnd as [|? ? _ Hnd']; subst.
    now apply NoDup_remove_1 in Hnd'.
  - intros q' Hin. apply Hall. now right.
Qed.

Lemma SPending_head (b : Board) (q : nat * nat) (L : list (nat * nat)) :
  SPending b (q :: L) ->
  q <> mirror q /\
  forall q', In q' L ->
    q' <> q /\ q' <> mirror q /\ mirror q' <> q /\ mirror q' <> mirror q.
Proof.
  intros [Hnd _]. cbn [map app] in Hnd.
  inversion Hnd as [|? ? Hnotin Hnd']; subst.
  pose proof (NoDup_remove_2 _ _ _ Hnd') as Hm.
  split.
  - intros E. apply Hnotin. apply in_or_app. right. left. now symmetry.
  - intros q' Hin. repeat split.
    + intros ->. apply Hnotin. apply in_or_app. now left.
    + intros ->. apply Hm. apply in_or_app. now left.
    + intros E. apply Hnotin. apply in_or_app. right. right.
      rewrite <- E. now apply in_map.
    + intros E. apply Hm. apply in_or_app. right.
      rewrite <- E. now apply in_map.
Qed.

Lemma SPending_tail (st : Removal) (r c : nat) (L : list (nat * nat)) :
  SPending (puzzle st) ((r, c) :: L) ->
  SPending (puzzle (removePair st r c)) L.
Proof.
  intros Hp. destruct (SPending_head _ _ _ Hp) as [_ Hd].
  pose proof (SPending_skip _ _ _ Hp) as [Hnd Hall]. split; auto.
  intros q Hin. destruct (Hall q Hin) as [A1 [A2 [A3 A4]]].
  destruct (Hd q Hin) as [D1 [D2 [D3 D4]]].
  unfold mirror in *. cbn [fst snd] in *. destruct q as [r' c'].
  cbn [fst snd] in *.
  unfold removePair. cbn [puzzle].
  repeat split; auto; rewrite !getCell_setCell_neq; auto.
Qed.

Lemma sumR_lower_fun (R : list (list nat)) (f : nat -> nat -> nat) :
  (forall br bc, br < 3 -> bc < 3 -> f br bc <= nth2 0 R br bc) ->
  list_sum (map (fun bx => f (fst bx) (snd bx)) boxes) <= sumR R.
Proof.
  intros H. unfold sumR.
  assert (forall l, (forall bx, In bx l ->
                       f (fst bx) (snd bx) <= nth2 0 R (fst bx) (snd bx)) ->
                    list_sum (map (fun bx => f (fst bx) (snd bx)) l)
                    <= list_sum (map (fun bx => nth2 0 R (fst bx) (snd bx)) l))
    as Hgen.
  { induction l as [|h t IH]; intros Hl; simpl; [lia|].
    specialize (IH (fun bx Hin => Hl bx (or_intror Hin))).
    specialize (Hl h (or_introl eq_refl)). lia. }
  apply (Hgen boxes). intros [br bc] Hin. apply in_boxes in Hin.
  simpl. apply H; tauto.
Qed.

Lemma boxFloor_total (cap : nat) :
  list_sum (map (fun bx => boxFloor cap (fst bx) (snd bx)) boxes)
  = 8 * cap + Nat.min cap 8.
Proof.
  cbv -[Nat.min Nat.mul Nat.add]. lia.
Qed.

Lemma touches_cons (br bc : nat) (q : nat * nat) (L : list (nat * nat)) :
  touches br bc (q :: L) = touch br bc q + touches br bc L.
Proof. reflexivity. Qed.

(** The removal loop on pairs that are still filled: it ends with exactly
    [target] cells removed. *)
Lemma symmetricLoop_spec (target cap : nat) (L : list (nat * nat)) :
  (exists k, target = 2 * k) -> cap <= 9 ->
  target <= 8 * cap + Nat.min cap 8 ->
  forall st,
    SInv st -> SPending (puzzle st) L ->
    (exists k, totalRemoved st = 2 * k) -> totalRemoved st <= target ->
    (forall br bc, br < 3 -> bc < 3 ->
       boxFloor cap br bc <= nth2 0 (boxRemovals st) br bc + touches br bc L) ->
    SInv (symmetricLoop L target cap st) /\
    totalRemoved (symmetricLoop L target cap st) = target.
Proof.
  intros [kt Hkt] Hcap Hroom.
  induction L as [|[r c] L IH]; intros st Hinv Hp [k Hk] Hle Hpot.
  - cbn [symmetricLoop]. split; auto.
    assert (8 * cap + Nat.min cap 8 <= sumR (boxRemovals st)) as Hs.
    { rewrite <- boxFloor_total. apply sumR_lower_fun.
      intros br bc Hr Hc. specialize (Hpot br bc Hr Hc).
      unfold touches in Hpot. simpl in Hpot. lia. }
    destruct Hinv as [_ [_ [_ [Htot _]]]]. lia.
  - rewrite symmetricLoop_cons.
    destruct (Nat.leb_spec target (totalRemoved st)) as [Hge|Hlt].
    { split; auto. lia. }
    destruct (proj2 Hp (r, c) (or_introl eq_refl)) as [Hr [Hc [Hn1 Hn2]]].
    cbn [fst snd] in Hr, Hc, Hn1, Hn2.
    destruct (SPending_head _ _ _ Hp) as [Hself _].
    unfold mirror in Hself. cbn [fst snd] in Hself.
    assert (r / 3 < 3) as H1 by now apply box_index_lt.
    assert (c / 3 < 3) as H2 by now apply box_index_lt.
    pose proof (proj2 (proj2 (proj2 (proj2 Hinv))) (r / 3) (c / 3) H1 H2)
      as Hmir.
    rewrite <- !mirror_box in Hmir by assumption.
    destruct ((cap <=? nth2 0 (boxRemovals st) (r / 3) (c / 3))
              || (cap <=? nth2 0 (boxRemovals st) ((8 - r) / 3) ((8 - c) / 3)))
      eqn:Eg.
    + assert (cap <= nth2 0 (boxRemovals st) (r / 3) (c / 3) /\
              cap <= nth2 0 (boxRemovals st) ((8 - r) / 3) ((8 - c) / 3))
        as [Hf1 Hf2].
      { apply orb_true_iff in Eg. destruct Eg as [E|E];
          apply Nat.leb_le in E; lia. }
      apply IH; eauto.
      * exact (SPending_skip _ _ _ Hp).
      * intros br bc Hbr Hbc. specialize (Hpot br bc Hbr Hbc).
        rewrite touches_cons in Hpot.
        assert (boxFloor cap br bc <= cap) as Hfl.
        { unfold boxFloor. destruct ((br =? 1) && (bc =? 1)); lia. }
        destruct (pos_eq_dec (r / 3, c / 3) (br, bc)) as [E1|N1].
        { apply pair_equal_spec in E1. destruct E1 as [<- <-]. lia. }
        destruct (pos_eq_dec ((8 - r) / 3, (8 - c) / 3) (br, bc)) as [E2|N2].
        { apply pair_equal_spec in E2. destruct E2 as [<- <-].
          apply Nat.le_trans with (1 := Hfl).
          apply Nat.le_trans with (1 := Hf2). apply Nat.le_add_r. }
        rewrite (touch_zero br bc r c N1 N2) in Hpot. lia.
    + apply IH.
      * now apply SInv_removePair.
      * now apply SPending_tail.
      * exists (k + 1). unfold removePair. cbn [totalRemoved]. lia.
      * unfold removePair. cbn [totalRemoved]. lia.
      * intros br bc Hbr Hbc. specialize (Hpot br bc Hbr Hbc).
        rewrite touches_cons in Hpot.
        rewrite removePair_counter; [lia|apply Hinv|assumption|assumption].
Qed.

Lemma touches_Permutation (br bc : nat) (L L' : list (nat * nat)) :
  Permutation L L' -> touches br bc L = touches br bc L'.
Proof.
  intros H. unfold touches.
  induction H as [|x l l' H IH|x y l|l l' l'' H1 IH1 H2 IH2]; simpl; lia.
Qed.

Lemma symmetricPositions_touches (br bc : nat) :
  br < 3 -> bc < 3 ->
  touches br bc symmetricPositions = if (br =? 1) && (bc =? 1) then 8 else 9.
Proof.
  intros Hr Hc.
  destruct br as [|[|[|br]]]; try lia;
    destruct bc as [|[|[|bc]]]; try lia; vm_compute; reflexivity.
Qed.

Lemma symmetricPositions_NoDup :
  NoDup (symmetricPositions ++ map mirror symmetricPositions).
Proof. apply nodupb_NoDup. vm_compute. reflexivity. Qed.

Lemma symmetricPositions_centre :
  ~ In (4, 4) (symmetricPositions ++ map mirror symmetricPositions).
Proof.
  assert (existsb (fun q => (fst q =? 4) && (snd q =? 4))
                  (symmetricPositions ++ map mirror symmetricPositions)
          = false) as H by (vm_compute; reflexivity).
  intros Hin. rewrite existsb_false_forall in H.
  specialize (H (4, 4) Hin). discriminate.
Qed.

Lemma symmetricLoop_untouched (r0 c0 target cap : nat) (L : list (nat * nat)) :
  ~ In (r0, c0) (L ++ map mirror L) ->
  forall st,
    getCell (puzzle (symmetricLoop L target cap st)) r0 c0
    = getCell (puzzle st) r0 c0.
Proof.
  induction L as [|[r c] L IH]; intros Hni st; [reflexivity|].
  assert (~ In (r0, c0) (L ++ map mirror L)) as Hni'.
  { intros Hin. apply Hni. cbn [map app]. right.
    apply in_app_or in Hin. apply in_or_app.
    destruct Hin; [left|right; right]; assumption. }
  rewrite symmetricLoop_cons.
  destruct (target <=? totalRemoved st); [reflexivity|].
  destruct (_ || _); [now apply IH|].
  rewrite IH by assumption. unfold removePair. cbn [puzzle].
  rewrite !getCell_setCell_neq; auto.
  - intros E. apply Hni. now left.
  - intros E. apply Hni. cbn [map app]. right. apply in_or_app. right.
    left. unfold mirror. cbn [fst snd]. exact E.
Qed.

Lemma SInv_initial (G : Board) :
  wf G -> Full G -> SInv (mkRemoval G zeroRemovals 0).
Proof.
  intros Hwf Hf. unfold SInv. cbn [puzzle boxRemovals totalRemoved].
  split; [assumption|]. split; [apply wf3_zeroRemovals|].
  split; [rewrite countFilled_Full by assumption; reflexivity|].
  split; [reflexivity|].
  intros br bc _ _. now rewrite !zeroRemovals_nth2.
Qed.

(** The clues of the puzzle that the removal loop of
    [generateSymmetricPuzzle] makes from a complete grid. *)
Lemma symmetricRemoval_clues (G : Board) (d : Difficulty) (g : Rng) :
  wf G -> Full G ->
  getCell (fst (symmetricRemoval G d g)) 4 4 = getCell G 4 4 /\
  (exists k, countFilled (fst (symmetricRemoval G d g)) = 2 * k + 1) /\
  fst (getCluesRange d) <= countFilled (fst (symmetricRemoval G d g))
    <= snd (getCluesRange d) + 1.
Proof.
  intros Hwf Hfull. unfold symmetricRemoval.
  destruct (getCluesRange d) as [minTotal maxTotal] eqn:Ec.
  pose proof (randomBelow_lt (maxTotal - minTotal + 1) g) as Hk.
  destruct (randomBelow (maxTotal - minTotal + 1) g) as [k g1].
  cbn [fst] in Hk. specialize (Hk ltac:(lia)).
  destruct (getBoxConstraints d) as [minPerBox maxPerBox] eqn:Eb.
  pose proof (shuffleArray_Permutation symmetricPositions g1) as HP.
  destruct (shuffleArray symmetricPositions g1) as [positions g2].
  cbn [fst] in HP. cbn [fst snd]. rewrite map_id_eq.
  set (te := 81 - (minTotal + k)).
  set (target := if te mod 2 =? 0 then te else te - 1).
  assert (exists kt, target = 2 * kt) as Heven.
  { subst target. pose proof (Nat.div_mod_eq te 2) as Hdm.
    pose proof (Nat.mod_upper_bound te 2 ltac:(lia)) as Hm.
    destruct (Nat.eqb_spec (te mod 2) 0).
    - exists (te / 2). lia.
    - exists (te / 2). lia. }
  assert (te - 1 <= target <= te) as Htarget.
  { subst target. destruct (te mod 2 =? 0); lia. }
  assert (9 - minPerBox <= 9 /\
          te <= 8 * (9 - minPerBox) + Nat.min (9 - minPerBox) 8 /\
          minTotal + k <= maxTotal /\ maxTotal <= 80 /\ te = 81 - (minTotal + k))
    as [Hcap [Hroom [Hkm [Hmax Hte]]]].
  { subst te. destruct d; inversion Eb; inversion Ec; subst; lia. }
  assert (Permutation (positions ++ map mirror positions)
                      (symmetricPositions ++ map mirror symmetricPositions))
    as HP2.
  { apply Permutation_app; [exact HP|now apply Permutation_map]. }
  split.
  { apply symmetricLoop_untouched.
    intros Hin. apply symmetricPositions_centre.
    eapply Permutation_in; [exact HP2|exact Hin]. }
  destruct (@symmetricLoop_spec target (9 - minPerBox) positions Heven Hcap
              ltac:(lia) (mkRemoval G zeroRemovals 0))
    as [Hinv Htot].
  - now apply SInv_initial.
  - cbn [puzzle]. split.
    + apply Permutation_NoDup with (l := symmetricPositions
                                         ++ map mirror symmetricPositions);
        [now apply Permutation_sym|apply symmetricPositions_NoDup].
    + intros q Hq.
      destruct (symmetricPositions_range q) as [Hr Hc].
      { eapply Permutation_in; [exact HP|exact Hq]. }
      repeat split; auto; apply Hfull; lia.
  - exists 0. reflexivity.
  - cbn [totalRemoved]. lia.
  - intros br bc Hbr Hbc. cbn [boxRemovals]. rewrite zeroRemovals_nth2.
    rewrite (touches_Permutation br bc _ _ HP).
    rewrite symmetricPositions_touches by assumption.
    unfold boxFloor. destruct ((br =? 1) && (bc =? 1)); lia.
  - destruct Hinv as [_ [_ [Hcnt _]]]. rewrite Htot in Hcnt.
    destruct Heven as [kt Hkt]. split.
    + exists (40 - kt). lia.
    + lia.
Qed.


(** ** SudokuBoard.tsx *)

Import SudokuBoard.

Lemma nth_mapiFrom {A B : Type} (f : A -> nat -> B) (d : A) (d' : B)
    (l : list A) :
  forall index n, n < length l ->
    nth n (mapiFrom f index l) d' = f (nth n l d) (index + n).
Proof.
  induction l as [|x t IH]; intros index n Hn; simpl in Hn; [lia|].
  destruct n as [|n]; simpl.
  - f_equal. lia.
  - rewrite IH by lia. f_equal. lia.
Qed.

Lemma length_mapiFrom {A B : Type} (f : A -> nat -> B) (l : list A) :
  forall index, length (mapiFrom f index l) = length l.
Proof.
  induction l as [|x t IH]; intros index; simpl; [reflexivity|].
  now rewrite IH.
Qed.

Lemma fixed_nth2 (p : Board) (r c : nat) :
  nth2 false (map (fun row => map (fun cell => negb (isNull cell)) row) p) r c
  = negb (isNull (getCell p r c)).
Proof.
  unfold getCell, nth2.
  change (@nil bool) with (map (fun cell : Cell => negb (isNull cell)) []).
  rewrite (map_nth (fun row : list Cell =>
                      map (fun cell => negb (isNull cell)) row) p [] r).
  change false with (negb (isNull None)).
  apply (map_nth (fun cell : Cell => negb (isNull cell))).
Qed.

Lemma getCell_clear (fixed : list (list bool)) (b : Board) (r c : nat) :
  wf b -> r < 9 -> c < 9 ->
  getCell (mapi (fun row rowIndex =>
                   mapi (fun cell colIndex =>
                           if nth2 false fixed rowIndex colIndex
                           then cell else None) row) b) r c
  = if nth2 false fixed r c then getCell b r c else None.
Proof.
  intros [Hl Hrow] Hr Hc. unfold getCell, mapi.
  unfold nth2 at 1.
  rewrite (nth_mapiFrom _ [] [] b 0 r) by lia.
  rewrite (nth_mapiFrom _ None None (nth r b []) 0 c)
    by (rewrite Hrow; lia).
  reflexivity.
Qed.

Lemma wf_clear (fixed : list (list bool)) (b : Board) :
  wf b ->
  wf (mapi (fun row rowIndex =>
              mapi (fun cell colIndex =>
                      if nth2 false fixed rowIndex colIndex
                      then cell else None) row) b).
Proof.
  intros [Hl Hrow]. unfold mapi. split.
  - now rewrite length_mapiFrom.
  - intros r Hr. rewrite (nth_mapiFrom _ [] [] b 0 r) by lia.
    rewrite length_mapiFrom. now apply Hrow.
Qed.

Lemma Holds_not_fixed (p : Board) (st : State) (r c : nat) :
  Holds p st -> r < 9 -> c < 9 -> getCell (board st) r c = None ->
  nth2 false (fixedCells st) r c = false.
Proof.
  intros [_ [Hfix Hsub]] Hr Hc Hn. rewrite Hfix, fixed_nth2.
  destruct (getCell p r c) as [v|] eqn:E; [|reflexivity].
  rewrite (Hsub r c v Hr Hc E) in Hn. discriminate.
Qed.

Lemma Holds_loadPuzzle (p : Board) (st : State) :
  wf p -> Holds p (loadPuzzle p st).
Proof.
  intros Hwf. split; [exact Hwf|]. split; [reflexivity|].
  intros r c v _ _ H. exact H.
Qed.

Lemma Holds_effect (p : Board) (st : State) : Holds p st -> Holds p (effect st).
Proof. intros H. exact H. Qed.

Lemma Holds_handleCellFocus (p : Board) (st : State) (r c : nat) :
  Holds p st -> Holds p (handleCellFocus r c st).
Proof. intros H. exact H. Qed.

Lemma Holds_handleCellChange (p : Board) (st : State) (r c : nat) (v : Cell) :
  Holds p st -> Holds p (handleCellChange r c v st).
Proof.
  intros Hh. unfold handleCellChange.
  destruct (nth2 false (fixedCells st) r c) eqn:Ef; [exact Hh|].
  destruct Hh as [Hwf [Hfix Hsub]].
  unfold Holds. cbn [board fixedCells]. rewrite map_id_eq.
  split; [now apply wf_setCell|]. split; [exact Hfix|].
  intros r' c' v' Hr' Hc' Hp.
  rewrite getCell_setCell_neq; [now apply Hsub|].
  intros E. apply pair_equal_spec in E. destruct E as [-> ->].
  rewrite Hfix, fixed_nth2, Hp in Ef. discriminate.
Qed.

Lemma Holds_clearUserEntries (p : Board) (st : State) :
  Holds p st -> Holds p (clearUserEntries st).
Proof.
  intros [Hwf [Hfix Hsub]]. unfold Holds, clearUserEntries.
  cbn [board fixedCells].
  split; [now apply wf_clear|]. split; [exact Hfix|].
  intros r c v Hr Hc Hp. rewrite getCell_clear by assumption.
  rewrite Hfix, fixed_nth2, Hp. cbn [isNull negb]. now apply Hsub.
Qed.

Lemma solveSudoku_total (b : Board) :
  wf b ->
  exists ok b',
    solveSudoku b = Some (ok, b') /\
    (ok = true -> Filling b b') /\
    (ok = false -> b' = b /\ forall s, ~ Filling b s).
Proof.
  intros Hwf. apply solveSudoku_fuel_filling; [exact Hwf|apply countEmpty_le].
Qed.

Lemma Holds_solvePuzzle (p : Board) (st : State) :
  Holds p st -> exists st', solvePuzzle st = Some st' /\ Holds p st'.
Proof.
  intros Hh. pose proof Hh as [Hwf [Hfix Hsub]].
  destruct (solveSudoku_total (board st) Hwf) as [ok [b' [E [Ht _]]]].
  unfold solvePuzzle. rewrite map_id_eq, E. destruct ok.
  - eexists. split; [reflexivity|].
    destruct (Ht eq_refl) as [Hwf' [Hfi _]].
    unfold Holds. cbn [board fixedCells].
    split; [exact Hwf'|]. split; [exact Hfix|].
    intros r c v Hr Hc Hp.
    apply (Fills_SubBoard Hfi); auto.
  - exists st. split; [reflexivity|exact Hh].
Qed.

Lemma getNextHint_range (b : Board) :
  wf b ->
  exists oh,
    fst (getNextHint b) = Some oh /\
    forall h, oh = Some h -> hintRow h < 9 /\ hintCol h < 9.
Proof.
  intros Hwf.
  destruct (solveSudoku_total b Hwf) as [ok [b' [E _]]].
  unfold getNextHint. rewrite map_id_eq, E. destruct ok.
  - destruct (find _ allPositions) as [[row col]|] eqn:Hfind.
    + apply find_some in Hfind. destruct Hfind as [Hin _].
      apply in_allPositions in Hin.
      destruct (getCell b' row col) as [value|].
      * eexists. split; [reflexivity|].
        intros h Hh. apply Some_inj in Hh. subst h. exact Hin.
      * exists None. split; [reflexivity|discriminate].
    + exists None. split; [reflexivity|discriminate].
  - exists None. split; [reflexivity|discriminate].
Qed.

Lemma Holds_getSmartHint (p : Board) (st : State) (response : bool) :
  Holds p st ->
  exists st', getSmartHint response st = Some st' /\ Holds p st'.
Proof.
  intros Hh. pose proof Hh as [Hwf _].
  destruct (getNextHint_range (board st) Hwf) as [oh [E _]].
  unfold getSmartHint. rewrite E. destruct oh as [h|].
  - destruct response; eexists; (split; [reflexivity|]).
    + apply Holds_handleCellChange. now apply Holds_handleCellFocus.
    + now apply Holds_handleCellFocus.
  - exists st. split; [reflexivity|exact Hh].
Qed.

Lemma Holds_perform (p : Board) (a : Action) (st : State) :
  Holds p st -> exists st', perform a st = Some st' /\ Holds p st'.
Proof.
  intros Hh. unfold perform. destruct a as [r c v|r c| | |response].
  - eexists. split; [reflexivity|].
    apply Holds_effect. now apply Holds_handleCellChange.
  - eexists. split; [reflexivity|].
    apply Holds_effect. now apply Holds_handleCellFocus.
  - eexists. split; [reflexivity|].
    apply Holds_effect. now apply Holds_clearUserEntries.
  - destruct (Holds_solvePuzzle p st Hh) as [st' [E Hh']].
    rewrite E. eexists. split; [reflexivity|]. now apply Holds_effect.
  - destruct (Holds_getSmartHint p st response Hh) as [st' [E Hh']].
    rewrite E. eexists. split; [reflexivity|]. now apply Holds_effect.
Qed.

Lemma Holds_run (p : Board) (actions : list Action) :
  forall st, Holds p st -> exists st', run actions st = Some st' /\ Holds p st'.
Proof.
  induction actions as [|a rest IH]; intros st Hh.
  - exists st. split; [reflexivity|exact Hh].
  - destruct (Holds_perform p a st Hh) as [st1 [E Hh1]].
    cbn [run]. rewrite E. now apply IH.
Qed.

Lemma Holds_clear_board (p : Board) (st : State) :
  wf p -> Holds p st -> board (clearUserEntries st) = p.
Proof.
  intros Hwfp [Hwf [Hfix Hsub]]. unfold clearUserEntries. cbn [board].
  apply board_ext; [now apply wf_clear|exact Hwfp|].
  intros r c Hr Hc. rewrite getCell_clear by assumption.
  rewrite Hfix, fixed_nth2.
  destruct (getCell p r c) as [v|] eqn:E; cbn [isNull negb]; [|reflexivity].
  now apply Hsub.
Qed.

(** X23: once a 9x9 puzzle is loaded, whatever the player does on cells of
    the board (typing digits into cells or erasing them, selecting cells,
    clearing their entries, solving, taking smart hints), every handler
    returns, the clues of the puzzle stay on the board, and clearing the user
    entries gives the loaded puzzle back. *)
Theorem clearUserEntries_restores_puzzle (p : Board) (st0 : State)
    (actions : list Action) :
  wf p -> Forall actionOk actions ->
  exists st,
    run actions (effect (loadPuzzle p st0)) = Some st /\
    SubBoard p (board st) /\
    fixedCells st = fixedCells (loadPuzzle p st0) /\
    board (clearUserEntries st) = p.
Proof.
  intros Hwf _.
  destruct (Holds_run p actions (effect (loadPuzzle p st0))) as [st [E Hh]].
  { apply Holds_effect. now apply Holds_loadPuzzle. }
  exists st. split; [exact E|]. split; [apply Hh|].
  split; [apply Hh|]. now apply Holds_clear_board.
Qed.

Lemma clearUserEntries_restores_puzzle_witness :
  wf conflictBoard /\
  Forall actionOk
    [CellChange 4 4 (Some 5%Z); CellFocus 3 3; InstantSolve;
     SmartHint true; Reset] /\
  exists st,
    run [CellChange 4 4 (Some 5%Z); CellFocus 3 3; InstantSolve;
         SmartHint true; Reset]
        (effect (loadPuzzle conflictBoard initial)) = Some st /\
    SubBoard conflictBoard (board st) /\
    fixedCells st = fixedCells (loadPuzzle conflictBoard initial) /\
    board (clearUserEntries st) = conflictBoard.
Proof.
  assert (wf conflictBoard) as Hwf.
  { split; [reflexivity|].
    intros r Hr. do 9 (destruct r as [|r]; [reflexivity|]). lia. }
  assert (Forall actionOk
            [CellChange 4 4 (Some 5%Z); CellFocus 3 3; InstantSolve;
             SmartHint true; Reset]) as Hok.
  { repeat constructor; cbn; lia. }
  split; [exact Hwf|]. split; [exact Hok|].
  apply (clearUserEntries_restores_puzzle conflictBoard initial _ Hwf Hok).
Defined.

Lemma hasEmpty_false (b : Board) :
  wf b -> (existsb (fun row => existsb isNull row) b = false <-> Full b).
Proof.
  intros [Hl Hrow]. split.
  - intros H r c Hr Hc Hn.
    rewrite existsb_false_forall in H.
    assert (In (nth r b []) b) as Hin by (apply nth_In; lia).
    specialize (H _ Hin). rewrite existsb_false_forall in H.
    assert (In (getCell b r c) (nth r b [])) as Hin'.
    { unfold getCell, nth2. apply nth_In. rewrite Hrow; assumption. }
    specialize (H _ Hin'). rewrite Hn in H. discriminate.
  - intros Hf.
    destruct (existsb (fun row => existsb isNull row) b) eqn:E;
      [exfalso|reflexivity].
    apply existsb_exists in E. destruct E as [row [Hin E]].
    apply existsb_exists in E. destruct E as [cell [Hin' Hn]].
    apply isNull_true in Hn. subst cell.
    destruct (In_nth _ _ [] Hin) as [r [Hr Er]]. subst row.
    destruct (In_nth _ _ None Hin') as [c [Hc Ec]].
    rewrite Hl in Hr. rewrite Hrow in Hc by assumption.
    apply (Hf r c Hr Hc). exact Ec.
Qed.

(** X24: on a 9x9 board [checkSolution] announces "Perfect" exactly when
    every cell is filled and no value repeats in a row, column or box, which
    is exactly when the effect sets [isSolved]; it announces conflicts
    exactly when some value repeats, and "no errors so far" otherwise. *)
Theorem checkSolution_message (st : State) :
  wf (board st) ->
  (checkSolution st = Perfect <-> Full (board st) /\ NoConflict (board st)) /\
  (checkSolution st = SomeConflicts <-> ~ NoConflict (board st)) /\
  (checkSolution st = NoErrorsSoFar <->
   ~ Full (board st) /\ NoConflict (board st)) /\
  (isSolved (effect st) = true <-> checkSolution st = Perfect).
Proof.
  intros Hwf. unfold checkSolution, effect. cbn [isSolved].
  rewrite isBoardSolved_true.
  pose proof (isBoardValid_true (board st)) as Hv.
  pose proof (hasEmpty_false (board st) Hwf) as He.
  destruct (isBoardValid (board st)).
  - assert (NoConflict (board st)) as Hnc by now apply Hv.
    destruct (existsb (fun row => existsb isNull row) (board st)).
    + assert (~ Full (board st)) as Hnf.
      { intros Hf. apply He in Hf. discriminate. }
      repeat split; try discriminate; try tauto.
    + assert (Full (board st)) as Hf by now apply He.
      repeat split; try discriminate; try tauto.
  - assert (~ NoConflict (board st)) as Hnc.
    { intros Hnc. apply Hv in Hnc. discriminate. }
    repeat split; try discriminate; try tauto.
Qed.

Lemma checkSolution_message_witness :
  wf (board initial) /\
  (checkSolution initial = Perfect <->
   Full (board initial) /\ NoConflict (board initial)) /\
  (checkSolution initial = SomeConflicts <-> ~ NoConflict (board initial)) /\
  (checkSolution initial = NoErrorsSoFar <->
   ~ Full (board initial) /\ NoConflict (board initial)) /\
  (isSolved (effect initial) = true <-> checkSolution initial = Perfect).
Proof.
  split; [exact wf_emptyBoard|].
  apply (checkSolution_message initial). exact wf_emptyBoard.
Defined.

(** X25: on a loaded puzzle whose board has no repeated value, accepting the
    smart hint never spoils the game: when the board has a completion and an
    empty cell, the hint selects the first empty cell and fills it with a
    value for which the board still has a completion, and the move counter
    goes up by one; otherwise the state is left as it is. *)
Theorem getSmartHint_keeps_solvable (p : Board) (st : State) :
  Holds p st -> NoConflict (board st) ->
  exists st',
    getSmartHint true st = Some st' /\ Holds p st' /\
    match firstEmpty (board st) with
    | Some (r, c) =>
      ((exists s, Completion (board st) s) ->
       exists v s,
         board st' = setCell (board st) r c (Some v) /\
         Completion (board st') s /\
         selectedCell st' = Some (r, c) /\
         moveCount st' = moveCount st + 1) /\
      (NoneOf (Completion (board st)) -> st' = st)
    | None => st' = st
    end.
Proof.
  intros Hh Hnc. pose proof Hh as [Hwf [Hfix Hsub]].
  destruct (solveSudoku_valid (board st) Hwf Hnc)
    as [ok [solved [E [Ht Hf]]]].
  unfold getSmartHint, getNextHint. rewrite map_id_eq, E. destruct ok.
  - pose proof (Ht eq_refl) as Hcompl.
    destruct Hcompl as [Hws [Hfi Hncs]].
    pose proof (Fills_Full Hfi) as Hfull.
    rewrite (@find_ext_in _ _
               (fun q => isNull (getCell (board st) (fst q) (snd q)))).
    + fold (firstEmpty (board st)).
      destruct (firstEmpty (board st)) as [[r c]|] eqn:Hfe.
      * destruct (firstEmpty_Some _ Hfe) as [Hr [Hc Hn]].
        destruct (getCell solved r c) as [v|] eqn:Ev;
          [|exfalso; now apply (Hfull r c)].
        cbn [fst hintRow hintCol hintValue].
        pose proof (Holds_not_fixed p st r c Hh Hr Hc Hn) as Hnf.
        eexists. split; [reflexivity|].
        split.
        { apply Holds_handleCellChange. now apply Holds_handleCellFocus. }
        split.
        -- intros _. exists v, solved.
           unfold handleCellChange, handleCellFocus.
           cbn [board fixedCells moveCount selectedCell conflicts].
           rewrite Hnf. cbn [board fixedCells moveCount selectedCell].
           rewrite map_id_eq, Hn. cbn [isNull negb andb].
           split; [reflexivity|]. split; [|split; reflexivity].
           split; [exact Hws|]. split; [|exact Hncs].
           now apply Fills_narrow.
        -- intros Hnone. exfalso. apply (Hnone solved). now split.
      * exists st. cbn [fst]. split; [reflexivity|]. split; [exact Hh|].
        reflexivity.
    + intros [r' c'] Hin. apply in_allPositions in Hin.
      cbn [fst snd]. destruct (getCell solved r' c') eqn:Ev.
      * cbn [isNull negb]. now rewrite andb_true_r.
      * exfalso. apply (Hfull r' c'); tauto.
  - destruct (Hf eq_refl) as [_ Hnone]. cbn [fst].
    exists st. split; [reflexivity|]. split; [exact Hh|].
    destruct (firstEmpty (board st)) as [[r c]|]; [|reflexivity].
    split; [|reflexivity].
    intros [s Hs]. exfalso. exact (Hnone s Hs).
Qed.

Lemma getSmartHint_keeps_solvable_witness :
  Holds emptyBoard (loadPuzzle emptyBoard initial) /\
  NoConflict (board (loadPuzzle emptyBoard initial)) /\
  exists st',
    getSmartHint true (loadPuzzle emptyBoard initial) = Some st' /\
    Holds emptyBoard st' /\
    match firstEmpty (board (loadPuzzle emptyBoard initial)) with
    | Some (r, c) =>
      ((exists s, Completion (board (loadPuzzle emptyBoard initial)) s) ->
       exists v s,
         board st'
         = setCell (board (loadPuzzle emptyBoard initial)) r c (Some v) /\
         Completion (board st') s /\
         selectedCell st' = Some (r, c) /\
         moveCount st' = moveCount (loadPuzzle emptyBoard initial) + 1) /\
      (NoneOf (Completion (board (loadPuzzle emptyBoard initial))) ->
       st' = loadPuzzle emptyBoard initial)
    | None => st' = loadPuzzle emptyBoard initial
    end.
Proof.
  assert (Holds emptyBoard (loadPuzzle emptyBoard initial)) as Hh.
  { split; [exact wf_emptyBoard|]. split; [reflexivity|].
    intros r c v _ _ H. exact H. }
  assert (NoConflict (board (loadPuzzle emptyBoard initial))) as Hnc.
  { intros r c r' c' v _ _ _ _ _ _ H. cbn [loadPuzzle board] in H.
    rewrite getCell_emptyBoard in H. discriminate. }
  split; [exact Hh|]. split; [exact Hnc|].
  apply (getSmartHint_keeps_solvable emptyBoard
           (loadPuzzle emptyBoard initial) Hh Hnc).
Defined.

Lemma findAllConflicts_valid (b : Board) :
  NoConflict b -> findAllConflicts b = [].
Proof.
  intros Hnc. rewrite findAllConflicts_filter.
  assert (filter (conflicting b) allPositions = []) as ->; [|reflexivity].
  destruct (filter (conflicting b) allPositions) as [|[r c] t] eqn:E;
    [reflexivity|exfalso].
  assert (In (r, c) (filter (conflicting b) allPositions)) as Hin
    by (rewrite E; now left).
  apply filter_In in Hin. destruct Hin as [Hpos Hc].
  apply in_allPositions in Hpos.
  apply conflicting_true in Hc; [|tauto|tauto].
  destruct Hc as [v [r' [c' [[Hr [Hc [Hr' [Hc' [Hne Hg]]]]] [Hv Hv']]]]].
  exact (Hnc r c r' c' v Hr Hc Hr' Hc' Hne Hg Hv Hv').
Qed.

(** X26: every game that [generatePuzzle] sets up can be won: once the effect
    has run, no conflict is recorded, the puzzle is not yet solved and both
    counters are zero; and [solvePuzzle] then fills the board with a
    completion of the puzzle, after which the effect sets [isSolved]. *)
Theorem generatePuzzle_playable (level : Difficulty) (g : Rng) (st : State) :
  exists st1 g',
    generatePuzzle level g st = Some (st1, g') /\
    conflicts (effect st1) = [] /\
    isSolved (effect st1) = false /\
    moveCount (effect st1) = 0 /\ errorCount (effect st1) = 0 /\
    Holds (board st1) (effect st1) /\
    exists st2,
      solvePuzzle (effect st1) = Some st2 /\
      Completion (board st1) (board st2) /\
      isSolved (effect st2) = true.
Proof.
  unfold generatePuzzle, generateSymmetricPuzzle.
  destruct (generateCompleteSudoku_spec g) as [G [g1 [E [Hwf [Hfi Hnc]]]]].
  rewrite E.
  pose proof (Fills_Full Hfi) as Hfull.
  destruct (symmetricRemoval_spec G level g1 Hwf Hfull) as [Hwp [Hsub _]].
  destruct (symmetricRemoval_clues G level g1 Hwf Hfull) as [_ [_ Hcount]].
  destruct (symmetricRemoval G level g1) as [p g'].
  cbn [fst] in Hwp, Hsub, Hcount.
  assert (NoConflict p) as Hncp by now apply SubBoard_NoConflict with (G := G).
  assert (~ Full p) as Hnf.
  { intros Hf. apply countFilled_Full in Hf.
    destruct level; cbn [getCluesRange fst snd] in Hcount; lia. }
  eexists. exists g'. split; [reflexivity|].
  unfold effect, loadPuzzle.
  cbn [board fixedCells conflicts isSolved moveCount errorCount selectedCell
       isGenerating isSolving difficulty].
  split; [now apply findAllConflicts_valid|].
  split.
  { destruct (isBoardSolved p) eqn:Es; [|reflexivity].
    apply isBoardSolved_true in Es. tauto. }
  split; [reflexivity|]. split; [reflexivity|].
  split.
  { split; [exact Hwp|]. split; [reflexivity|]. apply SubBoard_refl. }
  destruct (solveSudoku_valid p Hwp Hncp) as [ok [b' [Es [Ht Hf]]]].
  unfold solvePuzzle. cbn [board]. rewrite map_id_eq, Es.
  destruct ok.
  - eexists. split; [reflexivity|]. cbn [board isSolved].
    pose proof (Ht eq_refl) as Hc. split; [exact Hc|].
    destruct Hc as [Hwb [Hfb Hncb]].
    apply isBoardSolved_true. split; [|exact Hncb].
    apply (Fills_Full Hfb).
  - exfalso. destruct (Hf eq_refl) as [_ Hnone].
    apply (Hnone G). now apply SubBoard_Completion.
Qed.

(** *** The hint for the selected cell *)

Lemma available_Candidate (b : Board) (r c : nat) (d : Z) :
  r < 9 -> c < 9 -> getCell b r c = None ->
  (In d (getAvailableNumbers b r c) <-> Candidate b r c d).
Proof.
  intros Hr Hc Hn. rewrite In_getAvailableNumbers, in_digits.
  rewrite (isValidMove_true b d Hr Hc). unfold Candidate, Peers. split.
  - intros [_ [Hd H]]. split; [exact Hd|].
    intros r' c' [_ [_ [Hr' [Hc' [Hne Hg]]]]]. now apply H.
  - intros [Hd H]. split; [exact Hn|]. split; [exact Hd|].
    intros r' c' Hr' Hc' Hne Hg. apply H. tauto.
Qed.

Lemma available_NoDup (b : Board) (r c : nat) :
  NoDup (getAvailableNumbers b r c).
Proof.
  unfold getAvailableNumbers. destruct (getCell b r c); [constructor|].
  apply NoDup_filter. apply digits_NoDup.
Qed.

(** X27: what [getHint] reports for the selected cell of a loaded puzzle.
    A clue gives "already filled"; a cell the player has filled gives "no
    valid numbers", whatever the board; for an empty cell the report names
    exactly the digits 1..9 that no other cell of its row, column or box
    holds: none, the only one, or the two or more of them. *)
Theorem getHint_message (p : Board) (st : State) (r c : nat) :
  Holds p st -> selectedCell st = Some (r, c) -> r < 9 -> c < 9 ->
  (getHint st = AlreadyFilled <-> getCell p r c <> None) /\
  (getCell p r c = None -> getCell (board st) r c <> None ->
   getHint st = NoValidNumbers) /\
  (getCell (board st) r c = None ->
   (getHint st = NoValidNumbers <->
    forall d, ~ Candidate (board st) r c d) /\
   (forall n, getHint st = OnlyValidNumber n <->
              forall d, Candidate (board st) r c d <-> d = n) /\
   (forall l, getHint st = ValidNumbers l ->
              2 <= length l /\
              forall d, In d l <-> Candidate (board st) r c d)).
Proof.
  intros [Hwf [Hfix Hsub]] Hsel Hr Hc. unfold getHint.
  rewrite Hsel, Hfix, fixed_nth2.
  split; [|split].
  - destruct (getCell p r c) as [v|]; cbn [isNull negb].
    + split; [discriminate|reflexivity].
    + split; [|congruence].
      destruct (getAvailableNumbers (board st) r c) as [|x [|y t]];
        discriminate.
  - intros Hp Hb. rewrite Hp. cbn [isNull negb].
    unfold getAvailableNumbers.
    destruct (getCell (board st) r c); [reflexivity|congruence].
  - intros Hb.
    assert (getCell p r c = None) as Hp.
    { destruct (getCell p r c) as [v|] eqn:Ep; [|reflexivity].
      rewrite (Hsub r c v Hr Hc Ep) in Hb. discriminate. }
    rewrite Hp. cbn [isNull negb].
    pose proof (fun d => available_Candidate (board st) r c d Hr Hc Hb)
      as Hin.
    pose proof (available_NoDup (board st) r c) as Hnd.
    destruct (getAvailableNumbers (board st) r c) as [|x [|y t]].
    + split; [|split].
      * split; [|reflexivity]. intros _ d Hd. apply Hin in Hd. exact Hd.
      * intros n. split; [discriminate|].
        intros H. exfalso. apply (proj2 (Hin n)). now apply (proj2 (H n)).
      * discriminate.
    + assert (Candidate (board st) r c x) as Hx by (apply Hin; now left).
      split; [|split].
      * split; [discriminate|]. intros H. exfalso. exact (H x Hx).
      * intros n. split.
        -- intros H. injection H as ->. intros d. rewrite <- Hin.
           simpl. split; [intros [H|[]]; now symmetry|intros ->; now left].
        -- intros H. apply H in Hx. now subst.
      * discriminate.
    + assert (Candidate (board st) r c x) as Hx by (apply Hin; now left).
      assert (Candidate (board st) r c y) as Hy
        by (apply Hin; right; now left).
      split; [|split].
      * split; [discriminate|]. intros H. exfalso. exact (H x Hx).
      * intros n. split; [discriminate|].
        intros H. exfalso. apply H in Hx. apply H in Hy. subst.
        inversion Hnd as [|? ? Hni _]. apply Hni. now left.
      * intros l H. injection H as <-. split; [simpl; lia|exact Hin].
Qed.

Lemma getHint_message_witness :
  Holds emptyBoard (handleCellFocus 2 3 (loadPuzzle emptyBoard initial)) /\
  selectedCell (handleCellFocus 2 3 (loadPuzzle emptyBoard initial))
  = Some (2, 3) /\
  2 < 9 /\ 3 < 9 /\
  (getHint (handleCellFocus 2 3 (loadPuzzle emptyBoard initial))
   = AlreadyFilled <-> getCell emptyBoard 2 3 <> None) /\
  (getCell emptyBoard 2 3 = None ->
   getCell (board (handleCellFocus 2 3 (loadPuzzle emptyBoard initial))) 2 3
   <> None ->
   getHint (handleCellFocus 2 3 (loadPuzzle emptyBoard initial))
   = NoValidNumbers) /\
  (getCell (board (handleCellFocus 2 3 (loadPuzzle emptyBoard initial))) 2 3
   = None ->
   (getHint (handleCellFocus 2 3 (loadPuzzle emptyBoard initial))
    = NoValidNumbers <->
    forall d,
      ~ Candidate
          (board (handleCellFocus 2 3 (loadPuzzle emptyBoard initial)))
          2 3 d) /\
   (forall n,
      getHint (handleCellFocus 2 3 (loadPuzzle emptyBoard initial))
      = OnlyValidNumber n <->
      forall d,
        Candidate (board (handleCellFocus 2 3 (loadPuzzle emptyBoard initial)))
                  2 3 d <-> d = n) /\
   (forall l,
      getHint (handleCellFocus 2 3 (loadPuzzle emptyBoard initial))
      = ValidNumbers l ->
      2 <= length l /\
      forall d,
        In d l <->
        Candidate (board (handleCellFocus 2 3 (loadPuzzle emptyBoard initial)))
                  2 3 d)).
Proof.
  assert (Holds emptyBoard
            (handleCellFocus 2 3 (loadPuzzle emptyBoard initial))) as Hh.
  { split; [exact wf_emptyBoard|]. split; [reflexivity|].
    intros r c v _ _ H. exact H. }
  split; [exact Hh|]. split; [reflexivity|].
  split; [lia|]. split; [lia|].
  apply (getHint_message emptyBoard
           (handleCellFocus 2 3 (loadPuzzle emptyBoard initial)) 2 3 Hh);
    [reflexivity|lia|lia].
Defined.

(** ** sudokuGenerator.ts: the orders that a shuffle can give *)

Lemma upd_app_r {A : Type} (l l' : list A) (n : nat) (v : A) :
  upd (length l + n) v (l ++ l') = l ++ upd n v l'.
Proof.
  induction l as [|h t IH]; simpl; [reflexivity|]. now rewrite IH.
Qed.

Lemma swap_same {A : Type} (a : list A) (i : nat) : swap a i i = a.
Proof.
  unfold swap. destruct (nth_error a i) as [x|] eqn:E; [|reflexivity].
  assert (forall (l : list A) n, nth_error l n = Some x -> upd n x l = l)
    as Hsame.
  { induction l as [|h t IH]; intros [|n] H; simpl in *;
      try discriminate; try reflexivity.
    - now injection H as ->.
    - now rewrite IH. }
  rewrite (Hsame a i E). exact (Hsame a i E).
Qed.

Lemma swap_apart {A : Type} (P1 P2 T : list A) (x y : A) :
  swap (P1 ++ y :: P2 ++ x :: T) (length P1 + S (length P2)) (length P1)
  = P1 ++ x :: P2 ++ y :: T.
Proof.
  unfold swap.
  rewrite (nth_error_app2 P1 (y :: P2 ++ x :: T)) by lia.
  replace (length P1 + S (length P2) - length P1) with (S (length P2)) by lia.
  cbn [nth_error].
  rewrite (nth_error_app2 P2 (x :: T)) by lia.
  rewrite Nat.sub_diag. cbn [nth_error].
  rewrite (nth_error_app2 P1 (y :: P2 ++ x :: T)) by lia.
  rewrite Nat.sub_diag. cbn [nth_error].
  replace (length P1) with (length P1 + 0) at 2 by lia.
  rewrite upd_app_r. cbn [upd].
  rewrite upd_app_r. cbn [upd].
  replace (length P2) with (length P2 + 0) by lia.
  rewrite upd_app_r. reflexivity.
Qed.

Lemma shuffleFrom_reaches {A : Type} (i : nat) :
  forall (Q Q' T : list A),
    length Q = S i -> Permutation Q Q' ->
    exists js,
      forall s c,
        (forall k, k < i -> s (c + k) = nth k js 0) ->
        fst (shuffleFrom i (Q ++ T) (mkRng s c)) = Q' ++ T.
Proof.
  induction i as [|i IH]; intros Q Q' T Hlen HP.
  - destruct Q as [|q [|q' Q0]]; try discriminate.
    apply Permutation_length_1_inv in HP. subst Q'.
    exists []. intros s c _. reflexivity.
  - assert (length Q' = S (S i)) as Hlen'
      by (rewrite <- Hlen; symmetry; now apply Permutation_length).
    destruct (@exists_last _ Q') as [Q0 [y EQ']];
      [intros ->; discriminate|]. subst Q'.
    assert (In y Q) as Hy.
    { apply Permutation_in with (l := Q0 ++ [y]);
        [now apply Permutation_sym|]. apply in_or_app. right. now left. }
    destruct (in_split y Q Hy) as [P1 [P2 EQ]]. subst Q.
    assert (Permutation (P1 ++ P2) Q0) as HP0.
    { apply Permutation_cons_inv with (a := y).
      apply Permutation_trans with (l' := P1 ++ y :: P2);
        [apply Permutation_middle|].
      apply Permutation_trans with (l' := Q0 ++ [y]); [exact HP|].
      apply Permutation_sym, Permutation_cons_append. }
    rewrite length_app in Hlen. cbn [length] in Hlen.
    destruct (@exists_last _ (y :: P2)) as [P2' [x E2]]; [discriminate|].
    destruct P2' as [|y' P2'].
    + (* the value is already in the last slot *)
      cbn [app] in E2. injection E2 as <- E2.
      destruct P2; [|discriminate]. clear E2.
      rewrite app_nil_r in HP0. cbn [length] in Hlen.
      destruct (IH P1 Q0 (y :: T) ltac:(lia) HP0) as [js Hjs].
      exists (S i :: js). intros s c Hs.
      cbn [shuffleFrom]. unfold randomBelow. cbn [stream cursor].
      rewrite <- (Nat.add_0_r c) at 1. rewrite (Hs 0) by lia. cbn [nth].
      rewrite Nat.mod_small by lia. rewrite swap_same.
      rewrite <- app_assoc. cbn [app].
      rewrite (Hjs s (S c)); [now rewrite <- app_assoc|].
      intros k Hk. replace (S c + k) with (c + S k) by lia.
      now rewrite (Hs (S k)) by lia.
    + cbn [app] in E2. injection E2 as <- E2. subst P2.
      rewrite length_app in Hlen. cbn [length] in Hlen.
      assert (Permutation (P1 ++ x :: P2') Q0) as HP1.
      { apply Permutation_trans with (l' := P1 ++ P2' ++ [x]); [|exact HP0].
        apply Permutation_app_head. apply Permutation_cons_append. }
      destruct (IH (P1 ++ x :: P2') Q0 (y :: T)) as [js Hjs].
      { rewrite length_app. cbn [length]. lia. }
      { exact HP1. }
      exists (length P1 :: js). intros s c Hs.
      cbn [shuffleFrom]. unfold randomBelow. cbn [stream cursor].
      rewrite <- (Nat.add_0_r c) at 1. rewrite (Hs 0) by lia. cbn [nth].
      rewrite Nat.mod_small by lia.
      replace ((P1 ++ y :: P2' ++ [x]) ++ T)
        with (P1 ++ y :: P2' ++ x :: T)
        by (rewrite <- !app_assoc; cbn [app]; rewrite <- app_assoc;
            reflexivity).
      replace (S i) with (length P1 + S (length P2')) by lia.
      rewrite swap_apart.
      replace (P1 ++ x :: P2' ++ y :: T) with ((P1 ++ x :: P2') ++ y :: T)
        by (rewrite <- app_assoc; reflexivity).
      replace (length P1 + S (length P2')) with (S i) by lia.
      cbn [Nat.add] in *.
      rewrite (Hjs s (S c)); [now rewrite <- app_assoc|].
      intros k Hk. replace (S c + k) with (c + S k) by lia.
      now rewrite (Hs (S k)) by lia.
Qed.

(** X28: [shuffleArray] can return every order of its argument: for each
    permutation of the array there is a run of [Math.random] for which the
    shuffle returns it. *)
Theorem shuffleArray_reaches {A : Type} (a a' : list A) :
  Permutation a a' -> exists g, fst (shuffleArray a g) = a'.
Proof.
  intros HP. destruct a as [|h t].
  - apply Permutation_nil in HP. subst a'.
    exists (mkRng (fun _ => 0) 0). reflexivity.
  - destruct (@shuffleFrom_reaches A (length t) (h :: t) a' [] eq_refl HP)
      as [js Hjs].
    exists (mkRng (fun n => nth n js 0) 0).
    unfold shuffleArray.
    replace (length (h :: t) - 1) with (length t) by (cbn [length]; lia).
    specialize (Hjs (fun n => nth n js 0) 0 (fun k _ => eq_refl)).
    rewrite !app_nil_r in Hjs. exact Hjs.
Qed.

Lemma shuffleArray_reaches_witness :
  Permutation [1; 2; 3] [3; 1; 2] /\
  exists g, fst (shuffleArray [1; 2; 3] g) = [3; 1; 2].
Proof.
  assert (Permutation [1; 2; 3] [3; 1; 2]) as HP.
  { apply Permutation_sym. apply (Permutation_cons_append [1; 2] 3). }
  split; [exact HP|].
  apply (shuffleArray_reaches [1; 2; 3] [3; 1; 2] HP).
Defined.

(** ** sudokuValidator.ts: solved boards *)

Lemma NoDup_map_neq {A B : Type} (f : A -> B) (l : list A) (p q : A) :
  NoDup (map f l) -> In p l -> In q l -> p <> q -> f p <> f q.
Proof.
  induction l as [|h t IH]; intros Hnd Hp Hq Hne; [destruct Hp|].
  cbn [map] in Hnd. inversion Hnd as [|? ? Hni Hnd']; subst.
  destruct Hp as [->|Hp], Hq as [->|Hq].
  - congruence.
  - intros E. apply Hni. rewrite E. now apply in_map.
  - intros E. apply Hni. rewrite <- E. now apply in_map.
  - now apply IH.
Qed.

Lemma In_rowCells (r c : nat) : c < 9 -> In (r, c) (rowCells r).
Proof.
  intros Hc. unfold rowCells. apply in_map_iff. exists c.
  split; [reflexivity|]. apply in_seq. lia.
Qed.

Lemma In_colCells (r c : nat) : r < 9 -> In (r, c) (colCells c).
Proof.
  intros Hr. unfold colCells. apply in_map_iff. exists r.
  split; [reflexivity|]. apply in_seq. lia.
Qed.

Lemma In_boxCells (r c : nat) :
  r < 9 -> c < 9 -> In (r, c) (boxCells (r / 3) (c / 3)).
Proof.
  intros Hr Hc. unfold boxCells. apply in_flat_map. exists (r mod 3). split.
  - apply in_seq. pose proof (Nat.mod_upper_bound r 3). lia.
  - apply in_map_iff. exists (c mod 3). split.
    + pose proof (Nat.div_mod_eq r 3). pose proof (Nat.div_mod_eq c 3).
      f_equal; lia.
    + apply in_seq. pose proof (Nat.mod_upper_bound c 3). lia.
Qed.

Lemma Latin_row_value (b : Board) (r c : nat) :
  Latin b -> r < 9 -> c < 9 ->
  exists d, In d digits /\ getCell b r c = Some d.
Proof.
  intros HL Hr Hc. destruct (HL r Hr) as [HR _].
  assert (In (getCell b r c) (valuesAt b (rowCells r))) as Hin.
  { unfold valuesAt.
    apply (in_map (fun p => getCell b (fst p) (snd p)) _ (r, c)).
    now apply In_rowCells. }
  apply (Permutation_in _ HR) in Hin. apply in_map_iff in Hin.
  destruct Hin as [d [Hd Hin]]. exists d. auto.
Qed.

Lemma digits_Some_NoDup : NoDup (map Some digits).
Proof.
  apply Finite.Injective_map_NoDup; [|apply digits_NoDup].
  intros x y H. now injection H.
Qed.

Lemma Latin_NoConflict (b : Board) : Latin b -> NoConflict b.
Proof.
  intros HL r c r' c' v Hr Hc Hr' Hc' Hne Hg H1 H2.
  assert (forall ps,
            Permutation (valuesAt b ps) (map Some digits) ->
            In (r, c) ps -> In (r', c') ps -> False) as Hgroup.
  { intros ps HP Hp Hq.
    assert (NoDup (valuesAt b ps)) as Hnd.
    { apply Permutation_NoDup with (l := map Some digits);
        [now apply Permutation_sym|apply digits_Some_NoDup]. }
    apply (NoDup_map_neq (fun p => getCell b (fst p) (snd p)) ps
                         (r, c) (r', c') Hnd Hp Hq Hne).
    cbn [fst snd]. congruence. }
  destruct Hg as [E|[E|[E1 E2]]].
  - subst r'. destruct (HL r Hr) as [HR _].
    apply (Hgroup (rowCells r) HR); now apply In_rowCells.
  - subst c'. destruct (HL c Hc) as [_ [HC _]].
    apply (Hgroup (colCells c) HC); now apply In_colCells.
  - assert (r / 3 < 3) as Hbr by now apply box_index_lt.
    assert (c / 3 < 3) as Hbc by now apply box_index_lt.
    destruct (HL (r / 3 * 3 + c / 3)) as [_ [_ HB]]; [lia|].
    replace ((r / 3 * 3 + c / 3) / 3) with (r / 3) in HB
      by (rewrite Nat.div_add_l by lia;
          rewrite (Nat.div_small (c / 3) 3) by lia; lia).
    replace ((r / 3 * 3 + c / 3) mod 3) with (c / 3) in HB
      by (rewrite Nat.add_comm, Nat.Div0.mod_add;
          now rewrite Nat.mod_small by lia).
    apply (Hgroup (boxCells (r / 3) (c / 3)) HB).
    + now apply In_boxCells.
    + rewrite E1, E2. now apply In_boxCells.
Qed.

(** X29: [isBoardSolved] accepts a 9x9 board whose cells hold null or digits
    1..9 exactly when every row, every column and every box of the board
    holds each of the digits 1..9 once. *)
Theorem isBoardSolved_iff_latin (b : Board) :
  wf b ->
  (isBoardSolved b = true /\ cellsAreDigits b = true <-> Latin b).
Proof.
  intros _. rewrite isBoardSolved_true. split.
  - intros [[Hfull Hnc] Hd].
    assert (Fills emptyBoard b) as Hfi.
    { intros r c Hr Hc. rewrite getCell_emptyBoard.
      unfold cellsAreDigits in Hd. rewrite forallb_forall in Hd.
      specialize (Hd (r, c) (proj2 (in_allPositions r c) (conj Hr Hc))).
      cbn [fst snd] in Hd.
      destruct (getCell b r c) as [d|] eqn:E;
        [|exfalso; now apply (Hfull r c)].
      exists d. split; [|reflexivity].
      apply in_digits. apply andb_true_iff in Hd. lia. }
    intros i Hi.
    assert (i / 3 < 3) as Hbr by (apply Nat.Div0.div_lt_upper_bound; lia).
    assert (i mod 3 < 3) as Hbc by (apply Nat.mod_upper_bound; lia).
    destruct (rowCells_group i) as [R1 [R2 [R3 R4]]]; [lia|].
    destruct (colCells_group i) as [C1 [C2 [C3 C4]]]; [lia|].
    destruct (boxCells_group (i / 3) (i mod 3) Hbr Hbc) as [B1 [B2 [B3 B4]]].
    split; [|split]; now apply group_values.
  - intros HL. split; [split|].
    + intros r c Hr Hc.
      destruct (Latin_row_value b r c HL Hr Hc) as [d [_ E]]. congruence.
    + now apply Latin_NoConflict.
    + unfold cellsAreDigits. apply forallb_forall.
      intros [r c] Hin. apply in_allPositions in Hin. cbn [fst snd].
      destruct (Latin_row_value b r c HL (proj1 Hin) (proj2 Hin))
        as [d [Hd E]].
      rewrite E. apply in_digits in Hd.
      apply andb_true_iff. split; apply Z.leb_le; lia.
Qed.

Lemma isBoardSolved_iff_latin_witness :
  wf knownSolution /\
  (isBoardSolved knownSolution = true /\ cellsAreDigits knownSolution = true
   <-> Latin knownSolution).
Proof.
  split; [exact wf_knownSolution|].
  apply (isBoardSolved_iff_latin knownSolution wf_knownSolution).
Defined.
